(** * Quirk: the gate catalog (src/gates/AllGates.js) and GPU textures
      (src/webgl/WglTexture.js)

    A shallow embedding of the catalog of gate definitions and of the lazily
    initialised texture/framebuffer pair, with the properties of the
    specification proved about them.

    Conventions.  JavaScript numbers that the code uses as integers (spans,
    bit offsets, row and column indices, WebGL codes) are [Z]; numbers used as
    quantities (amplitudes, times, angles) are [R].  The remainder [%] and
    the comparison [<] of doubles are exact; the sum of two times is rounded
    to the nearest double ([Js.add]).  [Math.pow], [Math.cos] and [Math.sin]
    are given their exact values, which the doubles of the program
    approximate: what is proved of the entries they make is proved within a
    tolerance, for every matrix whose entries are near the exact ones.  A
    JavaScript call that may throw returns a [Completion]. *)

From Stdlib Require Import ZArith List String Ascii Bool Reals Lra Lia.
From Stdlib Require Import Permutation DecimalString.
Import ListNotations.

Set Implicit Arguments.

(* ================================================================== *)
(** * JavaScript primitives used by the sources *)
(* ================================================================== *)

Module Js.

Open Scope Z_scope.

(** ToInt32: the operands and the result of [<<], [>>], [&] and [|] are
    signed 32-bit integers. *)
Definition toInt32 (x : Z) : Z := (x + 2 ^ 31) mod 2 ^ 32 - 2 ^ 31.

(** [a << b]: the shift count is taken modulo 32. *)
Definition shl (a b : Z) : Z := toInt32 (Z.shiftl (toInt32 a) (b mod 32)).

(** [a >> b]: sign-propagating right shift. *)
Definition sar (a b : Z) : Z := Z.shiftr (toInt32 a) (b mod 32).

(** [a & b] and [a | b]. *)
Definition band (a b : Z) : Z := Z.land (toInt32 a) (toInt32 b).
Definition bor (a b : Z) : Z := Z.lor (toInt32 a) (toInt32 b).

(** [Math.floor(a / b)] for integer-valued [a] and positive [b]. *)
Definition floor_div (a b : Z) : Z := a / b.

(** String conversion of an integer-valued number, as in ["QFT" + span]. *)
Definition string_of_number (n : Z) : string :=
  NilZero.string_of_int (Z.to_int n).

(** [Seq.range(n)] of src/base/Seq.js followed by [toArray()]: 0, 1, ...,
    n-1. *)
Definition range (n : Z) : list Z := map Z.of_nat (seq 0 (Z.to_nat n)).

Close Scope Z_scope.
Open Scope R_scope.

(** Truncation of a real towards zero. *)
Definition trunc (x : R) : Z :=
  if Rle_dec 0 x then (up x - 1)%Z else (- (up (- x) - 1))%Z.

(** [x % y] on numbers: the remainder has the sign of the dividend. *)
Definition rem (x y : R) : R := x - IZR (trunc (x / y)) * y.

(** [a < b ? u : v] on numbers. *)
Definition ltb (a b : R) : bool := if Rlt_dec a b then true else false.

(** [Math.pow(x, y)] for a positive base. *)
Definition pow (x y : R) : R := Rpower x y.

(** The largest integer that is not above [x]. *)
Definition floor (x : R) : Z := (up x - 1)%Z.

(** The numbers of the program are IEEE 754 doubles: 53 significant bits,
    exponents from -1022 up.  [binade x] is the exponent of [x], [ulp x]
    the distance between the doubles around [x], the subnormal ones
    included. *)
Definition pow2 (e : Z) : R := Rpower 2 (IZR e).

Definition binade (x : R) : Z := floor (ln (Rabs x) / ln 2).

Definition ulp (x : R) : R := pow2 (Z.max (binade x) (-1022) - 52).

(** The integer nearest to [m], the even one of the two when [m] is half way
    between them. *)
Definition nearestEven (m : R) : Z :=
  let f := floor m in
  if Rlt_dec (m - IZR f) (1 / 2) then f
  else if Rlt_dec (1 / 2) (m - IZR f) then (f + 1)%Z
  else if Z.even f then f else (f + 1)%Z.

(** The double nearest to the real [x], ties to even: the result of an
    arithmetic operation of the program whose exact result is [x].  Results
    beyond the largest double, which become Infinity, are not modelled. *)
Definition round64 (x : R) : R :=
  if Req_dec_T x 0 then 0 else IZR (nearestEven (x / ulp x)) * ulp x.

(** [x + y] on numbers: the sum is rounded. *)
Definition add (x y : R) : R := round64 (x + y).

Close Scope R_scope.

(** Completion of a call: it returns a value or throws an error. *)
Inductive Completion (E A : Type) : Type :=
| Returned (a : A)
| Thrown (e : E).

Arguments Returned {E A} a.
Arguments Thrown {E A} e.

(** [try { c } catch (e) { handler(e) }]. *)
Definition try_catch {E A : Type} (c : Completion E A)
    (handler : E -> Completion E A) : Completion E A :=
  match c with
  | Returned a => Returned a
  | Thrown e => handler e
  end.

(** The source of [Math.random()]: an infinite sequence of draws from
    [0, 1) and the number of draws consumed so far. *)
Record RandomSource : Type := mkRandomSource {
  draws : nat -> R;
  consumed : nat
}.

(** Computations that may call [Math.random()]. *)
Definition Rand (A : Type) : Type := RandomSource -> A * RandomSource.

Definition ret {A : Type} (a : A) : Rand A := fun s => (a, s).

Definition bind {A B : Type} (m : Rand A) (k : A -> Rand B) : Rand B :=
  fun s => let (a, s') := m s in k a s'.

Definition random : Rand R :=
  fun s => (draws s (consumed s), mkRandomSource (draws s) (S (consumed s))).

End Js.

Notation "x <- c1 ;; c2" := (Js.bind c1 (fun x => c2))
  (at level 61, c1 at next level, right associativity).

(* ================================================================== *)
(** * Complex numbers and matrices *)
(* ================================================================== *)

Open Scope R_scope.

(** [τ = Math.PI * 2]. *)
Definition tau : R := PI * 2.

(** Modelled from the spec: src/math/Complex.js is not among the sources.  A
    complex amplitude has a real and an imaginary channel; [Complex.polar]
    takes a magnitude and a phase ("cos/sin computed from τ·r·c / 2^span"). *)
Record Complex : Type := mkComplex { real : R; imag : R }.

Module ComplexOps.

Definition from (x : R) : Complex := mkComplex x 0.

Definition polar (magnitude phase : R) : Complex :=
  mkComplex (magnitude * cos phase) (magnitude * sin phase).

Definition plus (a b : Complex) : Complex :=
  mkComplex (real a + real b) (imag a + imag b).

Definition times (a b : Complex) : Complex :=
  mkComplex (real a * real b - imag a * imag b)
            (real a * imag b + imag a * real b).

Definition conjugate (a : Complex) : Complex := mkComplex (real a) (- imag a).

Definition zero : Complex := from 0.
Definition one : Complex := from 1.

(** Square of the magnitude of an amplitude. *)
Definition norm2 (a : Complex) : R := real a * real a + imag a * imag a.

(** Square of the distance between two amplitudes. *)
Definition dist2 (a b : Complex) : R :=
  (real a - real b) * (real a - real b) + (imag a - imag b) * (imag a - imag b).

End ComplexOps.

(** Modelled from the spec: src/math/Matrix.js is not among the sources.  A
    matrix is the list of its rows; [Matrix.generate(width, height, f)] holds
    [f(r, c)] at row [r] and column [c]; a gate with a matrix acts on a state
    by "direct matrix multiplication". *)
Definition Matrix : Type := list (list Complex).

Module MatrixOps.

Definition generate (width height : Z) (f : Z -> Z -> Complex) : Matrix :=
  map (fun r => map (fun c => f r c) (Js.range width)) (Js.range height).

(** [Matrix.square(...coefs)]: the square matrix with the given entries, row
    after row. *)
Definition square (coefs : list Complex) : Matrix :=
  let n := Z.sqrt (Z.of_nat (List.length coefs)) in
  generate n n (fun r c => nth (Z.to_nat (r * n + c)) coefs ComplexOps.zero).

Definition identity (size : Z) : Matrix :=
  generate size size
    (fun r c => if Z.eqb r c then ComplexOps.one else ComplexOps.zero).

Definition PAULI_X : Matrix :=
  [[ComplexOps.zero; ComplexOps.one]; [ComplexOps.one; ComplexOps.zero]].

Definition cell (m : Matrix) (r c : nat) : Complex :=
  nth c (nth r m []) ComplexOps.zero.

Fixpoint dot (row v : list Complex) : Complex :=
  match row, v with
  | a :: row', x :: v' => ComplexOps.plus (ComplexOps.times a x) (dot row' v')
  | _, _ => ComplexOps.zero
  end.

(** The state after a gate of matrix [m] has been applied to the amplitude
    vector [v]. *)
Definition apply (m : Matrix) (v : list Complex) : list Complex :=
  map (fun row => dot row v) m.

(** Product and conjugate transpose. *)
Definition column (m : Matrix) (j : nat) : list Complex :=
  map (fun row => nth j row ComplexOps.zero) m.

Definition columns (m : Matrix) : nat := List.length (hd [] m).

Definition times (a b : Matrix) : Matrix :=
  map (fun row => map (fun j => dot row (column b j)) (seq 0 (columns b))) a.

Definition adjoint (m : Matrix) : Matrix :=
  map (fun j => map ComplexOps.conjugate (column m j)) (seq 0 (columns m)).

End MatrixOps.

Close Scope R_scope.

(* ================================================================== *)
(** * Gate definitions *)
(* ================================================================== *)

(** Modelled from the spec: src/base/DetailedError.js is not among the
    sources.  A detailed fault is an ordinary error value made of a message
    and the object of details given to its constructor. *)
Record DetailedError : Type := mkDetailedError {
  message : string;
  detailsObj : list (string * Z)
}.

Definition newline : string := String (ascii_of_nat 10) EmptyString.

Section GateModel.

(** Textures (amplitude states and control masks) and the configured shader
    passes made by src/circuit/CircuitShaders.js and
    src/circuit/GateShaders.js, which are not among the sources. *)
Variables Tex Pass : Type.

(** A custom shader [(val, con, bit) => ...]: the input state, the control
    texture and the index of the gate's first qubit. *)
Definition Shader : Type := Tex -> Tex -> Z -> Js.Completion DetailedError Pass.

(** What a gate knows of its matrix: nothing, one matrix, or a function of
    the time (a JavaScript closure, free to call [Math.random()]). *)
Inductive MatrixOrFunc : Type :=
| NoMatrix
| KnownMatrix (m : Matrix)
| VaryingMatrix (f : R -> Js.Rand Matrix).

Inductive Stability : Type :=
| Unstable
| StableFor (duration : R)
| StableForever.

(** Modelled from the spec: src/circuit/Gate.js is not among the sources.
    "GateDefinition: immutable record — display symbol, title, blurb, qubit
    span (height), optional static or time-parametrized matrix, optional
    ordered kernel list, a stability flag, and a unique serialization
    identifier."  Each builder method returns a copy with one field changed;
    the drawers are left to the renderer. *)
Record Gate : Type := mkGate {
  symbol : string;
  name : string;
  blurb : string;
  serializedId : string;
  height : Z;
  matrixOrFunc : MatrixOrFunc;
  customShaders : option (list Shader);
  stability : Stability;
  onlyPermutingAndPhasing : bool
}.

Definition withoutKnownMatrix (sym nm bl : string) : Gate :=
  mkGate sym nm bl sym 1 NoMatrix None Unstable false.

Definition fromKnownMatrix (sym : string) (m : Matrix) (nm bl : string) : Gate :=
  mkGate sym nm bl sym 1 (KnownMatrix m) None StableForever false.

Definition fromVaryingMatrix (sym : string) (f : R -> Js.Rand Matrix)
    (nm bl : string) : Gate :=
  mkGate sym nm bl sym 1 (VaryingMatrix f) None Unstable false.

Definition markedAsStable (g : Gate) : Gate :=
  mkGate (symbol g) (name g) (blurb g) (serializedId g) (height g)
         (matrixOrFunc g) (customShaders g) StableForever
         (onlyPermutingAndPhasing g).

Definition withStableDuration (d : R) (g : Gate) : Gate :=
  mkGate (symbol g) (name g) (blurb g) (serializedId g) (height g)
         (matrixOrFunc g) (customShaders g) (StableFor d)
         (onlyPermutingAndPhasing g).

Definition markedAsOnlyPermutingAndPhasing (g : Gate) : Gate :=
  mkGate (symbol g) (name g) (blurb g) (serializedId g) (height g)
         (matrixOrFunc g) (customShaders g) (stability g) true.

(** [withKnownMatrix(undefined)] leaves the gate without a matrix. *)
Definition withKnownMatrix (m : option Matrix) (g : Gate) : Gate :=
  mkGate (symbol g) (name g) (blurb g) (serializedId g) (height g)
         (match m with Some m' => KnownMatrix m' | None => NoMatrix end)
         (customShaders g) (stability g) (onlyPermutingAndPhasing g).

Definition withSerializedId (id : string) (g : Gate) : Gate :=
  mkGate (symbol g) (name g) (blurb g) id (height g)
         (matrixOrFunc g) (customShaders g) (stability g)
         (onlyPermutingAndPhasing g).

Definition withHeight (h : Z) (g : Gate) : Gate :=
  mkGate (symbol g) (name g) (blurb g) (serializedId g) h
         (matrixOrFunc g) (customShaders g) (stability g)
         (onlyPermutingAndPhasing g).

Definition withCustomShaders (shaders : list Shader) (g : Gate) : Gate :=
  mkGate (symbol g) (name g) (blurb g) (serializedId g) (height g)
         (matrixOrFunc g) (Some shaders) (stability g)
         (onlyPermutingAndPhasing g).

Definition withCustomShader (shader : Shader) (g : Gate) : Gate :=
  withCustomShaders [shader] g.

(** The matrix of a gate at time [t], when it has one. *)
Definition matrixAt (g : Gate) (t : R) : Js.Rand (option Matrix) :=
  match matrixOrFunc g with
  | NoMatrix => Js.ret None
  | KnownMatrix m => Js.ret (Some m)
  | VaryingMatrix f => m <- f t ;; Js.ret (Some m)
  end.

(** The effect of a gate that has a matrix on an amplitude vector, at time
    [t]: "direct matrix multiplication". *)
Definition applyAt (g : Gate) (t : R) (state : list Complex)
    : Js.Rand (option (list Complex)) :=
  m <- matrixAt g t ;;
  Js.ret (option_map (fun m' => MatrixOps.apply m' state) m).

(** "Family generation produces span-indexed variants over a declared
    inclusive range (e.g. 1..16)"; [ofSize] looks a variant up by its
    height. *)
Record Family : Type := mkFamily { all : list Gate }.

Definition generateFamily (minSize maxSize : Z) (gateGenerator : Z -> Gate)
    : Family :=
  mkFamily (map (fun i => gateGenerator (minSize + i)%Z)
                (Js.range (maxSize - minSize + 1))).

Definition ofSize (f : Family) (h : Z) : option Gate :=
  find (fun g => Z.eqb (height g) h) (all f).

(** The parts of the repository that AllGates.js imports and that are not
    among the sources: shader makers, two matrix functions, and the gates
    and families of the other gate modules. *)
Record Imports : Type := mkImports {
  CircuitShaders_swap : Tex -> Z -> Z -> Tex -> Js.Completion DetailedError Pass;
  GateShaders_fourierTransformStep :
    Tex -> Tex -> Z -> Z -> Js.Completion DetailedError Pass;
  GateShaders_cycleBits :
    Tex -> Tex -> Z -> Z -> Z -> Js.Completion DetailedError Pass;
  GateShaders_universalNot : Shader;
  Matrix_fromPauliRotation : R -> R -> R -> Matrix;
  Matrix_closestUnitary : Matrix -> Matrix;
  AmplitudeDisplayFamily : Family;
  ProbabilityDisplayFamily : Family;
  SampleDisplayFamily : Family;
  DensityMatrixDisplayFamily : Family;
  HalfTurns_X : Gate;
  HalfTurns_Y : Gate;
  HalfTurns_Z : Gate;
  HalfTurns_H : Gate;
  PhaseGradientFamily : Family;
  PhaseDegradientFamily : Family;
  PostSelectOff : Gate;
  PostSelectOn : Gate;
  PostSelectPlus : Gate;
  PostSelectMinus : Gate;
  Powering_XForward : Gate;
  Powering_YForward : Gate;
  Powering_ZForward : Gate;
  Powering_XBackward : Gate;
  Powering_YBackward : Gate;
  Powering_ZBackward : Gate;
  Exponentiating_XForward : Gate;
  Exponentiating_YForward : Gate;
  Exponentiating_ZForward : Gate;
  Exponentiating_XBackward : Gate;
  Exponentiating_YBackward : Gate;
  Exponentiating_ZBackward : Gate;
  IncrementFamily : Family;
  DecrementFamily : Family;
  AdditionFamily : Family;
  SubtractionFamily : Family;
  CountingFamily : Family;
  UncountingFamily : Family
}.

End GateModel.

Arguments withoutKnownMatrix {Tex Pass} sym nm bl.
Arguments fromKnownMatrix {Tex Pass} sym m nm bl.
Arguments fromVaryingMatrix {Tex Pass} sym f nm bl.

(** Method chaining: [g.withHeight(h)] is [g |> withHeight h]. *)
Notation "g |> f" := (f g) (at level 45, left associativity, only parsing).

(* ================================================================== *)
(** * src/gates/AllGates.js *)
(* ================================================================== *)

Module AllGates.

Section Catalog.

Variables Tex Pass : Type.
Variable imp : Imports Tex Pass.

Local Abbreviation Gate := (Gate Tex Pass).
Local Abbreviation Family := (Family Tex Pass).

Local Open Scope string_scope.

Definition fromIdentity (sym nm bl : string) : Gate :=
  fromKnownMatrix sym (MatrixOps.identity 2) nm bl.

(** ** Gates.Special *)

Definition Control : Gate :=
  fromIdentity "•" "Control"
    ("Conditions on a qubit being ON." ++ newline ++
     "Gates in the same column will only apply to states meeting the condition.").

Definition AntiControl : Gate :=
  fromIdentity "◦" "Anti-Control"
    ("Conditions on a qubit being OFF." ++ newline ++
     "Gates in the same column will only apply to states meeting the condition.").

Definition Measurement : Gate :=
  fromIdentity "Measure" "Measurement Gate"
    "Measures a wire's qubit, along the Z axis.".

Definition SwapHalf : Gate :=
  fromKnownMatrix "Swap"
    (MatrixOps.square (map ComplexOps.from
       [1; 0; 0; 0;
        0; 0; 1; 0;
        0; 1; 0; 0;
        0; 0; 0; 1]%R))
    "Swap Gate [Half]"
    ("Swaps the values of two qubits." ++ newline ++
     "Place two swap gate halves in the same column to form a swap gate.").

(** ** Gates.Displays *)

Definition BlochSphereDisplay : Gate :=
  fromIdentity "Bloch" "Bloch Sphere Display"
    ("Shows a wire's local state as a point on the Bloch Sphere." ++ newline ++
     "Use controls to see conditional states.").

(** ** Gates.FourierTransformFamily *)

(** The entries are the exact values of the expression of the source; the
    entries of the program are the doubles that [Math.pow], [Math.cos] and
    [Math.sin] return for them. *)
Definition FOURIER_TRANSFORM_MATRIX_MAKER (span : Z) : Matrix :=
  MatrixOps.generate (Js.shl 1 span) (Js.shl 1 span) (fun r c =>
    ComplexOps.polar (Js.pow 0.5 (IZR span / 2))
                     (tau * IZR r * IZR c / IZR (Js.shl 1 span))%R).

Definition FourierTransformFamily : Family :=
  generateFamily 1 16 (fun span =>
    withoutKnownMatrix "QFT" "Fourier Transform Gate"
      "Transforms to/from phase frequency space."
    |> @markedAsStable _ _
    |> withKnownMatrix
         (if (4 <=? span)%Z then None
          else Some (FOURIER_TRANSFORM_MATRIX_MAKER span))
    |> withSerializedId ("QFT" ++ Js.string_of_number span)
    |> withHeight span
    |> withCustomShaders
         (map (fun i => fun val con bit =>
                 CircuitShaders_swap imp val (bit + i)%Z
                                     (bit + span - i - 1)%Z con)
              (Js.range (Js.floor_div span 2))
          ++ map (fun i => fun val con bit =>
                    GateShaders_fourierTransformStep imp val con bit i)
                 (Js.range span))%list).

(** ** Gates.QuarterTurns, Gates.OtherZ, Gates.OtherX, Gates.OtherY *)

Definition pauli (sym : string) (x y z : R) (nm bl : string) : Gate :=
  fromKnownMatrix sym (Matrix_fromPauliRotation imp x y z) nm bl.

Definition SqrtXForward : Gate :=
  pauli "X^½" 0.25 0 0 "√X Gate" "Principle square root of Not.".
Definition SqrtXBackward : Gate :=
  pauli "X^-½" 0.75 0 0 "X^-½ Gate" "Adjoint square root of Not.".
Definition SqrtYForward : Gate :=
  pauli "Y^½" 0 0.25 0 "√Y Gate" "Principle square root of Y.".
Definition SqrtYBackward : Gate :=
  pauli "Y^-½" 0 0.75 0 "Y^-½ Gate" "Adjoint square root of Y.".
Definition SqrtZForward : Gate :=
  pauli "Z^½" 0 0 0.25 "√Z Gate"
    ("Principle square root of Z." ++ newline ++ "Also known as the 'S' gate.").
Definition SqrtZBackward : Gate :=
  pauli "Z^-½" 0 0 0.75 "Z^-½ Gate" "Adjoint square root of Z.".

Definition Z3 : Gate :=
  pauli "Z^⅓" 0 0 (1 / 6) "Z^⅓ Gate" "Principle third root of Z.".
Definition Z3i : Gate :=
  pauli "Z^-⅓" 0 0 (-1 / 6) "Z^-⅓ Gate" "Adjoint third root of Z.".
Definition Z4 : Gate :=
  pauli "Z^¼" 0 0 (1 / 8) "Z^¼ Gate"
    ("Principle fourth root of Z." ++ newline ++ "Also known as the 'T' gate.").
Definition Z4i : Gate :=
  pauli "Z^-¼" 0 0 (-1 / 8) "Z^-¼ Gate" "Adjoint fourth root of Z.".
Definition Z8 : Gate :=
  pauli "Z^⅛" 0 0 (1 / 16) "Z^⅛ Gate" "Principle eighth root of Z.".
Definition Z8i : Gate :=
  pauli "Z^-⅛" 0 0 (-1 / 16) "Z^-⅛ Gate" "Adjoint eighth root of Z.".
Definition Z16 : Gate :=
  pauli "Z^⅟₁₆" 0 0 (1 / 32) "Z^⅟₁₆ Gate" "Principle sixteenth root of Z.".
Definition Z16i : Gate :=
  pauli "Z^-⅟₁₆" 0 0 (-1 / 32) "Z^-⅟₁₆ Gate" "Adjoint sixteenth root of Z.".

Definition X3 : Gate :=
  pauli "X^⅓" (1 / 6) 0 0 "X^⅓ Gate" "Principle third root of X.".
Definition X3i : Gate :=
  pauli "X^-⅓" (-1 / 6) 0 0 "X^-⅓ Gate" "Adjoint third root of X.".
Definition X4 : Gate :=
  pauli "X^¼" (1 / 8) 0 0 "X^¼ Gate" "Principle fourth root of X.".
Definition X4i : Gate :=
  pauli "X^-¼" (-1 / 8) 0 0 "X^-¼ Gate" "Adjoint fourth root of X.".
Definition X8 : Gate :=
  pauli "X^⅛" (1 / 16) 0 0 "X^⅛ Gate" "Principle eighth root of X.".
Definition X8i : Gate :=
  pauli "X^-⅛" (-1 / 16) 0 0 "X^-⅛ Gate" "Adjoint eighth root of X.".
Definition X16 : Gate :=
  pauli "X^⅟₁₆" (1 / 32) 0 0 "X^⅟₁₆ Gate" "Principle sixteenth root of X.".
Definition X16i : Gate :=
  pauli "X^-⅟₁₆" (-1 / 32) 0 0 "X^-⅟₁₆ Gate" "Adjoint sixteenth root of X.".

Definition Y3 : Gate :=
  pauli "Y^⅓" 0 (1 / 6) 0 "Y^⅓ Gate" "Principle third root of Y.".
Definition Y3i : Gate :=
  pauli "Y^-⅓" 0 (-1 / 6) 0 "Y^-⅓ Gate" "Adjoint third root of Y.".
Definition Y4 : Gate :=
  pauli "Y^¼" 0 (1 / 8) 0 "Y^¼ Gate" "Principle fourth root of Y.".
Definition Y4i : Gate :=
  pauli "Y^-¼" 0 (-1 / 8) 0 "Y^-¼ Gate" "Adjoint fourth root of Y.".
Definition Y8 : Gate :=
  pauli "Y^⅛" 0 (1 / 16) 0 "Y^⅛ Gate" "Principle eighth root of Y.".
Definition Y8i : Gate :=
  pauli "Y^-⅛" 0 (-1 / 16) 0 "Y^-⅛ Gate" "Adjoint eighth root of Y.".
Definition Y16 : Gate :=
  pauli "Y^⅟₁₆" 0 (1 / 32) 0 "Y^⅟₁₆ Gate" "Principle sixteenth root of Y.".
Definition Y16i : Gate :=
  pauli "Y^-⅟₁₆" 0 (-1 / 32) 0 "Y^-⅟₁₆ Gate" "Adjoint sixteenth root of Y.".

(** ** Gates.Misc *)

Definition MysteryGateSymbol : string := "?".

Definition MysteryGateMakerWithMatrix (matrix : Matrix) : Gate :=
  fromKnownMatrix MysteryGateSymbol matrix "Mystery Gate"
    ("Every time you grab this gate out of the toolbox, it changes." ++ newline ++
     "Duplicate gates in the circuit by holding shift before dragging.").

(** The eight calls of [Math.random()] are made from left to right while the
    arguments of [Matrix.square] are evaluated. *)
Definition MysteryGateMaker : Js.Rand Gate :=
  r0 <- Js.random ;; i0 <- Js.random ;;
  r1 <- Js.random ;; i1 <- Js.random ;;
  r2 <- Js.random ;; i2 <- Js.random ;;
  r3 <- Js.random ;; i3 <- Js.random ;;
  Js.ret (MysteryGateMakerWithMatrix
    (Matrix_closestUnitary imp
       (MatrixOps.square
          [mkComplex (r0 - 0.5) (i0 - 0.5);
           mkComplex (r1 - 0.5) (i1 - 0.5);
           mkComplex (r2 - 0.5) (i2 - 0.5);
           mkComplex (r3 - 0.5) (i3 - 0.5)]%R))).

Definition ClockPulseGate : Gate :=
  fromVaryingMatrix "X^⌈t⌉"
    (fun t => Js.ret (if Js.ltb (Js.rem t 1) 0.5
                      then MatrixOps.identity 2 else MatrixOps.PAULI_X))
    "Clock Pulse Gate"
    "Xors a square wave into the target wire."
  |> withStableDuration 0.5.

Definition QuarterPhaseClockPulseGate : Gate :=
  fromVaryingMatrix "X^⌈t-¼⌉"
    (fun t => Js.ret (if Js.ltb (Js.rem (Js.add t 0.75) 1) 0.5
                      then MatrixOps.identity 2 else MatrixOps.PAULI_X))
    "Clock Pulse Gate (Quarter Phase)"
    "Xors a quarter-phased square wave into the target wire."
  |> withStableDuration 0.25.

Definition SpacerGate : Gate :=
  fromIdentity "…" "Spacer" "A gate with no effect.".

(** ** Gates.ExperimentalAndImplausible *)

Definition CYCLE_BITS_MATRIX_MAKER (span : Z) : Matrix :=
  MatrixOps.generate (Js.shl 1 span) (Js.shl 1 span) (fun r c =>
    let expected := r in
    let input := c in
    let actual := Js.shl input 1 in
    let actual := Js.bor (Js.band actual (Js.shl 1 span - 1)%Z)
                         (Js.sar actual span) in
    if Z.eqb expected actual then ComplexOps.from 1 else ComplexOps.from 0).

Definition UniversalNot : Gate :=
  withoutKnownMatrix "UniNot" "Universal Not Gate"
    ("Mirrors a qubit's state through the origin of the Bloch sphere." ++ newline ++
     "Impossible in practice.")
  |> @markedAsStable _ _
  |> withCustomShader (GateShaders_universalNot imp)
  |> withSerializedId "__unstable__UniversalNot".

(** The shader of the error injection gate. *)
Definition ErrorInjectionShader : Shader Tex Pass :=
  fun inputTex controlTex qubit =>
    Js.Thrown (mkDetailedError "Applied an Error Injection Gate"
                               [("qubit", qubit)]).

Definition ErrorInjection : Gate :=
  withoutKnownMatrix "ERR!" "Error Injection Gate"
    "Throws an exception during circuit stat computations, for testing error paths."
  |> @markedAsStable _ _
  |> withCustomShader ErrorInjectionShader
  |> withSerializedId "__debug__ErrorInjection".

Definition CycleBitsFamily : Family :=
  generateFamily 2 16 (fun span =>
    withoutKnownMatrix "<<=1" "Bit Cycle Gate" "Swaps bits in a cycle."
    |> @markedAsStable _ _
    |> @markedAsOnlyPermutingAndPhasing _ _
    |> withKnownMatrix
         (if (4 <=? span)%Z then None else Some (CYCLE_BITS_MATRIX_MAKER span))
    |> withSerializedId ("__unstable__cycle" ++ Js.string_of_number span)
    |> withHeight span
    |> withCustomShader
         (fun val con bit => GateShaders_cycleBits imp val con bit span 1)).

(** ** Gates.Sets *)

Record GateSet : Type := mkGateSet {
  hint : string;
  gates : list (option Gate)
}.

(** The table is built when the module is loaded; [MysteryGateMaker()] is
    called once while it is. *)
Definition Sets : Js.Rand (list GateSet) :=
  mystery <- MysteryGateMaker ;;
  Js.ret [
    mkGateSet "Probes"
      [Some Measurement; Some (PostSelectOff imp); Some AntiControl;
       None; Some (PostSelectOn imp); Some Control];
    mkGateSet "Displays"
      [ofSize (SampleDisplayFamily imp) 3;
       ofSize (DensityMatrixDisplayFamily imp) 1;
       ofSize (ProbabilityDisplayFamily imp) 1;
       None; Some BlochSphereDisplay;
       ofSize (AmplitudeDisplayFamily imp) 2];
    mkGateSet "Half Turns"
      [Some (HalfTurns_Z imp); Some (HalfTurns_Y imp); Some (HalfTurns_X imp);
       Some SwapHalf; None; Some (HalfTurns_H imp)];
    mkGateSet "Quarter Turns"
      [Some SqrtZForward; Some SqrtYForward; Some SqrtXForward;
       Some SqrtZBackward; Some SqrtYBackward; Some SqrtXBackward];
    mkGateSet "Eighth Turns"
      [Some Z4; Some Y4; Some X4; Some Z4i; Some Y4i; Some X4i];
    mkGateSet "Misc"
      [ofSize (PhaseGradientFamily imp) 2; None;
       ofSize FourierTransformFamily 2;
       ofSize (PhaseDegradientFamily imp) 2;
       Some mystery; Some SpacerGate];
    mkGateSet "Arithmetic"
      [ofSize (CountingFamily imp) 2; ofSize (AdditionFamily imp) 4;
       ofSize (IncrementFamily imp) 2; ofSize (UncountingFamily imp) 2;
       ofSize (SubtractionFamily imp) 4; ofSize (DecrementFamily imp) 2];
    mkGateSet "Raising"
      [Some (Powering_ZForward imp); Some (Powering_YForward imp);
       Some (Powering_XForward imp); Some (Powering_ZBackward imp);
       Some (Powering_YBackward imp); Some (Powering_XBackward imp)];
    mkGateSet "Exponentiating"
      [Some (Exponentiating_ZForward imp); Some (Exponentiating_YForward imp);
       Some (Exponentiating_XForward imp); Some (Exponentiating_ZBackward imp);
       Some (Exponentiating_YBackward imp); Some (Exponentiating_XBackward imp)];
    mkGateSet "Other X"
      [Some X16; Some X8; Some X3; Some X16i; Some X8i; Some X3i];
    mkGateSet "Other Y"
      [Some Y16; Some Y8; Some Y3; Some Y16i; Some Y8i; Some Y3i];
    mkGateSet "Other Z"
      [Some Z16; Some Z8; Some Z3; Some Z16; Some Z8i; Some Z3i]
  ].

(** ** Gates.KnownToSerializer *)

Definition KnownToSerializer : list Gate :=
  ([Control; AntiControl; Measurement; SwapHalf;
   PostSelectOff imp; PostSelectOn imp; PostSelectPlus imp; PostSelectMinus imp]
  ++ all (AmplitudeDisplayFamily imp)
  ++ all (ProbabilityDisplayFamily imp)
  ++ all (SampleDisplayFamily imp)
  ++ all (DensityMatrixDisplayFamily imp)
  ++ [BlochSphereDisplay;
      SpacerGate; ClockPulseGate; QuarterPhaseClockPulseGate;
      HalfTurns_H imp; HalfTurns_X imp; HalfTurns_Y imp; HalfTurns_Z imp;
      SqrtXForward; SqrtYForward; SqrtZForward;
      SqrtXBackward; SqrtYBackward; SqrtZBackward;
      Powering_XForward imp; Powering_YForward imp; Powering_ZForward imp;
      Powering_XBackward imp; Powering_YBackward imp; Powering_ZBackward imp;
      Exponentiating_XBackward imp; Exponentiating_YBackward imp;
      Exponentiating_ZBackward imp;
      Exponentiating_XForward imp; Exponentiating_YForward imp;
      Exponentiating_ZForward imp;
      X3; X4; X8; X16; X3i; X4i; X8i; X16i;
      Y3; Y4; Y8; Y16; Y3i; Y4i; Y8i; Y16i;
      Z3; Z4; Z8; Z16; Z3i; Z4i; Z8i; Z16i]
  ++ all (IncrementFamily imp)
  ++ all (DecrementFamily imp)
  ++ all (AdditionFamily imp)
  ++ all (SubtractionFamily imp)
  ++ all (CountingFamily imp)
  ++ all (UncountingFamily imp)
  ++ all FourierTransformFamily
  ++ all (PhaseGradientFamily imp)
  ++ all (PhaseDegradientFamily imp)
  ++ [UniversalNot; ErrorInjection]
  ++ all CycleBitsFamily)%list.

(** The gates whose serialization id this file sets with
    [withSerializedId], in the order of [KnownToSerializer]. *)
Definition withExplicitSerializedId : list Gate :=
  (all FourierTransformFamily
   ++ [UniversalNot; ErrorInjection]
   ++ all CycleBitsFamily)%list.

End Catalog.

End AllGates.

(* ================================================================== *)
(** * src/webgl/WglTexture.js *)
(* ================================================================== *)

Module Wgl.

Local Open Scope Z_scope.

(** ** The WebGL rendering context *)

(** Constants of [WebGLRenderingContext]. *)
Definition NO_ERROR : Z := 0.
Definition OUT_OF_MEMORY : Z := 0x0505.
Definition TEXTURE_2D : Z := 0x0DE1.
Definition UNSIGNED_BYTE : Z := 0x1401.
Definition FLOAT : Z := 0x1406.
Definition RGBA : Z := 0x1908.
Definition NEAREST : Z := 0x2600.
Definition TEXTURE_MAG_FILTER : Z := 0x2800.
Definition TEXTURE_MIN_FILTER : Z := 0x2801.
Definition TEXTURE_WRAP_S : Z := 0x2802.
Definition TEXTURE_WRAP_T : Z := 0x2803.
Definition CLAMP_TO_EDGE : Z := 0x812F.
Definition FRAMEBUFFER_COMPLETE : Z := 0x8CD5.
Definition FRAMEBUFFER_UNSUPPORTED : Z := 0x8CDD.
Definition COLOR_ATTACHMENT0 : Z := 0x8CE0.
Definition FRAMEBUFFER : Z := 0x8D40.

(** Names of GPU objects: the n-th object created has name n. *)
Definition WebGLTexture : Type := nat.
Definition WebGLFramebuffer : Type := nat.

(** The calls that WglTexture.js makes on a rendering context. *)
Inductive GlCall : Type :=
| CreateTexture
| CreateFramebuffer
| BindTexture (target : Z) (texture : option WebGLTexture)
| BindFramebuffer (target : Z) (framebuffer : option WebGLFramebuffer)
| TexParameteri (target pname param : Z)
| TexImage2D (target level internalformat width height border format type : Z)
| FramebufferTexture2D (target attachment textarget : Z)
                       (texture : WebGLTexture) (level : Z)
| GetError
| CheckFramebufferStatus (target : Z).

(** The state of a rendering context.  What the driver answers to the
    successive calls of [getError] and [checkFramebufferStatus] is not decided
    by the program: the two sequences of answers are inputs, read in order.
    [log] holds the calls made so far, the latest first. *)
Record Gl : Type := mkGl {
  getErrorAnswers : nat -> Z;
  getErrorCalls : nat;
  statusAnswers : nat -> Z;
  statusCalls : nat;
  texturesCreated : nat;
  framebuffersCreated : nat;
  log : list GlCall
}.

(** Modelled from the spec: src/webgl/WglContext.js is not among the sources.
    A context is an object of its own, told from the other contexts by its
    [identity], and holds the WebGL rendering context; "a context loss
    invalidates all textures bound to it and forces reinitialization on next
    use", which the count of the lifetimes of the context records. *)
Record WglContext : Type := mkWglContext {
  identity : nat;
  lifetimeCounter : Z;
  gl : Gl
}.

(** Modelled from the spec: src/webgl/WglUtil.js is not among the sources.
    "fails fatally (not recoverable) on allocation or binding error, raising a
    detailed fault naming the operation".  Each check is given no more than
    the code read from the context and, for [checkGetErrorResult], the label
    written at the call: these are what the fault is made of. *)
Record WglFault : Type := mkWglFault {
  operation : string;
  code : Z
}.

(** Computations on a rendering context that may throw.  The calls already
    made on the context stay made when a check throws. *)
Definition GlM (A : Type) : Type := Gl -> Js.Completion WglFault A * Gl.

Definition pure {A : Type} (a : A) : GlM A := fun g => (Js.Returned a, g).

Definition throw {A : Type} (e : WglFault) : GlM A := fun g => (Js.Thrown e, g).

Definition andThen {A B : Type} (m : GlM A) (k : A -> GlM B) : GlM B :=
  fun g =>
    match m g with
    | (Js.Returned a, g') => k a g'
    | (Js.Thrown e, g') => (Js.Thrown e, g')
    end.

Definition logged (c : GlCall) (g : Gl) : Gl :=
  match g with
  | mkGl errs nerr stats nstat ntex nfb calls =>
      mkGl errs nerr stats nstat ntex nfb (c :: calls)
  end.

Definition createTexture : GlM WebGLTexture :=
  fun g =>
    match g with
    | mkGl errs nerr stats nstat ntex nfb calls =>
        (Js.Returned ntex,
         mkGl errs nerr stats nstat (S ntex) nfb (CreateTexture :: calls))
    end.

Definition createFramebuffer : GlM WebGLFramebuffer :=
  fun g =>
    match g with
    | mkGl errs nerr stats nstat ntex nfb calls =>
        (Js.Returned nfb,
         mkGl errs nerr stats nstat ntex (S nfb) (CreateFramebuffer :: calls))
    end.

(** A call that returns nothing. *)
Definition call (c : GlCall) : GlM unit :=
  fun g => (Js.Returned tt, logged c g).

Definition getError : GlM Z :=
  fun g =>
    match g with
    | mkGl errs nerr stats nstat ntex nfb calls =>
        (Js.Returned (errs nerr),
         mkGl errs (S nerr) stats nstat ntex nfb (GetError :: calls))
    end.

Definition checkFramebufferStatus (target : Z) : GlM Z :=
  fun g =>
    match g with
    | mkGl errs nerr stats nstat ntex nfb calls =>
        (Js.Returned (stats nstat),
         mkGl errs nerr stats (S nstat) ntex nfb
              (CheckFramebufferStatus target :: calls))
    end.

Definition checkGetErrorResult (code : Z)
    (previousOperationDescription : string) : GlM unit :=
  if Z.eqb code NO_ERROR then pure tt
  else throw (mkWglFault previousOperationDescription code).

Definition checkFrameBufferStatusResult (code : Z) : GlM unit :=
  if Z.eqb code FRAMEBUFFER_COMPLETE then pure tt
  else throw (mkWglFault "checkFramebufferStatus" code).

End Wgl.

Notation "x <~ c1 ;; c2" := (Wgl.andThen c1 (fun x => c2))
  (at level 61, c1 at next level, right associativity).
Notation "c1 ;;; c2" := (Wgl.andThen c1 (fun _ => c2))
  (at level 61, right associativity).

Module WglTexture.

Import Wgl.
Local Open Scope Z_scope.

(** The resources of a texture on a context. *)
Record TextureAndFramebuffer : Type := mkTextureAndFramebuffer {
  texture : WebGLTexture;
  framebuffer : WebGLFramebuffer
}.

(** Modelled from the spec: src/webgl/WglMortalValueSlot.js is not among the
    sources.  The value is "cached per rendering context": for each context,
    by its identity, the slot holds nothing ("Uninitialized") or a value
    together with the lifetime of the context it was made in ("Bound"); a
    value made in an earlier lifetime is "Lost" and is made again on the next
    access. *)
Record WglMortalValueSlot (V : Type) : Type := mkSlot {
  mortalValues : list (nat * (Z * V))
}.

(** The entry of a context in the slot. *)
Fixpoint cachedFor (V : Type) (context : nat) (entries : list (nat * (Z * V)))
    : option (Z * V) :=
  match entries with
  | [] => None
  | (c, entry) :: rest =>
      if Nat.eqb c context then Some entry else cachedFor context rest
  end.

(** The entries after a value was made for a context: it takes the place of
    the earlier entry of this context, the entries of the other contexts
    stay. *)
Definition cacheFor (V : Type) (context : nat) (entry : Z * V)
    (entries : list (nat * (Z * V))) : list (nat * (Z * V)) :=
  (context, entry)
    :: filter (fun e => negb (Nat.eqb (fst e) context)) entries.

Record WglTexture : Type := mkWglTexture {
  width : Z;
  height : Z;
  pixelType : Z;
  _textureAndFrameBufferSlot : WglMortalValueSlot TextureAndFramebuffer
}.

(** [new WglTexture(width, height, pixelType = WebGLRenderingContext.FLOAT)]:
    the constructor is given no context. *)
Definition new (width height : Z) (pixelType : option Z) : WglTexture :=
  mkWglTexture width height
    (match pixelType with Some p => p | None => FLOAT end)
    (mkSlot []).

Definition textureAndFramebufferInitializer (this : WglTexture)
    : GlM TextureAndFramebuffer :=
  t <~ createTexture ;;
  f <~ createFramebuffer ;;
  let result := mkTextureAndFramebuffer t f in
  call (BindTexture TEXTURE_2D (Some (texture result))) ;;;
  call (BindFramebuffer FRAMEBUFFER (Some (framebuffer result))) ;;;
  call (TexParameteri TEXTURE_2D TEXTURE_MAG_FILTER NEAREST) ;;;
  call (TexParameteri TEXTURE_2D TEXTURE_MIN_FILTER NEAREST) ;;;
  call (TexParameteri TEXTURE_2D TEXTURE_WRAP_S CLAMP_TO_EDGE) ;;;
  call (TexParameteri TEXTURE_2D TEXTURE_WRAP_T CLAMP_TO_EDGE) ;;;
  call (TexImage2D TEXTURE_2D 0 RGBA (width this) (height this) 0 RGBA
                   (pixelType this)) ;;;
  e1 <~ getError ;;
  checkGetErrorResult e1 "texImage2D" ;;;
  call (FramebufferTexture2D FRAMEBUFFER COLOR_ATTACHMENT0 TEXTURE_2D
                             (texture result) 0) ;;;
  e2 <~ getError ;;
  checkGetErrorResult e2 "framebufferTexture2D" ;;;
  s <~ checkFramebufferStatus FRAMEBUFFER ;;
  checkFrameBufferStatusResult s ;;;
  call (BindTexture TEXTURE_2D None) ;;;
  call (BindFramebuffer FRAMEBUFFER None) ;;;
  pure result.

(** [slot.initializedValue(wglContext)]: the value cached for the context
    when it was made in the present lifetime of the context, else the
    initializer is run and its result stored for the context.  When the
    initializer throws, nothing is stored. *)
Definition initializedValue (this : WglTexture) (wglContext : WglContext)
    : Js.Completion WglFault TextureAndFramebuffer * WglTexture * WglContext :=
  let entries := mortalValues (_textureAndFrameBufferSlot this) in
  let fresh :=
    match textureAndFramebufferInitializer this (gl wglContext) with
    | (Js.Returned v, g') =>
        (Js.Returned v,
         mkWglTexture (width this) (height this) (pixelType this)
                      (mkSlot (cacheFor (identity wglContext)
                                        (lifetimeCounter wglContext, v)
                                        entries)),
         mkWglContext (identity wglContext) (lifetimeCounter wglContext) g')
    | (Js.Thrown e, g') =>
        (Js.Thrown e, this,
         mkWglContext (identity wglContext) (lifetimeCounter wglContext) g')
    end in
  match cachedFor (identity wglContext) entries with
  | Some (lifetimeId, v) =>
      if Z.eqb lifetimeId (lifetimeCounter wglContext)
      then (Js.Returned v, this, wglContext)
      else fresh
  | None => fresh
  end.

Definition instanceFor (this : WglTexture) (wglContext : WglContext)
    : Js.Completion WglFault TextureAndFramebuffer * WglTexture * WglContext :=
  initializedValue this wglContext.

Definition bindFramebufferFor (this : WglTexture) (wglContext : WglContext)
    : Js.Completion WglFault unit * WglTexture * WglContext :=
  match instanceFor this wglContext with
  | (Js.Returned inst, this', ctx') =>
      let (r, g') :=
        (call (BindFramebuffer FRAMEBUFFER (Some (framebuffer inst))) ;;;
         e <~ getError ;;
         checkGetErrorResult e "framebufferTexture2D" ;;;
         s <~ checkFramebufferStatus FRAMEBUFFER ;;
         checkFrameBufferStatusResult s) (gl ctx') in
      (r, this', mkWglContext (identity ctx') (lifetimeCounter ctx') g')
  | (Js.Thrown e, this', ctx') => (Js.Thrown e, this', ctx')
  end.

(** The calls of a successful initialization of a texture of the given size
    and pixel type, the latest first; [t] and [f] are the names of the
    texture and of the framebuffer created. *)
Definition initializationCalls (w h p : Z) (t : WebGLTexture)
    (f : WebGLFramebuffer) : list GlCall :=
  [BindFramebuffer FRAMEBUFFER None;
   BindTexture TEXTURE_2D None;
   CheckFramebufferStatus FRAMEBUFFER;
   GetError;
   FramebufferTexture2D FRAMEBUFFER COLOR_ATTACHMENT0 TEXTURE_2D t 0;
   GetError;
   TexImage2D TEXTURE_2D 0 RGBA w h 0 RGBA p;
   TexParameteri TEXTURE_2D TEXTURE_WRAP_T CLAMP_TO_EDGE;
   TexParameteri TEXTURE_2D TEXTURE_WRAP_S CLAMP_TO_EDGE;
   TexParameteri TEXTURE_2D TEXTURE_MIN_FILTER NEAREST;
   TexParameteri TEXTURE_2D TEXTURE_MAG_FILTER NEAREST;
   BindFramebuffer FRAMEBUFFER (Some f);
   BindTexture TEXTURE_2D (Some t);
   CreateFramebuffer;
   CreateTexture].


(** The context after it was lost and restored: the same context in a new
    lifetime, with a rendering context that knows none of the earlier
    objects. *)
Definition restored (wglContext : WglContext) (fresh : Gl) : WglContext :=
  mkWglContext (identity wglContext) (lifetimeCounter wglContext + 1) fresh.

(** Three contexts on which the texture code can be run: a driver that
    reports no error, one where every [getError] answers OUT_OF_MEMORY, and
    one whose third [getError], the one of [bindFramebufferFor], does. *)
Definition healthyContext : WglContext :=
  mkWglContext 0 0
    (mkGl (fun _ => NO_ERROR) 0 (fun _ => FRAMEBUFFER_COMPLETE) 0 0 0 []).

Definition exhaustedContext : WglContext :=
  mkWglContext 1 0
    (mkGl (fun _ => OUT_OF_MEMORY) 0 (fun _ => FRAMEBUFFER_COMPLETE) 0 0 0 []).


End WglTexture.

(* ================================================================== *)
(** * src/gates/MeasurementGate.js *)
(* ================================================================== *)

Module MeasurementGate.

Local Open Scope string_scope.

(** What the finder of a reason to disable a gate reads of its argument:
    whether the gate sits in a nested circuit, the mask of the measured
    wires, the row of the gate, and the answer of
    [args.innerColumn.hasControl()]. *)
Record DisableReasonArgs : Type := mkDisableReasonArgs {
  isNested : bool;
  measuredMask : Z;
  outerRow : Z;
  innerColumn_hasControl : bool
}.

(** Modelled from the spec: [GateBuilder] of src/circuit/Gate.js is not among
    the sources.  The builder holds the fields of the gate definition it
    makes ("display symbol, title, blurb, ... and a unique serialization
    identifier"); each method sets its field and [gate] is the result. *)
Record GateBuilder : Type := mkGateBuilder {
  serializedId : string;
  symbol : string;
  title : string;
  blurb : string;
  hasNoNetEffectOnStateVector : bool;
  extraDisableReasonFinder : DisableReasonArgs -> option string
}.

Definition newGateBuilder : GateBuilder :=
  mkGateBuilder "" "" "" "" false (fun _ => None).

Definition setSerializedIdAndSymbol (id : string) (b : GateBuilder)
    : GateBuilder :=
  mkGateBuilder id id (title b) (blurb b) (hasNoNetEffectOnStateVector b)
                (extraDisableReasonFinder b).

Definition setTitle (t : string) (b : GateBuilder) : GateBuilder :=
  mkGateBuilder (serializedId b) (symbol b) t (blurb b)
                (hasNoNetEffectOnStateVector b) (extraDisableReasonFinder b).

Definition setBlurb (bl : string) (b : GateBuilder) : GateBuilder :=
  mkGateBuilder (serializedId b) (symbol b) (title b) bl
                (hasNoNetEffectOnStateVector b) (extraDisableReasonFinder b).

Definition promiseHasNoNetEffectOnStateVector (b : GateBuilder)
    : GateBuilder :=
  mkGateBuilder (serializedId b) (symbol b) (title b) (blurb b) true
                (extraDisableReasonFinder b).

Definition setExtraDisableReasonFinder
    (f : DisableReasonArgs -> option string) (b : GateBuilder) : GateBuilder :=
  mkGateBuilder (serializedId b) (symbol b) (title b) (blurb b)
                (hasNoNetEffectOnStateVector b) f.

Definition gate (b : GateBuilder) : GateBuilder := b.

(** The finder given to [setExtraDisableReasonFinder]; [undefined] is
    [None]. *)
Definition disableReasonFinder (args : DisableReasonArgs) : option string :=
  if isNested args
  then Some ("can't" ++ newline ++ "nest" ++ newline ++ "measure" ++ newline
             ++ "(sorry)")
  else
    let isMeasured :=
      negb (Z.eqb (Js.band (measuredMask args) (Js.shl 1 (outerRow args))) 0) in
    if innerColumn_hasControl args && negb isMeasured
    then Some ("can't" ++ newline ++ "control" ++ newline ++ "(sorry)")
    else None.

Definition MeasurementGate : GateBuilder :=
  newGateBuilder
  |> setSerializedIdAndSymbol "Measure"
  |> setTitle "Measurement Gate"
  |> setBlurb "Measures a wire's qubit along the Z axis."
  |> promiseHasNoNetEffectOnStateVector
  |> setExtraDisableReasonFinder disableReasonFinder
  |> gate.

End MeasurementGate.

(* ================================================================== *)
(** * A concrete catalog *)
(* ================================================================== *)

(** An instance of the imports on which the catalog can be run: textures are
    names, a configured shader pass is the record of the call that made it,
    and the other gate modules contribute one-gate stand-ins. *)
Module Symbolic.

Definition Tex : Type := nat.

Inductive Pass : Type :=
| SwapPass (val : Tex) (a b : Z) (con : Tex)
| FourierTransformStepPass (val con : Tex) (bit i : Z)
| CycleBitsPass (val con : Tex) (bit span shift : Z)
| UniversalNotPass (val con : Tex) (bit : Z).

Definition standIn (sym : string) : Gate Tex Pass :=
  withoutKnownMatrix sym sym sym.

Definition standInFamily (sym : string) : Family Tex Pass :=
  generateFamily 1 16 (fun span =>
    standIn sym
    |> withSerializedId (sym ++ Js.string_of_number span)
    |> withHeight span).

(** The stand-in of [Matrix.fromPauliRotation] keeps the three turns on the
    diagonal of a matrix; the one of [closestUnitary] answers the identity
    matrix of side 2, a unitary matrix. *)
Definition imports : Imports Tex Pass :=
  mkImports
    (fun val a b con => Js.Returned (SwapPass val a b con))
    (fun val con bit i => Js.Returned (FourierTransformStepPass val con bit i))
    (fun val con bit span shift =>
       Js.Returned (CycleBitsPass val con bit span shift))
    (fun val con bit => Js.Returned (UniversalNotPass val con bit))
    (fun x y z => [[mkComplex x y; ComplexOps.zero];
                   [ComplexOps.zero; mkComplex z 0]])
    (fun _ => MatrixOps.identity 2)
    (standInFamily "Amps") (standInFamily "Chance")
    (standInFamily "Sample") (standInFamily "Density")
    (standIn "X") (standIn "Y") (standIn "Z") (standIn "H")
    (standInFamily "PhaseGradient") (standInFamily "PhaseDegradient")
    (standIn "|0><0|") (standIn "|1><1|")
    (standIn "|+><+|") (standIn "|-><-|")
    (standIn "X^t") (standIn "Y^t") (standIn "Z^t")
    (standIn "X^-t") (standIn "Y^-t") (standIn "Z^-t")
    (standIn "e^iXt") (standIn "e^iYt") (standIn "e^iZt")
    (standIn "e^-iXt") (standIn "e^-iYt") (standIn "e^-iZt")
    (standInFamily "inc") (standInFamily "dec")
    (standInFamily "add") (standInFamily "sub")
    (standInFamily "c+=ab") (standInFamily "c-=ab").

(** A random source whose n-th draw is n/(n+1). *)
Definition source : Js.RandomSource :=
  Js.mkRandomSource (fun n => INR n / (INR n + 1))%R 0.

End Symbolic.

(* ================================================================== *)
(** * Notions of the specification *)
(* ================================================================== *)

(** Two amplitude vectors are equal within a tolerance when they have the
    same length and each amplitude is at most the tolerance away from its
    counterpart. *)
Definition withinTolerance (eps : R) (u v : list Complex) : Prop :=
  Forall2 (fun a b => (ComplexOps.dist2 a b <= eps * eps)%R) u v.

(** Two amplitudes whose real parts, and whose imaginary parts, differ by
    [eps] at most. *)
Definition near (eps : R) (a b : Complex) : Prop :=
  (- eps <= real a - real b <= eps /\ - eps <= imag a - imag b <= eps)%R.

(** Two matrices are equal within a tolerance when they have the same shape
    and each entry is at most the tolerance away from its counterpart. *)
Definition matrixWithinTolerance (eps : R) (m m' : Matrix) : Prop :=
  Forall2 (withinTolerance eps) m m'.

(** A square matrix is unitary when its conjugate transpose is its
    inverse. *)
Definition isUnitary (m : Matrix) : Prop :=
  MatrixOps.times (MatrixOps.adjoint m) m
  = MatrixOps.identity (Z.of_nat (List.length m)).

(** The sum of the squared magnitudes of a list of amplitudes. *)
Definition totalNorm2 (v : list Complex) : R :=
  fold_right (fun a acc => (ComplexOps.norm2 a + acc)%R) 0%R v.

(** Whether the strings of a list are pairwise different. *)
Fixpoint allDifferent (l : list string) : bool :=
  match l with
  | [] => true
  | x :: l' => negb (existsb (String.eqb x) l') && allDifferent l'
  end.

(** The integer below 2^n whose bit [i] is [f i]. *)
Definition fromBits (n : Z) (f : Z -> bool) : Z :=
  fold_right (fun i acc => if f i then Z.setbit acc i else acc)
             0%Z (Js.range n).

(** "Rotates a span-bit sub-register by one position": bit [i] of the
    result is bit [i - 1] of [c], the positions being counted modulo
    [span]. *)
Definition rotateLeft (span c : Z) : Z :=
  fold_right
    (fun i acc =>
       if Z.testbit c ((i - 1) mod span) then Z.setbit acc i else acc)%Z
    0%Z (Js.range span).

(** The rotation the other way: bit [i] of the result is bit [i + 1] of
    [r], the positions being counted modulo [span]. *)
Definition rotateRight (span r : Z) : Z :=
  fromBits span (fun i => Z.testbit r ((i + 1) mod span)).

(** The test made by the generator of [CYCLE_BITS_MATRIX_MAKER] at row [r]
    and column [c]. *)
Definition cycleBit (span r c : Z) : bool :=
  let expected := r in
  let input := c in
  let actual := Js.shl input 1 in
  let actual := Js.bor (Js.band actual (Js.shl 1 span - 1)%Z)
                       (Js.sar actual span) in
  Z.eqb expected actual.

(* ================================================================== *)
(** * Properties *)
(* ================================================================== *)

Open Scope Z_scope.

(** ** Ranges *)

Section RangeFacts.

Local Open Scope Z_scope.

Lemma range_length (n : Z) : List.length (Js.range n) = Z.to_nat n.
Proof. unfold Js.range. now rewrite length_map, length_seq. Qed.

Lemma range_nth_error (n i : Z) :
  0 <= i < n -> nth_error (Js.range n) (Z.to_nat i) = Some i.
Proof.
  intros Hi. unfold Js.range.
  rewrite nth_error_map, nth_error_seq.
  destruct (Nat.ltb_spec (Z.to_nat i) (Z.to_nat n)) as [_ | Hge]; [| lia].
  cbn. f_equal. lia.
Qed.

Lemma range_In (n i : Z) : In i (Js.range n) <-> 0 <= i < n.
Proof.
  unfold Js.range. rewrite in_map_iff. split.
  - intros [k [<- Hk]]. apply in_seq in Hk. lia.
  - intros Hi. exists (Z.to_nat i). split; [lia |]. apply in_seq. lia.
Qed.

End RangeFacts.

(** ** Families *)

Section FamilyFacts.

Variables Tex Pass : Type.

Local Open Scope Z_scope.

Lemma find_by_height (gen : Z -> Gate Tex Pass) (a h : Z) (n s : nat) :
  (forall x, height (gen x) = x) ->
  a + Z.of_nat s <= h < a + Z.of_nat s + Z.of_nat n ->
  find (fun g => Z.eqb (height g) h)
       (map (fun i => gen (a + i)) (map Z.of_nat (seq s n)))
  = Some (gen h).
Proof.
  intros Hgen. revert s. induction n as [| n IH]; intros s Hh; [lia |].
  cbn [seq map find]. rewrite Hgen.
  destruct (Z.eqb_spec (a + Z.of_nat s) h) as [-> | Hne]; [reflexivity |].
  apply IH. lia.
Qed.

Lemma ofSize_generateFamily (gen : Z -> Gate Tex Pass) (lo hi h : Z) :
  (forall x, height (gen x) = x) ->
  lo <= h <= hi ->
  ofSize (generateFamily lo hi gen) h = Some (gen h).
Proof.
  intros Hgen Hh. unfold ofSize, generateFamily, Js.range. cbn [all].
  apply find_by_height; [exact Hgen | lia].
Qed.

End FamilyFacts.

(** ** The Fourier transform family *)

Section FourierFamilyFacts.

Variables Tex Pass : Type.
Variable imp : Imports Tex Pass.

Local Open Scope Z_scope.

(** The gate that the generator of the family makes for a span. *)
Lemma fourier_ofSize (span : Z) :
  1 <= span <= 16 ->
  exists g,
    ofSize (AllGates.FourierTransformFamily imp) span = Some g /\
    height g = span /\
    serializedId g = ("QFT" ++ Js.string_of_number span)%string /\
    customShaders g =
      Some (map (fun i => fun val con bit =>
                   CircuitShaders_swap imp val (bit + i) (bit + span - i - 1) con)
                (Js.range (Js.floor_div span 2))
            ++ map (fun i => fun val con bit =>
                      GateShaders_fourierTransformStep imp val con bit i)
                   (Js.range span))%list /\
    matrixOrFunc g =
      (if 4 <=? span then NoMatrix
       else KnownMatrix (AllGates.FOURIER_TRANSFORM_MATRIX_MAKER span)).
Proof.
  intros Hspan. unfold AllGates.FourierTransformFamily.
  eexists. split.
  - apply ofSize_generateFamily; [reflexivity | exact Hspan].
  - cbn [height serializedId customShaders matrixOrFunc withCustomShaders
         withHeight withSerializedId withKnownMatrix markedAsStable
         withoutKnownMatrix].
    repeat split. now destruct (4 <=? span).
Qed.

(** C1.  For every span in 1..16 the Fourier transform gate of that span has
    a list of custom shaders made of floor(span/2) swap passes, the i-th
    swapping the bits at offsets i and span-1-i from the gate's first qubit,
    followed by span Fourier transform steps, the i-th with step index i;
    from span 4 on the gate has no known matrix. *)
Theorem fourier_family_kernels (span : Z) :
  1 <= span <= 16 ->
  exists g shaders,
    ofSize (AllGates.FourierTransformFamily imp) span = Some g /\
    customShaders g = Some shaders /\
    Z.of_nat (List.length shaders) = span / 2 + span /\
    (forall i, 0 <= i < span / 2 -> forall val con bit,
       option_map (fun sh : Shader Tex Pass => sh val con bit)
                  (nth_error shaders (Z.to_nat i))
       = Some (CircuitShaders_swap imp val (bit + i) (bit + (span - 1 - i)) con)) /\
    (forall i, 0 <= i < span -> forall val con bit,
       option_map (fun sh : Shader Tex Pass => sh val con bit)
                  (nth_error shaders (Z.to_nat (span / 2 + i)))
       = Some (GateShaders_fourierTransformStep imp val con bit i)) /\
    (4 <= span -> matrixOrFunc g = NoMatrix).
Proof.
  intros Hspan.
  destruct (fourier_ofSize Hspan) as (g & Hg & _ & _ & Hsh & Hm).
  assert (Hhalf : 0 <= span / 2) by (apply Z.div_pos; lia).
  eexists g, _. split; [exact Hg |]. split; [exact Hsh |].
  unfold Js.floor_div. repeat split.
  - rewrite length_app, !length_map, !range_length. lia.
  - intros i Hi val con bit.
    rewrite nth_error_app1 by (rewrite length_map, range_length; lia).
    rewrite nth_error_map, range_nth_error by lia. cbn.
    do 2 f_equal. lia.
  - intros i Hi val con bit.
    rewrite nth_error_app2 by (rewrite length_map, range_length; lia).
    rewrite length_map, range_length.
    replace (Z.to_nat (span / 2 + i) - Z.to_nat (span / 2))%nat
      with (Z.to_nat i) by lia.
    rewrite nth_error_map, range_nth_error by lia. reflexivity.
  - intros H4. rewrite Hm.
    destruct (Z.leb_spec 4 span); [reflexivity | lia].
Qed.

End FourierFamilyFacts.

Lemma fourier_family_kernels_witness :
  1 <= 5 <= 16 /\
  exists g shaders,
    ofSize (AllGates.FourierTransformFamily Symbolic.imports) 5 = Some g /\
    customShaders g = Some shaders /\
    Z.of_nat (List.length shaders) = 5 / 2 + 5 /\
    (forall i, 0 <= i < 5 / 2 -> forall val con bit,
       option_map (fun sh : Shader Symbolic.Tex Symbolic.Pass => sh val con bit)
                  (nth_error shaders (Z.to_nat i))
       = Some (Js.Returned (Symbolic.SwapPass val (bit + i) (bit + (5 - 1 - i)) con))) /\
    (forall i, 0 <= i < 5 -> forall val con bit,
       option_map (fun sh : Shader Symbolic.Tex Symbolic.Pass => sh val con bit)
                  (nth_error shaders (Z.to_nat (5 / 2 + i)))
       = Some (Js.Returned (Symbolic.FourierTransformStepPass val con bit i))) /\
    (4 <= 5 -> matrixOrFunc g = NoMatrix).
Proof.
  split; [lia |].
  apply (@fourier_family_kernels _ _ Symbolic.imports 5). lia.
Defined.

(** The passes of the Fourier transform of span 2 placed on qubit 5: one swap
    of the qubits 5 and 6, then the steps 0 and 1. *)
Example fourier_span2_passes :
  option_map
    (fun g => option_map (map (fun sh : Shader _ _ => sh 0%nat 1%nat 5))
                         (customShaders g))
    (ofSize (AllGates.FourierTransformFamily Symbolic.imports) 2)
  = Some (Some [Js.Returned (Symbolic.SwapPass 0%nat 5 6 1%nat);
                Js.Returned (Symbolic.FourierTransformStepPass 0%nat 1%nat 5 0);
                Js.Returned (Symbolic.FourierTransformStepPass 0%nat 1%nat 5 1)]).
Proof. reflexivity. Qed.

Section FourierFamilyIds.

Variables Tex Pass : Type.
Variable imp : Imports Tex Pass.

Local Open Scope string_scope.

(** The serialization id and the height of each gate of the family, in the
    order of [all]. *)
Lemma fourier_family_table :
  map (fun g => (serializedId g, height g))
      (all (AllGates.FourierTransformFamily imp))
  = [("QFT1", 1); ("QFT2", 2); ("QFT3", 3); ("QFT4", 4);
     ("QFT5", 5); ("QFT6", 6); ("QFT7", 7); ("QFT8", 8);
     ("QFT9", 9); ("QFT10", 10); ("QFT11", 11); ("QFT12", 12);
     ("QFT13", 13); ("QFT14", 14); ("QFT15", 15); ("QFT16", 16)].
Proof.
  unfold AllGates.FourierTransformFamily, generateFamily. cbn [all].
  rewrite map_map. reflexivity.
Qed.

(** C2.  The family has 16 gates; their serialization ids are the strings
    "QFT" + span for span = 1, ..., 16, all different, and the gate whose id
    is "QFT" + span has height span. *)
Theorem fourier_family_ids :
  List.length (all (AllGates.FourierTransformFamily imp)) = 16%nat /\
  map (@serializedId Tex Pass) (all (AllGates.FourierTransformFamily imp))
    = map (fun span => "QFT" ++ Js.string_of_number span)
          [1; 2; 3; 4; 5; 6; 7; 8; 9; 10; 11; 12; 13; 14; 15; 16] /\
  NoDup (map (@serializedId Tex Pass)
             (all (AllGates.FourierTransformFamily imp))) /\
  (forall span g,
     1 <= span <= 16 ->
     In g (all (AllGates.FourierTransformFamily imp)) ->
     serializedId g = "QFT" ++ Js.string_of_number span ->
     height g = span).
Proof.
  pose proof fourier_family_table as Htab.
  assert (Hids : map (@serializedId Tex Pass)
                     (all (AllGates.FourierTransformFamily imp))
                 = map fst (map (fun g => (serializedId g, height g))
                     (all (AllGates.FourierTransformFamily imp)))).
  { rewrite map_map. reflexivity. }
  split; [| split; [| split]].
  - erewrite <- length_map, Htab. reflexivity.
  - rewrite Hids, Htab. reflexivity.
  - rewrite Hids, Htab. cbn [map fst].
    repeat (constructor;
            [cbn [In]; intros Hin;
             repeat (destruct Hin as [Hin | Hin]; [discriminate Hin |]);
             exact Hin |]).
    constructor.
  - intros span g Hspan Hin Hid.
    assert (Hpair : In (serializedId g, height g)
                       (map (fun g => (serializedId g, height g))
                            (all (AllGates.FourierTransformFamily imp))))
      by (apply in_map_iff; exists g; split; [reflexivity | exact Hin]).
    rewrite Htab, Hid in Hpair.
    assert (Hcases : span = 1 \/ span = 2 \/ span = 3 \/ span = 4 \/
                     span = 5 \/ span = 6 \/ span = 7 \/ span = 8 \/
                     span = 9 \/ span = 10 \/ span = 11 \/ span = 12 \/
                     span = 13 \/ span = 14 \/ span = 15 \/ span = 16) by lia.
    cbn [In] in Hpair.
    repeat (destruct Hcases as [-> | Hcases]; [
      repeat (destruct Hpair as [Hpair | Hpair];
              [solve [inversion Hpair; reflexivity] || discriminate Hpair |]);
      contradiction |]).
    subst span.
    repeat (destruct Hpair as [Hpair | Hpair];
            [solve [inversion Hpair; reflexivity] || discriminate Hpair |]).
    contradiction.
Qed.

End FourierFamilyIds.

(** ** Gates with a matrix *)

Section MatrixFacts.

Variables Tex Pass : Type.

(** A gate made from a known matrix has this matrix at all times, whatever
    the random source holds, and leaves the source as it is. *)
Lemma matrixAt_known (g : Gate Tex Pass) (m : Matrix) (t : R)
    (s : Js.RandomSource) :
  matrixOrFunc g = KnownMatrix m -> matrixAt g t s = (Some m, s).
Proof. intros Hm. unfold matrixAt. rewrite Hm. reflexivity. Qed.

Lemma applyAt_known (g : Gate Tex Pass) (m : Matrix) (t : R)
    (state : list Complex) (s : Js.RandomSource) :
  matrixOrFunc g = KnownMatrix m ->
  applyAt g t state s = (Some (MatrixOps.apply m state), s).
Proof.
  intros Hm. unfold applyAt, Js.bind. rewrite (matrixAt_known g t s Hm).
  reflexivity.
Qed.

End MatrixFacts.

(** ** The Fourier transform of span 1 *)

Section FourierSpanOne.

Local Open Scope R_scope.

Lemma pow_half : Js.pow 0.5 (IZR 1 / 2) = sqrt (1 / 2).
Proof.
  unfold Js.pow. transitivity (Rpower (1 / 2) (/ 2)).
  - f_equal; lra.
  - apply Rpower_sqrt. lra.
Qed.

Lemma sqrt_half_sqr : sqrt (1 / 2) * sqrt (1 / 2) = 1 / 2.
Proof. apply sqrt_sqrt. lra. Qed.

(** The matrix of the Fourier transform of span 1 is the Hadamard matrix. *)
Lemma fourier_matrix_1 :
  AllGates.FOURIER_TRANSFORM_MATRIX_MAKER 1 =
  [[mkComplex (sqrt (1 / 2)) 0; mkComplex (sqrt (1 / 2)) 0];
   [mkComplex (sqrt (1 / 2)) 0; mkComplex (- sqrt (1 / 2)) 0]].
Proof.
  unfold AllGates.FOURIER_TRANSFORM_MATRIX_MAKER, MatrixOps.generate.
  replace (Js.shl 1 1) with 2%Z by reflexivity.
  replace (Js.range 2) with [0%Z; 1%Z] by reflexivity.
  cbn [map]. unfold ComplexOps.polar. rewrite pow_half. unfold tau.
  replace (PI * 2 * 0 * 0 / 2) with 0 by lra.
  replace (PI * 2 * 0 * 1 / 2) with 0 by lra.
  replace (PI * 2 * 1 * 0 / 2) with 0 by lra.
  replace (PI * 2 * 1 * 1 / 2) with PI by lra.
  rewrite cos_0, sin_0, cos_PI, sin_PI.
  repeat f_equal; lra.
Qed.

Lemma hadamard_apply (a b : Complex) :
  MatrixOps.apply (AllGates.FOURIER_TRANSFORM_MATRIX_MAKER 1) [a; b] =
  [mkComplex (sqrt (1 / 2) * (real a + real b))
             (sqrt (1 / 2) * (imag a + imag b));
   mkComplex (sqrt (1 / 2) * (real a - real b))
             (sqrt (1 / 2) * (imag a - imag b))].
Proof.
  rewrite fourier_matrix_1.
  unfold MatrixOps.apply, MatrixOps.dot, ComplexOps.plus, ComplexOps.times,
    ComplexOps.zero, ComplexOps.from.
  cbn [map real imag].
  repeat match goal with
         | |- _ :: _ = _ :: _ => f_equal
         | |- mkComplex _ _ = mkComplex _ _ => f_equal
         end; ring.
Qed.

End FourierSpanOne.

(** ** Amplitudes within a tolerance *)

Section ToleranceFacts.

Local Open Scope R_scope.

Lemma near_of_dist2 (eps : R) (x y : Complex) :
  0 <= eps -> ComplexOps.dist2 x y <= eps * eps -> near eps x y.
Proof.
  unfold ComplexOps.dist2, near. intros Heps Hd.
  set (dr := real x - real y) in *. set (di := imag x - imag y) in *.
  repeat split; nra.
Qed.

Lemma dist2_of_near (c : R) (x y : Complex) :
  near c x y -> ComplexOps.dist2 x y <= 2 * (c * c).
Proof.
  unfold ComplexOps.dist2, near. intros [Hr Hi].
  set (dr := real x - real y) in *. set (di := imag x - imag y) in *.
  nra.
Qed.

Lemma near_trans (e1 e2 : R) (x y z : Complex) :
  near e1 x y -> near e2 y z -> near (e1 + e2) x z.
Proof. unfold near. intros [H1 H2] [H3 H4]. repeat split; lra. Qed.

Lemma near_weaken (e1 e2 : R) (x y : Complex) :
  e1 <= e2 -> near e1 x y -> near e2 x y.
Proof. unfold near. intros He [H1 H2]. repeat split; lra. Qed.

(** A vector is within every tolerance of itself. *)
Lemma withinTolerance_refl (eps : R) (v : list Complex) :
  withinTolerance eps v v.
Proof.
  induction v as [| x v IH]; constructor; [| exact IH].
  unfold ComplexOps.dist2. nra.
Qed.

Lemma matrixWithinTolerance_refl (eps : R) (m : Matrix) :
  matrixWithinTolerance eps m m.
Proof.
  induction m as [| row m IH]; constructor;
    [apply withinTolerance_refl | exact IH].
Qed.

Lemma withinTolerance_of_near (c eps : R) (u v : list Complex) :
  0 <= c -> 2 * (c * c) <= eps * eps ->
  Forall2 (near c) u v -> withinTolerance eps u v.
Proof.
  intros Hc Hle Hnear. induction Hnear as [| x y u v Hxy _ IH];
    constructor; [| exact IH].
  pose proof (dist2_of_near Hxy). lra.
Qed.

Lemma near_of_withinTolerance (eps : R) (u v : list Complex) :
  0 <= eps -> withinTolerance eps u v -> Forall2 (near eps) u v.
Proof.
  intros Heps Hw. induction Hw as [| x y u v Hxy _ IH];
    constructor; [now apply near_of_dist2 | exact IH].
Qed.

(** The product of a number within [e] of 0 and a number within [B] of 0. *)
Lemma product_within (x y e B : R) :
  - e <= x <= e -> - B <= y <= B -> - (e * B) <= x * y <= e * B.
Proof.
  intros Hx Hy.
  assert (0 <= (e - x) * (B - y)) by (apply Rmult_le_pos; lra).
  assert (0 <= (e + x) * (B + y)) by (apply Rmult_le_pos; lra).
  assert (0 <= (e - x) * (B + y)) by (apply Rmult_le_pos; lra).
  assert (0 <= (e + x) * (B - y)) by (apply Rmult_le_pos; lra).
  split; lra.
Qed.

(** A row of two entries applied to two amplitudes: when the entries move by
    [e] at most and the amplitudes are within [B] of 0, the product moves by
    [4 * e * B] at most. *)
Lemma dot2_near_row (e B : R) (p q p0 q0 x y : Complex) :
  near e p p0 -> near e q q0 ->
  near B x ComplexOps.zero -> near B y ComplexOps.zero ->
  near (4 * (e * B)) (MatrixOps.dot [p; q] [x; y]) (MatrixOps.dot [p0; q0] [x; y]).
Proof.
  unfold near, MatrixOps.dot, ComplexOps.plus, ComplexOps.times,
    ComplexOps.zero, ComplexOps.from.
  cbn [real imag]. intros [Hpr Hpi] [Hqr Hqi] [Hxr Hxi] [Hyr Hyi].
  rewrite Rminus_0_r in Hxr, Hxi, Hyr, Hyi.
  pose proof (product_within Hpr Hxr). pose proof (product_within Hpi Hxi).
  pose proof (product_within Hqr Hyr). pose proof (product_within Hqi Hyi).
  pose proof (product_within Hpr Hxi). pose proof (product_within Hpi Hxr).
  pose proof (product_within Hqr Hyi). pose proof (product_within Hqi Hyr).
  repeat split; lra.
Qed.

(** An amplitude of a state of total squared magnitude 1 at most is within 1
    of 0. *)
Lemma state_amplitudes_bounded (a b : Complex) :
  totalNorm2 [a; b] <= 1 ->
  near 1 a ComplexOps.zero /\ near 1 b ComplexOps.zero.
Proof.
  unfold totalNorm2, ComplexOps.norm2, near, ComplexOps.zero, ComplexOps.from.
  cbn [fold_right real imag]. intros H.
  rewrite !Rminus_0_r. repeat split; nra.
Qed.

Lemma sqrt_half_bounds : 0 <= sqrt (1 / 2) <= 1.
Proof.
  pose proof sqrt_half_sqr as Hs. pose proof (sqrt_pos (1 / 2)) as Hp.
  split; [exact Hp | nra].
Qed.

(** The matrix of span 1 applied to two vectors whose amplitudes differ by
    [e] at most: the products differ by [2 * e] at most. *)
Lemma hadamard_near_vectors (e : R) (x y x0 y0 : Complex) :
  near e x x0 -> near e y y0 ->
  Forall2 (near (2 * e))
    (MatrixOps.apply (AllGates.FOURIER_TRANSFORM_MATRIX_MAKER 1) [x; y])
    (MatrixOps.apply (AllGates.FOURIER_TRANSFORM_MATRIX_MAKER 1) [x0; y0]).
Proof.
  intros [Hxr Hxi] [Hyr Hyi]. rewrite !hadamard_apply.
  pose proof sqrt_half_bounds as Hs.
  assert (Hsum : forall u v : R,
            - e <= u <= e -> - e <= v <= e ->
            - (2 * e) <= sqrt (1 / 2) * (u + v) <= 2 * e /\
            - (2 * e) <= sqrt (1 / 2) * (u - v) <= 2 * e).
  { intros u v Hu Hv.
    assert (Hw : - (1 * (2 * e)) <= sqrt (1 / 2) * (u + v) <= 1 * (2 * e))
      by (apply product_within; lra).
    assert (Hw' : - (1 * (2 * e)) <= sqrt (1 / 2) * (u - v) <= 1 * (2 * e))
      by (apply product_within; lra).
    lra. }
  destruct (Hsum _ _ Hxr Hyr) as [Hr1 Hr2].
  destruct (Hsum _ _ Hxi Hyi) as [Hi1 Hi2].
  constructor; [| constructor; [| constructor]];
    unfold near; cbn [real imag]; split; nra.
Qed.

(** An evaluation of the application of the matrix of span 1 that is
    accurate to [delta], on a state whose amplitudes are within [B] of 0,
    is within [(4 * B + 1) * delta] of the exact product. *)
Lemma hadamard_evaluation (delta B : R) (x y : Complex) (m' : Matrix)
    (out' : list Complex) :
  0 <= delta ->
  near B x ComplexOps.zero -> near B y ComplexOps.zero ->
  matrixWithinTolerance delta m' (AllGates.FOURIER_TRANSFORM_MATRIX_MAKER 1) ->
  withinTolerance delta out' (MatrixOps.apply m' [x; y]) ->
  Forall2 (near (4 * (delta * B) + delta)) out'
    (MatrixOps.apply (AllGates.FOURIER_TRANSFORM_MATRIX_MAKER 1) [x; y]).
Proof.
  intros Hdelta Hx Hy Hm' Hout'. rewrite fourier_matrix_1 in *.
  unfold matrixWithinTolerance in Hm'.
  inversion Hm' as [| row1 h1 rest1 hrest1 Hrow1 Hrest1]; subst.
  inversion Hrest1 as [| row2 h2 rest2 hrest2 Hrow2 Hrest2]; subst.
  inversion Hrest2; subst.
  apply (near_of_withinTolerance Hdelta) in Hrow1, Hrow2.
  inversion Hrow1 as [| p p0 r1 r10 Hp Hr1]; subst.
  inversion Hr1 as [| q q0 r2 r20 Hq Hr2]; subst. inversion Hr2; subst.
  inversion Hrow2 as [| r r0 r3 r30 Hr Hr3]; subst.
  inversion Hr3 as [| u u0 r4 r40 Hu Hr4]; subst. inversion Hr4; subst.
  apply (near_of_withinTolerance Hdelta) in Hout'.
  unfold MatrixOps.apply in *. cbn [map] in *.
  inversion Hout' as [| o1 d1 t1 t10 Ho1 Ht1]; subst.
  inversion Ht1 as [| o2 d2 t2 t20 Ho2 Ht2]; subst. inversion Ht2; subst.
  constructor; [| constructor; [| constructor]].
  - replace (4 * (delta * B) + delta) with (delta + 4 * (delta * B)) by ring.
    eapply near_trans; [exact Ho1 |]. now apply dot2_near_row.
  - replace (4 * (delta * B) + delta) with (delta + 4 * (delta * B)) by ring.
    eapply near_trans; [exact Ho2 |]. now apply dot2_near_row.
Qed.

(** On a state of total squared magnitude 1 at most, an evaluation accurate
    to [delta] is within [5 * delta] of the exact product. *)
Lemma hadamard_stable (a b : Complex) (delta : R) (m' : Matrix)
    (out' : list Complex) :
  totalNorm2 [a; b] <= 1 -> 0 <= delta ->
  matrixWithinTolerance delta m' (AllGates.FOURIER_TRANSFORM_MATRIX_MAKER 1) ->
  withinTolerance delta out' (MatrixOps.apply m' [a; b]) ->
  Forall2 (near (5 * delta)) out'
    [mkComplex (sqrt (1 / 2) * (real a + real b))
               (sqrt (1 / 2) * (imag a + imag b));
     mkComplex (sqrt (1 / 2) * (real a - real b))
               (sqrt (1 / 2) * (imag a - imag b))].
Proof.
  intros Hstate Hdelta Hm' Hout'.
  destruct (state_amplitudes_bounded Hstate) as [Ha Hb].
  pose proof (hadamard_evaluation Hdelta Ha Hb Hm' Hout') as Hnear.
  rewrite hadamard_apply in Hnear.
  replace (5 * delta) with (4 * (delta * 1) + delta) by ring.
  exact Hnear.
Qed.

End ToleranceFacts.

Section FourierSpanOneGate.

Variables Tex Pass : Type.
Variable imp : Imports Tex Pass.

Local Open Scope R_scope.

(** The gate of span 1 of the family and its matrix. *)
Lemma fourier_size1_gate :
  exists g,
    ofSize (AllGates.FourierTransformFamily imp) 1 = Some g /\
    matrixOrFunc g = KnownMatrix (AllGates.FOURIER_TRANSFORM_MATRIX_MAKER 1).
Proof.
  assert (Hspan : (1 <= 1 <= 16)%Z) by lia.
  destruct (fourier_ofSize imp Hspan) as (g & Hg & _ & _ & _ & Hm).
  exists g. split; [exact Hg | exact Hm].
Qed.

(** C3, as the code has it.  The Fourier transform gate of span 1 has the
    Hadamard matrix.  Applied at any time to a single-qubit state (a, b),
    of total squared magnitude 1 at most, it yields
    ((a + b)/√2, (a - b)/√2) within the tolerance 1e-6 of the specification,
    the random source being left as it is; and so does every evaluation of
    the application that is accurate to 1e-7: one that holds, for each
    entry of the matrix, a number within 1e-7 of it and yields, for each
    amplitude of the product, a number within 1e-7 of it. *)
Theorem fourier_size1_is_hadamard (a b : Complex) (t : R)
    (s : Js.RandomSource) :
  totalNorm2 [a; b] <= 1 ->
  let ideal := [mkComplex (sqrt (1 / 2) * (real a + real b))
                          (sqrt (1 / 2) * (imag a + imag b));
                mkComplex (sqrt (1 / 2) * (real a - real b))
                          (sqrt (1 / 2) * (imag a - imag b))] in
  exists g m out,
    ofSize (AllGates.FourierTransformFamily imp) 1 = Some g /\
    matrixOrFunc g = KnownMatrix m /\
    applyAt g t [a; b] s = (Some out, s) /\
    withinTolerance 1e-6 out ideal /\
    forall (delta : R) (m' : Matrix) (out' : list Complex),
      0 <= delta <= 1e-7 ->
      matrixWithinTolerance delta m' m ->
      withinTolerance delta out' (MatrixOps.apply m' [a; b]) ->
      withinTolerance 1e-6 out' ideal.
Proof.
  intros Hstate ideal.
  destruct fourier_size1_gate as (g & Hg & Hm).
  exists g, (AllGates.FOURIER_TRANSFORM_MATRIX_MAKER 1), ideal.
  split; [exact Hg |]. split; [exact Hm |].
  split; [rewrite (applyAt_known g t [a; b] s Hm), hadamard_apply;
          reflexivity |].
  split.
  - apply withinTolerance_refl.
  - intros delta m' out' Hdelta Hm' Hout'.
    pose proof (hadamard_stable Hstate (proj1 Hdelta) Hm' Hout')
      as Hnear.
    apply (withinTolerance_of_near (c := 5 * delta)); [nra | nra | exact Hnear].
Qed.

End FourierSpanOneGate.

Lemma fourier_size1_is_hadamard_witness :
  (totalNorm2 [ComplexOps.one; ComplexOps.zero] <= 1)%R /\
  exists g out,
    ofSize (AllGates.FourierTransformFamily Symbolic.imports) 1 = Some g /\
    applyAt g 0%R [ComplexOps.one; ComplexOps.zero] Symbolic.source
      = (Some out, Symbolic.source) /\
    withinTolerance 1e-6 out
      [mkComplex (sqrt (1 / 2) * (1 + 0)) (sqrt (1 / 2) * (0 + 0));
       mkComplex (sqrt (1 / 2) * (1 - 0)) (sqrt (1 / 2) * (0 - 0))].
Proof.
  assert (H : (totalNorm2 [ComplexOps.one; ComplexOps.zero] <= 1)%R)
    by (unfold totalNorm2, ComplexOps.norm2, ComplexOps.one, ComplexOps.zero,
          ComplexOps.from; cbn [fold_right real imag]; lra).
  split; [exact H |].
  destruct (@fourier_size1_is_hadamard _ _ Symbolic.imports
              ComplexOps.one ComplexOps.zero 0%R Symbolic.source H)
    as (g & m & out & Hg & _ & Happ & Hout & _).
  exists g, out. split; [exact Hg |]. split; [exact Happ | exact Hout].
Defined.

(** C3, as the specification has it, does not hold: the state |0> = (1, 0)
    is sent to (1/√2, 1/√2), which is not (1, 0) within the tolerance 1e-6 of
    the specification. *)
Lemma fourier_size1_not_identity :
  ~ (forall (state : list Complex) (g : Gate Symbolic.Tex Symbolic.Pass)
            (t : R) (s : Js.RandomSource) (out : list Complex),
       List.length state = 2%nat ->
       ofSize (AllGates.FourierTransformFamily Symbolic.imports) 1 = Some g ->
       fst (applyAt g t state s) = Some out ->
       withinTolerance 1e-6 out state).
Proof.
  intros Hclaim.
  destruct (fourier_size1_gate Symbolic.imports) as (g & Hg & Hm).
  pose proof (applyAt_known g 0%R [ComplexOps.one; ComplexOps.zero]
                Symbolic.source Hm) as Happ.
  rewrite hadamard_apply in Happ.
  specialize (Hclaim [ComplexOps.one; ComplexOps.zero] g 0%R Symbolic.source
                _ eq_refl Hg (f_equal fst Happ)).
  cbn [fst] in Hclaim. unfold withinTolerance in Hclaim.
  inversion Hclaim as [| x y u v _ Htail]; subst.
  inversion Htail as [| x y u v Hsecond _]; subst.
  revert Hsecond.
  unfold ComplexOps.dist2, ComplexOps.one, ComplexOps.zero, ComplexOps.from.
  cbn [real imag]. intros Hsecond.
  pose proof sqrt_half_sqr as Hsq.
  nra.
Qed.

(** ** The bit-cycle matrices *)

Section ComplexFacts.

Local Open Scope R_scope.

Lemma times_one_l (x : Complex) : ComplexOps.times (ComplexOps.from 1) x = x.
Proof.
  destruct x as [re im]. unfold ComplexOps.times, ComplexOps.from.
  cbn [real imag]. f_equal; ring.
Qed.

Lemma times_zero_l (x : Complex) :
  ComplexOps.times (ComplexOps.from 0) x = ComplexOps.zero.
Proof.
  destruct x as [re im].
  unfold ComplexOps.times, ComplexOps.zero, ComplexOps.from.
  cbn [real imag]. f_equal; ring.
Qed.

Lemma plus_zero_l (x : Complex) : ComplexOps.plus ComplexOps.zero x = x.
Proof.
  destruct x as [re im].
  unfold ComplexOps.plus, ComplexOps.zero, ComplexOps.from.
  cbn [real imag]. f_equal; ring.
Qed.

Lemma plus_zero_r (x : Complex) : ComplexOps.plus x ComplexOps.zero = x.
Proof.
  destruct x as [re im].
  unfold ComplexOps.plus, ComplexOps.zero, ComplexOps.from.
  cbn [real imag]. f_equal; ring.
Qed.

End ComplexFacts.

Ltac simplify_amplitudes :=
  rewrite ?times_one_l, ?times_zero_l, ?plus_zero_l, ?plus_zero_r.

Section GenerateFacts.

Lemma generate_length (w h : Z) (f : Z -> Z -> Complex) :
  List.length (MatrixOps.generate w h f) = Z.to_nat h.
Proof. unfold MatrixOps.generate. now rewrite length_map, range_length. Qed.

Lemma generate_rows (w h : Z) (f : Z -> Z -> Complex) :
  Forall (fun row => List.length row = Z.to_nat w) (MatrixOps.generate w h f).
Proof.
  unfold MatrixOps.generate. apply Forall_forall. intros row Hin.
  apply in_map_iff in Hin. destruct Hin as [r [<- _]].
  now rewrite length_map, range_length.
Qed.

Lemma generate_cell (w h : Z) (f : Z -> Z -> Complex) (r c : Z) :
  0 <= r < h -> 0 <= c < w ->
  MatrixOps.cell (MatrixOps.generate w h f) (Z.to_nat r) (Z.to_nat c) = f r c.
Proof.
  intros Hr Hc. unfold MatrixOps.cell, MatrixOps.generate.
  assert (Hrow : nth_error
            (map (fun r0 => map (fun c0 => f r0 c0) (Js.range w)) (Js.range h))
            (Z.to_nat r) = Some (map (fun c0 => f r c0) (Js.range w)))
    by now rewrite nth_error_map, range_nth_error.
  rewrite (nth_error_nth _ _ [] Hrow).
  apply nth_error_nth. now rewrite nth_error_map, range_nth_error.
Qed.

End GenerateFacts.

(** Solves [Permutation l r] for lists written out element by element. *)
Ltac find_split a r k :=
  lazymatch r with
  | a :: ?post => k (@nil Complex) post
  | ?b :: ?rest => find_split a rest ltac:(fun pre post => k (b :: pre) post)
  end.

Ltac permutation_of_literals :=
  lazymatch goal with
  | |- Permutation [] [] => apply perm_nil
  | |- Permutation (?a :: ?l) ?r =>
      find_split a r
        ltac:(fun pre post => apply (@Permutation_cons_app _ l pre post a));
      cbn [app]; permutation_of_literals
  end.

Section CycleBitsFacts.

(** Within 3 bits, 011 rotated left is 110 and 100 rotated left is 001. *)
Example rotateLeft_3 : rotateLeft 3 3 = 6 /\ rotateLeft 3 4 = 1.
Proof. split; reflexivity. Qed.

Lemma cycle_matrix_by_bits (span : Z) :
  AllGates.CYCLE_BITS_MATRIX_MAKER span =
  MatrixOps.generate (Js.shl 1 span) (Js.shl 1 span)
    (fun r c => if cycleBit span r c
                then ComplexOps.from 1 else ComplexOps.from 0).
Proof. reflexivity. Qed.

(** On spans 2 and 3 the test of the generator is the rotation. *)
Lemma cycleBit_rotateLeft (span r c : Z) :
  span = 2 \/ span = 3 ->
  0 <= r < 2 ^ span -> 0 <= c < 2 ^ span ->
  cycleBit span r c = Z.eqb r (rotateLeft span c).
Proof.
  intros Hspan Hr Hc.
  assert (Hall : forallb (fun sp =>
            forallb (fun r' =>
              forallb (fun c' =>
                 Bool.eqb (cycleBit sp r' c') (Z.eqb r' (rotateLeft sp c')))
                (Js.range (2 ^ sp)))
              (Js.range (2 ^ sp))) [2; 3] = true) by (vm_compute; reflexivity).
  rewrite forallb_forall in Hall.
  assert (Hin : In span [2; 3]) by (cbn; lia).
  specialize (Hall span Hin). rewrite forallb_forall in Hall.
  specialize (Hall r (proj2 (range_In _ _) Hr)). rewrite forallb_forall in Hall.
  specialize (Hall c (proj2 (range_In _ _) Hc)).
  now apply Bool.eqb_prop.
Qed.

(** On spans 2 and 3 the rotation maps the addresses onto themselves, one to
    one. *)
Lemma rotateLeft_bijective (span r : Z) :
  span = 2 \/ span = 3 ->
  0 <= r < 2 ^ span ->
  exists c, (0 <= c < 2 ^ span /\ rotateLeft span c = r) /\
            forall c', 0 <= c' < 2 ^ span -> rotateLeft span c' = r -> c' = c.
Proof.
  intros Hspan Hr.
  assert (Hall : forallb (fun sp =>
            forallb (fun r' =>
              Nat.eqb (List.length
                         (filter (fun c => Z.eqb (rotateLeft sp c) r')
                                 (Js.range (2 ^ sp)))) 1)
              (Js.range (2 ^ sp))) [2; 3] = true) by (vm_compute; reflexivity).
  rewrite forallb_forall in Hall.
  assert (Hin : In span [2; 3]) by (cbn; lia).
  specialize (Hall span Hin). rewrite forallb_forall in Hall.
  specialize (Hall r (proj2 (range_In _ _) Hr)).
  destruct (filter (fun c => Z.eqb (rotateLeft span c) r) (Js.range (2 ^ span)))
    as [| c [| c2 rest]] eqn:Hf; try discriminate Hall.
  assert (Hc : In c (filter (fun c => Z.eqb (rotateLeft span c) r)
                            (Js.range (2 ^ span))))
    by (rewrite Hf; now left).
  apply filter_In in Hc. destruct Hc as [Hrange Hrot].
  exists c. split.
  - split; [now apply range_In | now apply Z.eqb_eq].
  - intros c' Hc' Hrot'.
    assert (Hc'in : In c' (filter (fun c => Z.eqb (rotateLeft span c) r)
                                  (Js.range (2 ^ span)))).
    { apply filter_In. split; [now apply range_In | now apply Z.eqb_eq]. }
    rewrite Hf in Hc'in. destruct Hc'in as [<- | []]. reflexivity.
Qed.

Lemma cycle_matrix_2 (x0 x1 x2 x3 : Complex) :
  MatrixOps.apply (AllGates.CYCLE_BITS_MATRIX_MAKER 2) [x0; x1; x2; x3]
  = [x0; x2; x1; x3].
Proof.
  rewrite cycle_matrix_by_bits. unfold MatrixOps.generate.
  replace (Js.shl 1 2) with 4 by reflexivity.
  replace (Js.range 4) with [0; 1; 2; 3] by reflexivity.
  cbn [map].
  repeat match goal with
         | |- context [cycleBit ?s ?r ?c] =>
             let b := eval vm_compute in (cycleBit s r c) in
             change (cycleBit s r c) with b
         end.
  unfold MatrixOps.apply. cbn [map MatrixOps.dot].
  simplify_amplitudes. reflexivity.
Qed.

Lemma cycle_matrix_3 (x0 x1 x2 x3 x4 x5 x6 x7 : Complex) :
  MatrixOps.apply (AllGates.CYCLE_BITS_MATRIX_MAKER 3)
                  [x0; x1; x2; x3; x4; x5; x6; x7]
  = [x0; x4; x1; x5; x2; x6; x3; x7].
Proof.
  rewrite cycle_matrix_by_bits. unfold MatrixOps.generate.
  replace (Js.shl 1 3) with 8 by reflexivity.
  replace (Js.range 8) with [0; 1; 2; 3; 4; 5; 6; 7] by reflexivity.
  cbn [map].
  repeat match goal with
         | |- context [cycleBit ?s ?r ?c] =>
             let b := eval vm_compute in (cycleBit s r c) in
             change (cycleBit s r c) with b
         end.
  unfold MatrixOps.apply. cbn [map MatrixOps.dot].
  simplify_amplitudes. reflexivity.
Qed.

(** Applying a bit-cycle matrix moves the amplitudes without changing
    them. *)
Lemma cycle_matrix_permutes (span : Z) (state : list Complex) :
  span = 2 \/ span = 3 ->
  List.length state = Z.to_nat (2 ^ span) ->
  Permutation (MatrixOps.apply (AllGates.CYCLE_BITS_MATRIX_MAKER span) state)
              state.
Proof.
  intros [-> | ->] Hlen.
  - destruct state as [| x0 [| x1 [| x2 [| x3 [| x4 rest]]]]];
      try discriminate Hlen.
    rewrite cycle_matrix_2. permutation_of_literals.
  - destruct state
      as [| x0 [| x1 [| x2 [| x3 [| x4 [| x5 [| x6 [| x7 [| x8 rest]]]]]]]]];
      try discriminate Hlen.
    rewrite cycle_matrix_3. permutation_of_literals.
Qed.

End CycleBitsFacts.

Section CycleBitsGate.

Variables Tex Pass : Type.
Variable imp : Imports Tex Pass.

Lemma cycle_ofSize (span : Z) :
  2 <= span <= 16 ->
  exists g,
    ofSize (AllGates.CycleBitsFamily imp) span = Some g /\
    height g = span /\
    matrixOrFunc g =
      (if 4 <=? span then NoMatrix
       else KnownMatrix (AllGates.CYCLE_BITS_MATRIX_MAKER span)).
Proof.
  intros Hspan. unfold AllGates.CycleBitsFamily.
  eexists. split.
  - apply ofSize_generateFamily; [reflexivity | exact Hspan].
  - cbn [height matrixOrFunc withCustomShader withCustomShaders withHeight
         withSerializedId withKnownMatrix markedAsOnlyPermutingAndPhasing
         markedAsStable withoutKnownMatrix].
    split; [reflexivity |]. now destruct (4 <=? span).
Qed.

(** C4.  For the spans 2 and 3, at which the bit-cycle gate has a known
    matrix, this matrix is [CYCLE_BITS_MATRIX_MAKER span]: a square matrix of
    side 2^span whose entry at row r and column c is 1 when r is c rotated
    left by one position within span bits and 0 otherwise; the rotation is
    one to one on the addresses, so the matrix is a permutation matrix, and
    applying the matrix, or the gate at any time, to a state of 2^span
    amplitudes yields a rearrangement of the same amplitudes. *)
Theorem cycle_bits_matrix_is_rotation (span : Z) :
  span = 2 \/ span = 3 ->
  let M := AllGates.CYCLE_BITS_MATRIX_MAKER span in
  (exists g,
     ofSize (AllGates.CycleBitsFamily imp) span = Some g /\
     matrixOrFunc g = KnownMatrix M /\
     forall (t : R) (state : list Complex) (s : Js.RandomSource),
       List.length state = Z.to_nat (2 ^ span) ->
       exists out,
         applyAt g t state s = (Some out, s) /\ Permutation out state) /\
  List.length M = Z.to_nat (2 ^ span) /\
  Forall (fun row => List.length row = Z.to_nat (2 ^ span)) M /\
  (forall r c,
     0 <= r < 2 ^ span -> 0 <= c < 2 ^ span ->
     MatrixOps.cell M (Z.to_nat r) (Z.to_nat c) =
       if Z.eqb r (rotateLeft span c)
       then ComplexOps.one else ComplexOps.zero) /\
  (forall r,
     0 <= r < 2 ^ span ->
     exists c,
       (0 <= c < 2 ^ span /\ rotateLeft span c = r) /\
       forall c', 0 <= c' < 2 ^ span -> rotateLeft span c' = r -> c' = c) /\
  (forall state : list Complex,
     List.length state = Z.to_nat (2 ^ span) ->
     Permutation (MatrixOps.apply M state) state).
Proof.
  intros Hspan M.
  assert (Hside : Js.shl 1 span = 2 ^ span)
    by (destruct Hspan as [-> | ->]; reflexivity).
  assert (Hrange : 2 <= span <= 16) by lia.
  assert (Hsmall : (4 <=? span) = false)
    by (destruct Hspan as [-> | ->]; reflexivity).
  split; [| split; [| split; [| split; [| split]]]].
  - destruct (cycle_ofSize Hrange) as (g & Hg & _ & Hm).
    rewrite Hsmall in Hm.
    exists g. split; [exact Hg |]. split; [exact Hm |].
    intros t state s Hlen. eexists. split.
    + apply (applyAt_known g t state s Hm).
    + now apply cycle_matrix_permutes.
  - subst M. rewrite cycle_matrix_by_bits, generate_length. now rewrite Hside.
  - subst M. rewrite cycle_matrix_by_bits, <- Hside. apply generate_rows.
  - intros r c Hr Hc. subst M.
    rewrite cycle_matrix_by_bits, generate_cell by (rewrite Hside; assumption).
    now rewrite cycleBit_rotateLeft.
  - intros r Hr. now apply rotateLeft_bijective.
  - intros state Hlen. now apply cycle_matrix_permutes.
Qed.

End CycleBitsGate.

Lemma cycle_bits_matrix_is_rotation_witness :
  (3 = 2 \/ 3 = 3) /\
  MatrixOps.cell (AllGates.CYCLE_BITS_MATRIX_MAKER 3) 1 4 = ComplexOps.one /\
  Permutation
    (MatrixOps.apply (AllGates.CYCLE_BITS_MATRIX_MAKER 3)
       (map (fun k => ComplexOps.from (IZR k)) [0; 1; 2; 3; 4; 5; 6; 7]))
    (map (fun k => ComplexOps.from (IZR k)) [0; 1; 2; 3; 4; 5; 6; 7]).
Proof.
  assert (Hspan : 3 = 2 \/ 3 = 3) by (right; reflexivity).
  destruct (@cycle_bits_matrix_is_rotation _ _ Symbolic.imports 3 Hspan)
    as (_ & _ & _ & Hcell & _ & Hperm).
  split; [exact Hspan |]. split.
  - apply (Hcell 1 4); lia.
  - apply Hperm. reflexivity.
Defined.

(** ** The mystery gate *)

Section MysteryGateFacts.

Variables Tex Pass : Type.
Variable imp : Imports Tex Pass.

(** C5.  [MysteryGateMaker] reads eight draws of the random source, and no
    more; the gate it returns holds one matrix, the closest unitary of the
    matrix of these draws, which is unitary as long as [closestUnitary]
    answers unitary matrices.  The gate has this matrix at every time and
    whatever the random source holds then, so that two applications to the
    same state give the same result, and applying it leaves the random
    source untouched. *)
Theorem mystery_gate_is_fixed (s : Js.RandomSource) :
  (forall m, isUnitary (Matrix_closestUnitary imp m)) ->
  let g := fst (AllGates.MysteryGateMaker imp s) in
  let s' := snd (AllGates.MysteryGateMaker imp s) in
  let d := fun k => (Js.draws s (Js.consumed s + k) - 0.5)%R in
  let m := Matrix_closestUnitary imp
             (MatrixOps.square
                [mkComplex (d 0%nat) (d 1%nat); mkComplex (d 2%nat) (d 3%nat);
                 mkComplex (d 4%nat) (d 5%nat); mkComplex (d 6%nat) (d 7%nat)]) in
  Js.draws s' = Js.draws s /\
  Js.consumed s' = (Js.consumed s + 8)%nat /\
  matrixOrFunc g = KnownMatrix m /\
  isUnitary m /\
  (forall t s1, matrixAt g t s1 = (Some m, s1)) /\
  (forall t state s1,
     applyAt g t state s1 = (Some (MatrixOps.apply m state), s1)) /\
  (forall t1 t2 state s1 s2,
     fst (applyAt g t1 state s1) = fst (applyAt g t2 state s2)).
Proof.
  intros Hunitary g s' d m.
  assert (Hg : g = AllGates.MysteryGateMakerWithMatrix Tex Pass m).
  { subst g m d. unfold AllGates.MysteryGateMaker, Js.bind, Js.random, Js.ret.
    cbn [fst snd Js.draws Js.consumed].
    rewrite Nat.add_0_r.
    replace (Js.consumed s + 1)%nat with (S (Js.consumed s)) by lia.
    replace (Js.consumed s + 2)%nat with (S (S (Js.consumed s))) by lia.
    replace (Js.consumed s + 3)%nat with (S (S (S (Js.consumed s)))) by lia.
    replace (Js.consumed s + 4)%nat
      with (S (S (S (S (Js.consumed s))))) by lia.
    replace (Js.consumed s + 5)%nat
      with (S (S (S (S (S (Js.consumed s)))))) by lia.
    replace (Js.consumed s + 6)%nat
      with (S (S (S (S (S (S (Js.consumed s))))))) by lia.
    replace (Js.consumed s + 7)%nat
      with (S (S (S (S (S (S (S (Js.consumed s)))))))) by lia.
    reflexivity. }
  assert (Hm : matrixOrFunc g = KnownMatrix m) by (rewrite Hg; reflexivity).
  split; [reflexivity |].
  split; [subst s'; cbn; lia |].
  split; [exact Hm |].
  split; [apply Hunitary |].
  split; [intros t s1; apply (matrixAt_known g t s1 Hm) |].
  split; [intros t state s1; apply (applyAt_known g t state s1 Hm) |].
  intros t1 t2 state s1 s2.
  now rewrite (applyAt_known g t1 state s1 Hm),
              (applyAt_known g t2 state s2 Hm).
Qed.

End MysteryGateFacts.

Lemma identity2_unitary : isUnitary (MatrixOps.identity 2).
Proof.
  unfold isUnitary.
  replace (MatrixOps.identity 2)
    with [[ComplexOps.one; ComplexOps.zero]; [ComplexOps.zero; ComplexOps.one]]
    by reflexivity.
  cbn [List.length].
  replace (MatrixOps.identity (Z.of_nat 2))
    with [[ComplexOps.one; ComplexOps.zero]; [ComplexOps.zero; ComplexOps.one]]
    by reflexivity.
  unfold MatrixOps.times, MatrixOps.adjoint, MatrixOps.columns, MatrixOps.column,
    ComplexOps.conjugate, ComplexOps.one, ComplexOps.zero, ComplexOps.from,
    ComplexOps.plus, ComplexOps.times.
  cbn [hd List.length seq map nth MatrixOps.dot real imag].
  unfold ComplexOps.plus, ComplexOps.times, ComplexOps.zero, ComplexOps.from.
  cbn [real imag].
  repeat match goal with
         | |- _ :: _ = _ :: _ => f_equal
         | |- mkComplex _ _ = mkComplex _ _ => f_equal
         end; ring.
Qed.

Lemma mystery_gate_is_fixed_witness :
  (forall m, isUnitary (Matrix_closestUnitary Symbolic.imports m)) /\
  forall t1 t2 state s1 s2,
    fst (applyAt (fst (AllGates.MysteryGateMaker Symbolic.imports
                         Symbolic.source)) t1 state s1)
    = fst (applyAt (fst (AllGates.MysteryGateMaker Symbolic.imports
                           Symbolic.source)) t2 state s2).
Proof.
  assert (Hunitary : forall m, isUnitary (Matrix_closestUnitary Symbolic.imports m)).
  { intros m. exact identity2_unitary. }
  split; [exact Hunitary |].
  apply (mystery_gate_is_fixed Symbolic.imports Symbolic.source Hunitary).
Defined.

(** ** The error injection gate *)

Section ErrorInjectionFacts.

Variables Tex Pass : Type.

(** C6.  The error injection gate has one custom shader.  Whatever the input
    texture, the control texture and the qubit index, calling it throws a
    detailed error that holds the message and the qubit, and returns no
    output; the throw is an ordinary one: a caller that wraps the call in
    try/catch has its handler run on that error. *)
Theorem error_injection_throws :
  exists shader : Shader Tex Pass,
    customShaders (AllGates.ErrorInjection Tex Pass) = Some [shader] /\
    forall (inputTex controlTex : Tex) (qubit : Z),
      let fault := mkDetailedError "Applied an Error Injection Gate"
                                   [("qubit"%string, qubit)] in
      shader inputTex controlTex qubit = Js.Thrown fault /\
      (forall out, shader inputTex controlTex qubit <> Js.Returned out) /\
      (forall handler,
         Js.try_catch (shader inputTex controlTex qubit) handler
         = handler fault).
Proof.
  exists (@AllGates.ErrorInjectionShader Tex Pass).
  split; [reflexivity |].
  intros inputTex controlTex qubit fault.
  split; [reflexivity |]. split; [| reflexivity].
  intros out Hout. discriminate Hout.
Qed.

End ErrorInjectionFacts.

(** ** Doubles *)

Section DoubleFacts.

Local Open Scope R_scope.

Lemma floor_spec (x : R) : IZR (Js.floor x) <= x < IZR (Js.floor x) + 1.
Proof.
  unfold Js.floor. rewrite minus_IZR. destruct (archimed x) as [H1 H2]. lra.
Qed.

Lemma floor_unique (x : R) (k : Z) : IZR k <= x < IZR k + 1 -> Js.floor x = k.
Proof.
  intros [H1 H2]. unfold Js.floor.
  rewrite <- (up_tech x k H1); [lia |]. rewrite plus_IZR. exact H2.
Qed.

Lemma floor_IZR (k : Z) : Js.floor (IZR k) = k.
Proof. apply floor_unique. lra. Qed.

Lemma ulp_pos (x : R) : 0 < Js.ulp x.
Proof. unfold Js.ulp. apply exp_pos. Qed.

Lemma nearestEven_IZR (k : Z) : Js.nearestEven (IZR k) = k.
Proof.
  unfold Js.nearestEven. rewrite floor_IZR.
  destruct (Rlt_dec _ _); [reflexivity | lra].
Qed.

(** The nearest integer is at most one half away. *)
Lemma nearestEven_near (m : R) : Rabs (IZR (Js.nearestEven m) - m) <= 1 / 2.
Proof.
  unfold Js.nearestEven. destruct (floor_spec m) as [H1 H2].
  apply Rabs_le.
  destruct (Rlt_dec _ _); [lra |].
  destruct (Rlt_dec _ _); [rewrite plus_IZR; lra |].
  destruct (Z.even _); [lra | rewrite plus_IZR; lra].
Qed.

Lemma nearestEven_not_positive (m : R) :
  m <= 0 -> (Js.nearestEven m <= 0)%Z.
Proof.
  intros Hm. unfold Js.nearestEven.
  destruct (floor_spec m) as [H1 H2].
  assert (Hf : (Js.floor m <= 0)%Z) by (apply le_IZR; lra).
  destruct (Z.eq_dec (Js.floor m) 0) as [E | E].
  - rewrite E in *. destruct (Rlt_dec (m - 0) (1 / 2)); [lia | lra].
  - assert ((Js.floor m + 1 <= 0)%Z) by lia.
    destruct (Rlt_dec _ _); [lia |].
    destruct (Rlt_dec _ _); [lia |].
    destruct (Z.even _); lia.
Qed.

(** Rounding keeps the sign: the double nearest to a number that is not
    positive is not positive. *)
Lemma round64_not_positive (x : R) : x <= 0 -> Js.round64 x <= 0.
Proof.
  intros Hx. unfold Js.round64. destruct (Req_dec_T x 0); [lra |].
  pose proof (ulp_pos x) as Hu.
  assert (Hm : x / Js.ulp x <= 0).
  { pose proof (Rinv_0_lt_compat _ Hu). unfold Rdiv. nra. }
  apply nearestEven_not_positive, IZR_le in Hm. nra.
Qed.

(** The rounded number is at most half the distance between doubles away. *)
Lemma round64_near (x : R) : Rabs (Js.round64 x - x) <= Js.ulp x / 2.
Proof.
  pose proof (ulp_pos x) as Hu.
  unfold Js.round64. destruct (Req_dec_T x 0) as [-> | _].
  - rewrite Rminus_0_r, Rabs_R0. lra.
  - pose proof (nearestEven_near (x / Js.ulp x)) as Hn.
    replace (IZR (Js.nearestEven (x / Js.ulp x)) * Js.ulp x - x)
      with ((IZR (Js.nearestEven (x / Js.ulp x)) - x / Js.ulp x) * Js.ulp x)
      by (field; lra).
    rewrite Rabs_mult, (Rabs_pos_eq (Js.ulp x)) by lra.
    nra.
Qed.



Lemma pow2_pos (e : Z) : 0 < Js.pow2 e.
Proof. apply exp_pos. Qed.

Lemma pow2_add (a b : Z) : Js.pow2 (a + b) = Js.pow2 a * Js.pow2 b.
Proof. unfold Js.pow2. rewrite plus_IZR. apply Rpower_plus. Qed.

Lemma pow2_nonneg_exponent (n : Z) : (0 <= n)%Z -> Js.pow2 n = IZR (2 ^ n).
Proof.
  intros Hn. unfold Js.pow2. rewrite <- (Z2Nat.id n Hn).
  rewrite <- INR_IZR_INZ, Rpower_pow by lra. now rewrite pow_IZR.
Qed.

Lemma pow2_opp (n : Z) : Js.pow2 (- n) = / Js.pow2 n.
Proof.
  pose proof (pow2_pos n) as Hn.
  apply Rmult_eq_reg_l with (Js.pow2 n); [| lra].
  rewrite <- pow2_add, Z.add_opp_diag_r.
  rewrite (@pow2_nonneg_exponent 0) by lia. cbn. field. lra.
Qed.

Lemma binade_unique (x : R) (k : Z) :
  Js.pow2 k <= Rabs x < Js.pow2 (k + 1) -> Js.binade x = k.
Proof.
  intros [H1 H2]. unfold Js.binade. apply floor_unique.
  pose proof (pow2_pos k) as Hk.
  assert (Hx : 0 < Rabs x) by lra.
  assert (Hl2 : 0 < ln 2) by (pose proof ln_lt_2; lra).
  assert (E1 : ln (Js.pow2 k) = IZR k * ln 2) by apply ln_Rpower.
  assert (E2 : ln (Js.pow2 (k + 1)) = (IZR k + 1) * ln 2).
  { unfold Js.pow2. rewrite ln_Rpower, plus_IZR. reflexivity. }
  assert (L1 : ln (Js.pow2 k) <= ln (Rabs x)).
  { destruct H1 as [H1 | H1]; [left; now apply ln_increasing | rewrite H1; lra]. }
  assert (L2 : ln (Rabs x) < ln (Js.pow2 (k + 1))) by now apply ln_increasing.
  rewrite E1 in L1. rewrite E2 in L2.
  split.
  - apply Rmult_le_reg_r with (ln 2); [exact Hl2 |].
    unfold Rdiv. rewrite Rmult_assoc, Rinv_l by lra. lra.
  - apply Rmult_lt_reg_r with (ln 2); [exact Hl2 |].
    unfold Rdiv. rewrite Rmult_assoc, Rinv_l by lra. lra.
Qed.

(** The distance between the doubles of the binade of exponent [k]. *)
Lemma ulp_in_binade (x : R) (k : Z) :
  (-1022 <= k)%Z -> Js.pow2 k <= Rabs x < Js.pow2 (k + 1) ->
  Js.ulp x = Js.pow2 (k - 52).
Proof.
  intros Hk Hx. unfold Js.ulp. rewrite (binade_unique x k Hx).
  f_equal. lia.
Qed.

(** A number that is not 0 lies in the binade of its exponent. *)
Lemma binade_spec (x : R) :
  x <> 0 -> Js.pow2 (Js.binade x) <= Rabs x < Js.pow2 (Js.binade x + 1).
Proof.
  intros Hx.
  assert (Hpos : 0 < Rabs x) by now apply Rabs_pos_lt.
  assert (Hl2 : 0 < ln 2) by (pose proof ln_lt_2; lra).
  destruct (floor_spec (ln (Rabs x) / ln 2)) as [H1 H2].
  fold (Js.binade x) in H1, H2.
  assert (L1 : IZR (Js.binade x) * ln 2 <= ln (Rabs x)).
  { apply Rmult_le_compat_r with (r := ln 2) in H1; [| lra].
    unfold Rdiv in H1. rewrite Rmult_assoc, Rinv_l, Rmult_1_r in H1 by lra.
    exact H1. }
  assert (L2 : ln (Rabs x) < (IZR (Js.binade x) + 1) * ln 2).
  { apply Rmult_lt_compat_r with (r := ln 2) in H2; [| lra].
    unfold Rdiv in H2. rewrite Rmult_assoc, Rinv_l, Rmult_1_r in H2 by lra.
    exact H2. }
  unfold Js.pow2, Rpower. rewrite plus_IZR.
  rewrite <- (exp_ln (Rabs x) Hpos) at 1 2. split.
  - destruct L1 as [L1 | L1]; [left; now apply exp_increasing |].
    rewrite L1. lra.
  - now apply exp_increasing.
Qed.

(** Rounding a number of the normal range moves it by 2^-53 of its
    magnitude at most. *)
Lemma round64_relative_error (x : R) :
  Js.pow2 (-1022) <= Rabs x ->
  Rabs (Js.round64 x - x) <= Rabs x / 9007199254740992.
Proof.
  intros Hnormal.
  pose proof (pow2_pos (-1022)) as Hmin.
  assert (Hx : x <> 0).
  { intros ->. rewrite Rabs_R0 in Hnormal. lra. }
  destruct (binade_spec Hx) as [Hlo Hhi].
  assert (Hb : (-1022 <= Js.binade x)%Z).
  { destruct (Z_lt_le_dec (Js.binade x) (-1022)) as [Hlt | Hle];
      [| exact Hle].
    exfalso.
    assert (Js.pow2 (Js.binade x + 1) <= Js.pow2 (-1022)).
    { destruct (Z.eq_dec (Js.binade x + 1) (-1022)) as [-> | Hne]; [lra |].
      left. unfold Js.pow2. apply Rpower_lt; [lra |]. apply IZR_lt. lia. }
    lra. }
  pose proof (round64_near x) as Hnear.
  rewrite (@ulp_in_binade x (Js.binade x) Hb (conj Hlo Hhi)) in Hnear.
  replace (Js.binade x - 52)%Z with (Js.binade x + - (52))%Z in Hnear by lia.
  rewrite pow2_add, pow2_opp, (@pow2_nonneg_exponent 52) in Hnear by lia.
  change (IZR (2 ^ 52)) with 4503599627370496 in Hnear.
  lra.
Qed.

(** A double of the normal range, a 53-bit integer times a power of two, is
    its own rounding. *)
Lemma round64_normal (M E : Z) :
  (2 ^ 52 <= Z.abs M < 2 ^ 53)%Z -> (-1074 <= E)%Z ->
  Js.round64 (IZR M * Js.pow2 E) = IZR M * Js.pow2 E.
Proof.
  intros HM HE.
  pose proof (pow2_pos E) as HpE.
  assert (Hu : Js.ulp (IZR M * Js.pow2 E) = Js.pow2 E).
  { rewrite (@ulp_in_binade _ (E + 52)); [f_equal; lia | lia |].
    rewrite Rabs_mult, (Rabs_pos_eq (Js.pow2 E)) by lra.
    rewrite <- abs_IZR.
    replace (E + 52 + 1)%Z with (53 + E)%Z by lia.
    replace (E + 52)%Z with (52 + E)%Z by lia.
    rewrite !pow2_add.
    rewrite (@pow2_nonneg_exponent 52), (@pow2_nonneg_exponent 53) by lia.
    split.
    - apply Rmult_le_compat_r; [lra | apply IZR_le; lia].
    - apply Rmult_lt_compat_r; [lra | apply IZR_lt; lia]. }
  unfold Js.round64. destruct (Req_dec_T _ _) as [E0 | _]; [now rewrite E0 |].
  rewrite Hu.
  replace (IZR M * Js.pow2 E / Js.pow2 E) with (IZR M) by (field; lra).
  now rewrite nearestEven_IZR.
Qed.

(** 0.75 and 2.0625 are doubles. *)
Lemma round64_three_quarters : Js.round64 0.75 = 0.75.
Proof.
  assert (E : 0.75 = IZR (3 * 2 ^ 51) * Js.pow2 (- (53))).
  { rewrite pow2_opp, (@pow2_nonneg_exponent 53) by lia.
    change (3 * 2 ^ 51)%Z with 6755399441055744%Z.
    change (2 ^ 53)%Z with 9007199254740992%Z. lra. }
  rewrite E. apply round64_normal; lia.
Qed.

Lemma round64_33_sixteenths : Js.round64 (1.3125 + 0.75) = 1.3125 + 0.75.
Proof.
  assert (E : 1.3125 + 0.75 = IZR (33 * 2 ^ 47) * Js.pow2 (- (51))).
  { rewrite pow2_opp, (@pow2_nonneg_exponent 51) by lia.
    change (33 * 2 ^ 47)%Z with 4644337115725824%Z.
    change (2 ^ 51)%Z with 2251799813685248%Z. lra. }
  rewrite E. apply round64_normal; lia.
Qed.

(** The sum of 0.25 - 2^-55 and 0.75 is not a double: it lies between the
    doubles 1 - 2^-53 and 1 and is rounded to 1, the nearer of the two. *)
Lemma round64_just_below_one :
  Js.round64 (0.25 - / 36028797018963968 + 0.75) = 1.
Proof.
  set (x := 0.25 - / 36028797018963968 + 0.75).
  assert (Hx : 1 / 2 <= x < 1) by (unfold x; lra).
  assert (Hu : Js.ulp x = / 9007199254740992).
  { rewrite (@ulp_in_binade x (- (1))); [| lia |].
    - change (- (1) - 52)%Z with (- (53))%Z.
      rewrite pow2_opp, (@pow2_nonneg_exponent 53) by lia. reflexivity.
    - rewrite Rabs_pos_eq by lra.
      change (- (1) + 1)%Z with 0%Z.
      rewrite pow2_opp, (@pow2_nonneg_exponent 1), (@pow2_nonneg_exponent 0)
        by lia.
      change (IZR (2 ^ 1)) with 2. change (IZR (2 ^ 0)) with 1. lra. }
  unfold Js.round64. destruct (Req_dec_T x 0) as [E0 | _]; [lra |].
  rewrite Hu.
  assert (Hm : x / / 9007199254740992 = 9007199254740992 - 1 / 4)
    by (unfold Rdiv; rewrite Rinv_inv; unfold x; lra).
  rewrite Hm. unfold Js.nearestEven.
  rewrite (@floor_unique _ 9007199254740991) by lra.
  destruct (Rlt_dec _ _); [lra |].
  destruct (Rlt_dec _ _); [| lra].
  change (9007199254740991 + 1)%Z with 9007199254740992%Z. field.
Qed.

(** The sum of 0.75 - 2^-53 and 0.75 is half way between the doubles
    1.5 - 2^-52 and 1.5, and is rounded to the one of even mantissa, 1.5. *)
Lemma round64_tie_below_three_halves :
  Js.round64 (0.75 - / 9007199254740992 + 0.75) = 1.5.
Proof.
  set (x := 0.75 - / 9007199254740992 + 0.75).
  assert (Hx : 1 <= x < 2) by (unfold x; lra).
  assert (Hu : Js.ulp x = / 4503599627370496).
  { rewrite (@ulp_in_binade x 0); [| lia |].
    - change (0 - 52)%Z with (- (52))%Z.
      rewrite pow2_opp, (@pow2_nonneg_exponent 52) by lia. reflexivity.
    - rewrite Rabs_pos_eq by lra.
      rewrite (@pow2_nonneg_exponent 0), (@pow2_nonneg_exponent (0 + 1))
        by lia.
      change (IZR (2 ^ 0)) with 1. change (IZR (2 ^ (0 + 1))) with 2. lra. }
  unfold Js.round64. destruct (Req_dec_T x 0) as [E0 | _]; [lra |].
  rewrite Hu.
  assert (Hm : x / / 4503599627370496 = 6755399441055744 - 1 / 2)
    by (unfold Rdiv; rewrite Rinv_inv; unfold x; lra).
  rewrite Hm. unfold Js.nearestEven.
  rewrite (@floor_unique _ 6755399441055743) by lra.
  destruct (Rlt_dec _ _); [lra |].
  destruct (Rlt_dec _ _); [lra |].
  change (Z.even 6755399441055743) with false.
  change (6755399441055743 + 1)%Z with 6755399441055744%Z. lra.
Qed.

End DoubleFacts.

(** ** The clock pulse gates *)

Section ClockFacts.

Variables Tex Pass : Type.

Local Open Scope R_scope.

(** The remainder of the division by 1 of a time that is not negative is its
    fractional part. *)
Lemma rem_fraction (x : R) (n : Z) :
  IZR n <= x < IZR n + 1 -> 0 <= x -> Js.rem x 1 = x - IZR n.
Proof.
  intros Hx Hpos. unfold Js.rem, Js.trunc.
  replace (x / 1) with x by field.
  destruct (Rle_dec 0 x) as [_ | Hneg]; [| lra].
  assert (Hup : (n + 1)%Z = up x)
    by (apply up_tech; [lra | rewrite plus_IZR; lra]).
  rewrite <- Hup. replace (n + 1 - 1)%Z with n by lia. ring.
Qed.

(** The remainder of the division by 1 of a time within the first period is
    the time itself. *)
Lemma rem_first_period (x : R) : 0 <= x < 1 -> Js.rem x 1 = x.
Proof.
  intros Hx. rewrite (@rem_fraction x 0) by lra. lra.
Qed.

(** The remainder of a time that is not positive is not positive. *)
Lemma rem_not_positive (x : R) : x <= 0 -> -1 < Js.rem x 1 <= 0.
Proof.
  intros Hx. unfold Js.rem, Js.trunc.
  replace (x / 1) with x by field.
  destruct (Rle_dec 0 x) as [Hzero | Hneg].
  - assert (x = 0) by lra. subst x.
    assert (Hup : (0 + 1)%Z = up 0) by (apply up_tech; cbn; lra).
    rewrite <- Hup. cbn. lra.
  - destruct (archimed (- x)) as [Hgt Hle].
    rewrite opp_IZR, minus_IZR. lra.
Qed.

Lemma clock_matrix (t : R) (s : Js.RandomSource) :
  matrixAt (AllGates.ClockPulseGate Tex Pass) t s
  = (Some (if Rlt_dec (Js.rem t 1) 0.5
           then MatrixOps.identity 2 else MatrixOps.PAULI_X), s).
Proof.
  unfold matrixAt, AllGates.ClockPulseGate.
  cbn [matrixOrFunc withStableDuration fromVaryingMatrix].
  unfold Js.bind, Js.ret, Js.ltb.
  now destruct (Rlt_dec (Js.rem t 1) 0.5).
Qed.

Lemma quarter_clock_matrix (t : R) (s : Js.RandomSource) :
  matrixAt (AllGates.QuarterPhaseClockPulseGate Tex Pass) t s
  = (Some (if Rlt_dec (Js.rem (Js.add t 0.75) 1) 0.5
           then MatrixOps.identity 2 else MatrixOps.PAULI_X), s).
Proof.
  unfold matrixAt, AllGates.QuarterPhaseClockPulseGate.
  cbn [matrixOrFunc withStableDuration fromVaryingMatrix].
  unfold Js.bind, Js.ret, Js.ltb.
  now destruct (Rlt_dec (Js.rem (Js.add t 0.75) 1) 0.5).
Qed.

(** The matrix of the clock pulse gate at a time [u] that is not negative,
    [n] being the number of whole periods before [u]. *)
Lemma clock_by_fraction (u : R) (n : Z) (s : Js.RandomSource) :
  0 <= u -> IZR n <= u < IZR n + 1 ->
  matrixAt (AllGates.ClockPulseGate Tex Pass) u s
  = (Some (if Rlt_dec (u - IZR n) (1 / 2)
           then MatrixOps.identity 2 else MatrixOps.PAULI_X), s).
Proof.
  intros Hu Hn. rewrite clock_matrix, (rem_fraction n Hn Hu).
  destruct (Rlt_dec (u - IZR n) 0.5), (Rlt_dec (u - IZR n) (1 / 2));
    (reflexivity || lra).
Qed.

Lemma clock_not_positive (u : R) (s : Js.RandomSource) :
  u <= 0 ->
  matrixAt (AllGates.ClockPulseGate Tex Pass) u s
  = (Some (MatrixOps.identity 2), s).
Proof.
  intros Hu. rewrite clock_matrix. pose proof (rem_not_positive Hu).
  destruct (Rlt_dec (Js.rem u 1) 0.5); [reflexivity | lra].
Qed.

Lemma quarter_is_shifted_clock (t : R) (s : Js.RandomSource) :
  matrixAt (AllGates.QuarterPhaseClockPulseGate Tex Pass) t s
  = matrixAt (AllGates.ClockPulseGate Tex Pass) (Js.add t 0.75) s.
Proof. now rewrite quarter_clock_matrix, clock_matrix. Qed.

(** C10.  At every time [t], and whatever the random source, the matrix of
    the quarter-phase clock pulse gate is the matrix of the clock pulse gate
    at the time [t + 0.75], the sum being the sum of the two doubles.  The
    phase fraction of the clock pulse gate at a time [u] is [u % 1]: at a
    time that is not negative, with [n] whole periods before it, the part
    [u - n] of the running period that has passed, and the matrix is the
    identity of side 2 when this part is below one half and Pauli X
    otherwise; at a time that is not positive the remainder is not positive
    either and the matrix is the identity.  The same holds of the
    quarter-phase gate with the sum [t + 0.75] in the place of [u]; the sum
    is not positive when the exact sum is not, and is away from the exact
    sum by 2^-53 of its magnitude at most. *)
Theorem quarter_phase_clock_is_shifted_clock (t : R) (s : Js.RandomSource) :
  let identity2 := [[ComplexOps.one; ComplexOps.zero];
                    [ComplexOps.zero; ComplexOps.one]] in
  let pauliX := [[ComplexOps.zero; ComplexOps.one];
                 [ComplexOps.one; ComplexOps.zero]] in
  matrixAt (AllGates.QuarterPhaseClockPulseGate Tex Pass) t s
    = matrixAt (AllGates.ClockPulseGate Tex Pass) (Js.add t 0.75) s /\
  (forall (u : R) (n : Z),
     0 <= u -> IZR n <= u < IZR n + 1 ->
     matrixAt (AllGates.ClockPulseGate Tex Pass) u s
     = (Some (if Rlt_dec (u - IZR n) (1 / 2) then identity2 else pauliX),
        s)) /\
  (forall u : R,
     u <= 0 ->
     matrixAt (AllGates.ClockPulseGate Tex Pass) u s = (Some identity2, s)) /\
  (forall n : Z,
     0 <= Js.add t 0.75 -> IZR n <= Js.add t 0.75 < IZR n + 1 ->
     matrixAt (AllGates.QuarterPhaseClockPulseGate Tex Pass) t s
     = (Some (if Rlt_dec (Js.add t 0.75 - IZR n) (1 / 2)
              then identity2 else pauliX), s)) /\
  (Js.add t 0.75 <= 0 ->
   matrixAt (AllGates.QuarterPhaseClockPulseGate Tex Pass) t s
   = (Some identity2, s)) /\
  (t + 0.75 <= 0 -> Js.add t 0.75 <= 0) /\
  (Js.pow2 (-1022) <= Rabs (t + 0.75) ->
   Rabs (Js.add t 0.75 - (t + 0.75))
   <= Rabs (t + 0.75) / 9007199254740992).
Proof.
  intros identity2 pauliX.
  change identity2 with (MatrixOps.identity 2).
  change pauliX with MatrixOps.PAULI_X.
  split; [apply quarter_is_shifted_clock |].
  split; [intros u n Hu Hn; now apply clock_by_fraction |].
  split; [intros u Hu; now apply clock_not_positive |].
  split; [| split; [| split]].
  - intros n Hu Hn. rewrite quarter_is_shifted_clock.
    now apply clock_by_fraction.
  - intros Hu. rewrite quarter_is_shifted_clock. now apply clock_not_positive.
  - apply round64_not_positive.
  - apply round64_relative_error.
Qed.

(** At time 0 the clock pulse gate is the identity and the quarter-phase
    gate is Pauli X; three quarters of a period later the clock pulse gate
    is Pauli X. *)
Example clock_at_0 (s : Js.RandomSource) :
  matrixAt (AllGates.ClockPulseGate Tex Pass) 0 s
  = (Some (MatrixOps.identity 2), s).
Proof. apply clock_not_positive. lra. Qed.

Example clock_at_three_quarters (s : Js.RandomSource) :
  matrixAt (AllGates.ClockPulseGate Tex Pass) 0.75 s
  = (Some MatrixOps.PAULI_X, s).
Proof.
  rewrite (@clock_by_fraction 0.75 0) by lra.
  destruct (Rlt_dec (0.75 - 0) (1 / 2)); [lra | reflexivity].
Qed.

Example quarter_phase_clock_at_0 (s : Js.RandomSource) :
  matrixAt (AllGates.QuarterPhaseClockPulseGate Tex Pass) 0 s
  = (Some MatrixOps.PAULI_X, s).
Proof.
  rewrite quarter_is_shifted_clock. unfold Js.add.
  replace (0 + 0.75) with 0.75 by lra. rewrite round64_three_quarters.
  apply clock_at_three_quarters.
Qed.

(** The sum is rounded.  The time 0.25 - 2^-55 lies in the first quarter of
    the first period, where the quarter-phase gate is Pauli X at the times
    whose sum with 0.75 is a double; but the sum of this time and 0.75 is
    rounded to 1, and the gate is the identity. *)
Example quarter_phase_clock_rounds_the_sum (s : Js.RandomSource) :
  0 <= 0.25 - / 36028797018963968 < 0.25 /\
  matrixAt (AllGates.QuarterPhaseClockPulseGate Tex Pass)
           (0.25 - / 36028797018963968) s
  = (Some (MatrixOps.identity 2), s).
Proof.
  split; [lra |].
  rewrite quarter_is_shifted_clock. unfold Js.add.
  rewrite round64_just_below_one.
  rewrite (@clock_by_fraction 1 1) by lra.
  destruct (Rlt_dec (1 - 1) (1 / 2)); [reflexivity | lra].
Qed.

(** Likewise at 0.75 - 2^-53, in the third quarter of the first period,
    where the gate is the identity at the times whose sum with 0.75 is a
    double: the sum is rounded to 1.5, and the gate is Pauli X. *)
Example quarter_phase_clock_rounds_a_tie (s : Js.RandomSource) :
  0.5 <= 0.75 - / 9007199254740992 < 0.75 /\
  matrixAt (AllGates.QuarterPhaseClockPulseGate Tex Pass)
           (0.75 - / 9007199254740992) s
  = (Some MatrixOps.PAULI_X, s).
Proof.
  split; [lra |].
  rewrite quarter_is_shifted_clock. unfold Js.add.
  rewrite round64_tie_below_three_halves.
  rewrite (@clock_by_fraction 1.5 1) by lra.
  destruct (Rlt_dec (1.5 - 1) (1 / 2)); [lra | reflexivity].
Qed.

End ClockFacts.

(** ** The table of gate sets *)

Section GateSetFacts.

Variables Tex Pass : Type.
Variable imp : Imports Tex Pass.

Local Open Scope string_scope.

(** The table does not depend on the draws but for the mystery gate of the
    set "Misc": the entry "Other Z" is the same for every random source. *)
Lemma other_z_entry (s : Js.RandomSource) :
  find (fun e => String.eqb (AllGates.hint e) "Other Z")
       (fst (AllGates.Sets imp s))
  = Some (AllGates.mkGateSet "Other Z"
            [Some (AllGates.Z16 imp); Some (AllGates.Z8 imp);
             Some (AllGates.Z3 imp); Some (AllGates.Z16 imp);
             Some (AllGates.Z8i imp); Some (AllGates.Z3i imp)]).
Proof. reflexivity. Qed.

Lemma symbol_differs (g h : Gate Tex Pass) : symbol g <> symbol h -> g <> h.
Proof. intros Hs Hg. apply Hs. now rewrite Hg. Qed.

(** C9.  In the entry "Other Z" of [Gates.Sets] the gate Z16 stands at the
    positions 0 and 3, and at no other; Z16i, a gate different from Z16 made
    from the rotation of -1/32 turn about Z ("Adjoint sixteenth root of Z."),
    stands at no position of the entry, and is a member of
    [Gates.KnownToSerializer]. *)
Theorem other_z_lists_z16_twice (s : Js.RandomSource) :
  exists entry,
    find (fun e => String.eqb (AllGates.hint e) "Other Z")
         (fst (AllGates.Sets imp s)) = Some entry /\
    (forall i, nth_error (AllGates.gates entry) i = Some (Some (AllGates.Z16 imp))
               <-> i = 0%nat \/ i = 3%nat) /\
    (forall i, nth_error (AllGates.gates entry) i
               <> Some (Some (AllGates.Z16i imp))) /\
    AllGates.Z16i imp <> AllGates.Z16 imp /\
    AllGates.Z16i imp =
      fromKnownMatrix "Z^-⅟₁₆"
        (Matrix_fromPauliRotation imp 0 0 (-1 / 32)) "Z^-⅟₁₆ Gate"
        "Adjoint sixteenth root of Z." /\
    In (AllGates.Z16i imp) (AllGates.KnownToSerializer imp).
Proof.
  eexists. split; [apply other_z_entry |].
  cbn [AllGates.gates].
  assert (Hne : forall g h : Gate Tex Pass,
            symbol g <> symbol h -> Some (Some g) <> Some (Some h)).
  { intros g h Hs Heq. injection Heq as Heq. now apply (symbol_differs Hs). }
  split; [| split; [| split; [| split]]].
  - intros i. split.
    + intros Hi.
      destruct i as [| [| [| [| [| [| i]]]]]]; cbn in Hi;
        try (left; reflexivity); try (right; reflexivity);
        try (exfalso; revert Hi; apply Hne; cbn; discriminate).
      destruct i; discriminate Hi.
    + intros [-> | ->]; reflexivity.
  - intros i Hi.
    destruct i as [| [| [| [| [| [| i]]]]]]; cbn in Hi;
      try (revert Hi; apply Hne; cbn; discriminate).
    destruct i; discriminate Hi.
  - apply symbol_differs. cbn. discriminate.
  - reflexivity.
  - unfold AllGates.KnownToSerializer.
    repeat first
      [ apply in_or_app; left;
        solve [cbn [In]; repeat first [left; reflexivity | right]]
      | apply in_or_app; right ].
Qed.

End GateSetFacts.

(** ** Textures *)

Section TextureFacts.

Import Wgl WglTexture.

Ltac run_gl :=
  cbv beta iota zeta delta
    [textureAndFramebufferInitializer andThen createTexture createFramebuffer
     call logged getError checkFramebufferStatus checkGetErrorResult
     checkFrameBufferStatusResult pure throw
     getErrorAnswers getErrorCalls statusAnswers statusCalls
     texturesCreated framebuffersCreated log texture framebuffer].

(** When the driver reports no error and a complete framebuffer, the
    initializer returns the pair it created. *)
Lemma initializer_succeeds (this : WglTexture) (g : Gl) :
  getErrorAnswers g (getErrorCalls g) = NO_ERROR ->
  getErrorAnswers g (S (getErrorCalls g)) = NO_ERROR ->
  statusAnswers g (statusCalls g) = FRAMEBUFFER_COMPLETE ->
  textureAndFramebufferInitializer this g =
  (Js.Returned
     (mkTextureAndFramebuffer (texturesCreated g) (framebuffersCreated g)),
   mkGl (getErrorAnswers g) (S (S (getErrorCalls g)))
        (statusAnswers g) (S (statusCalls g))
        (S (texturesCreated g)) (S (framebuffersCreated g))
        (initializationCalls (width this) (height this) (pixelType this)
           (texturesCreated g) (framebuffersCreated g) ++ log g)).
Proof.
  destruct g as [errs nerr stats nstat ntex nfb calls].
  cbn [getErrorAnswers getErrorCalls statusAnswers statusCalls
       texturesCreated framebuffersCreated log].
  intros He1 He2 Hst. run_gl.
  rewrite He1. change (NO_ERROR =? NO_ERROR) with true. run_gl.
  rewrite He2. change (NO_ERROR =? NO_ERROR) with true. run_gl.
  rewrite Hst.
  change (FRAMEBUFFER_COMPLETE =? FRAMEBUFFER_COMPLETE) with true. run_gl.
  reflexivity.
Qed.



(** The completion of [instanceFor] on a texture just constructed. *)
Lemma instanceFor_new (w h : Z) (p : option Z) (ctx : WglContext) :
  instanceFor (new w h p) ctx =
  match textureAndFramebufferInitializer (new w h p) (gl ctx) with
  | (Js.Returned v, g') =>
      (Js.Returned v,
       mkWglTexture w h (pixelType (new w h p))
                    (mkSlot [(identity ctx, (lifetimeCounter ctx, v))]),
       mkWglContext (identity ctx) (lifetimeCounter ctx) g')
  | (Js.Thrown e, g') =>
      (Js.Thrown e, new w h p,
       mkWglContext (identity ctx) (lifetimeCounter ctx) g')
  end.
Proof. reflexivity. Qed.





(** On the healthy context the first instance of a texture of 4 by 2 floats
    is the pair of names (0, 0), made by the fifteen calls of the
    initializer; on the exhausted context the first check throws. *)
Example healthy_first_instance :
  match instanceFor (new 4 2 None) healthyContext with
  | (r, this', ctx') =>
      r = Js.Returned (mkTextureAndFramebuffer 0%nat 0%nat) /\
      mortalValues (_textureAndFrameBufferSlot this')
        = [(0%nat, (0, mkTextureAndFramebuffer 0%nat 0%nat))] /\
      log (gl ctx') = initializationCalls 4 2 FLOAT 0%nat 0%nat /\
      texturesCreated (gl ctx') = 1%nat
  end.
Proof. cbv. repeat split. Qed.

Example exhausted_first_instance :
  match instanceFor (new 4 2 None) exhaustedContext with
  | (r, this', ctx') =>
      r = Js.Thrown (mkWglFault "texImage2D" OUT_OF_MEMORY) /\
      this' = new 4 2 None /\
      texturesCreated (gl ctx') = 1%nat /\
      List.length (log (gl ctx')) = 10%nat
  end.
Proof. cbv. repeat split. Qed.

(** After the context was lost and restored the pair is made again, once,
    on the next access. *)
Lemma texture_reinitialized_after_loss (this : WglTexture)
    (ctx : WglContext) (pair : TextureAndFramebuffer) (fresh : Gl) :
  cachedFor (identity ctx) (mortalValues (_textureAndFrameBufferSlot this))
    = Some (lifetimeCounter ctx, pair) ->
  getErrorAnswers fresh (getErrorCalls fresh) = NO_ERROR ->
  getErrorAnswers fresh (S (getErrorCalls fresh)) = NO_ERROR ->
  statusAnswers fresh (statusCalls fresh) = FRAMEBUFFER_COMPLETE ->
  exists this' ctx',
    instanceFor this (restored ctx fresh)
      = (Js.Returned (mkTextureAndFramebuffer (texturesCreated fresh)
                                              (framebuffersCreated fresh)),
         this', ctx') /\
    texturesCreated (gl ctx') = S (texturesCreated fresh) /\
    cachedFor (identity ctx) (mortalValues (_textureAndFrameBufferSlot this'))
      = Some (lifetimeCounter ctx + 1,
              mkTextureAndFramebuffer (texturesCreated fresh)
                                      (framebuffersCreated fresh)).
Proof.
  intros Hslot He1 He2 Hst. unfold instanceFor, initializedValue.
  cbn [restored identity lifetimeCounter gl]. rewrite Hslot.
  destruct (Z.eqb_spec (lifetimeCounter ctx) (lifetimeCounter ctx + 1));
    [lia |].
  rewrite (initializer_succeeds this fresh He1 He2 Hst).
  eexists. eexists. split; [reflexivity |]. split; [reflexivity |].
  cbn [_textureAndFrameBufferSlot mortalValues cacheFor cachedFor].
  now rewrite Nat.eqb_refl.
Qed.





End TextureFacts.





(* ================================================================== *)
(** * Further properties of the code *)
(* ================================================================== *)

(** ** 32-bit integer operations *)

Section Int32Facts.

Lemma toInt32_small (x : Z) :
  - 2 ^ 31 <= x < 2 ^ 31 -> Js.toInt32 x = x.
Proof.
  intros Hx. unfold Js.toInt32.
  change (2 ^ 31) with 2147483648 in *. change (2 ^ 32) with 4294967296.
  rewrite Z.mod_small; lia.
Qed.

Lemma pow2_le_30 (n : Z) : 0 <= n <= 30 -> 0 < 2 ^ n <= 2 ^ 30.
Proof.
  intros Hn. split.
  - apply Z.pow_pos_nonneg; lia.
  - apply Z.pow_le_mono_r; lia.
Qed.

(** [1 << n] is 2^n as long as the result fits in the positive 32-bit
    integers. *)
Lemma shl_one (n : Z) : 0 <= n <= 30 -> Js.shl 1 n = 2 ^ n.
Proof.
  intros Hn. unfold Js.shl.
  rewrite (@toInt32_small 1) by (change (2 ^ 31) with 2147483648; lia).
  rewrite Z.mod_small by lia. rewrite Z.shiftl_1_l.
  apply toInt32_small. pose proof (pow2_le_30 Hn) as Hp.
  change (2 ^ 31) with 2147483648. change (2 ^ 30) with 1073741824 in Hp. lia.
Qed.

(** Above its size a non-negative integer has no bit. *)
Lemma testbit_above (x n i : Z) :
  0 <= x < 2 ^ n -> n <= i -> Z.testbit x i = false.
Proof.
  intros Hx Hi.
  destruct (Z.eq_dec x 0) as [-> | Hne]; [apply Z.bits_0 |].
  apply Z.bits_above_log2; [lia |].
  assert (Z.log2 x < n); [| lia].
  apply Z.log2_lt_pow2; lia.
Qed.

Lemma below_pow2_of_bits (x n : Z) :
  0 <= n -> 0 <= x ->
  (forall i, n <= i -> Z.testbit x i = false) -> x < 2 ^ n.
Proof.
  intros Hn Hx Hbits.
  destruct (Z.eq_dec x 0) as [-> | Hne]; [apply Z.pow_pos_nonneg; lia |].
  apply Z.log2_lt_pow2; [lia |].
  destruct (Z_lt_le_dec (Z.log2 x) n) as [Hlt | Hge]; [exact Hlt |].
  pose proof (Z.bit_log2 x ltac:(lia)) as Hb.
  rewrite (Hbits _ Hge) in Hb. discriminate Hb.
Qed.

End Int32Facts.

(** ** Integers given by their bits *)

Section BitFacts.

Lemma setbits_nonneg (f : Z -> bool) (l : list Z) :
  0 <= fold_right (fun i acc => if f i then Z.setbit acc i else acc) 0 l.
Proof.
  induction l as [| i l IH]; cbn [fold_right]; [lia |].
  destruct (f i); [| exact IH].
  rewrite Z.setbit_spec'. apply Z.lor_nonneg. split; [exact IH |].
  apply Z.pow_nonneg. lia.
Qed.

Lemma setbits_testbit (f : Z -> bool) (l : list Z) (n : Z) :
  0 <= n -> Forall (fun i => 0 <= i) l ->
  Z.testbit (fold_right (fun i acc => if f i then Z.setbit acc i else acc) 0 l) n
  = existsb (fun i => f i && Z.eqb i n) l.
Proof.
  intros Hn Hl. induction Hl as [| i l Hi Hl IH]; cbn [fold_right existsb].
  - apply Z.bits_0.
  - destruct (f i); cbn [andb].
    + rewrite Z.setbit_eqb by exact Hi. now rewrite IH.
    + exact IH.
Qed.

Lemma range_nonneg (n : Z) : Forall (fun i => 0 <= i) (Js.range n).
Proof. apply Forall_forall. intros i Hi. apply range_In in Hi. lia. Qed.

Lemma fromBits_testbit (n : Z) (f : Z -> bool) (i : Z) :
  0 <= i -> Z.testbit (fromBits n f) i = (i <? n) && f i.
Proof.
  intros Hi. unfold fromBits.
  rewrite (setbits_testbit f Hi (range_nonneg n)).
  destruct (Z.ltb_spec i n) as [Hlt | Hge]; cbn [andb].
  - destruct (f i) eqn:Hf.
    + apply existsb_exists. exists i. split.
      * apply range_In. lia.
      * now rewrite Hf, Z.eqb_refl.
    + apply Bool.not_true_is_false. intros Hex.
      apply existsb_exists in Hex. destruct Hex as (j & _ & Hj).
      apply andb_prop in Hj. destruct Hj as [Hfj Hji].
      apply Z.eqb_eq in Hji. subst j. congruence.
  - apply Bool.not_true_is_false. intros Hex.
    apply existsb_exists in Hex. destruct Hex as (j & Hin & Hj).
    apply andb_prop in Hj. destruct Hj as [_ Hji].
    apply Z.eqb_eq in Hji. subst j. apply range_In in Hin. lia.
Qed.

Lemma fromBits_range (n : Z) (f : Z -> bool) :
  0 <= n -> 0 <= fromBits n f < 2 ^ n.
Proof.
  intros Hn. split; [apply setbits_nonneg |].
  apply below_pow2_of_bits; [exact Hn | apply setbits_nonneg |].
  intros i Hi. rewrite fromBits_testbit by lia.
  destruct (Z.ltb_spec i n); [lia | reflexivity].
Qed.

(** Two integers below 2^n with the same first n bits are equal. *)
Lemma eq_of_low_bits (n x y : Z) :
  0 <= x < 2 ^ n -> 0 <= y < 2 ^ n ->
  (forall i, 0 <= i < n -> Z.testbit x i = Z.testbit y i) -> x = y.
Proof.
  intros Hx Hy Hbits. apply Z.bits_inj'. intros i Hi.
  destruct (Z_lt_le_dec i n) as [Hlt | Hge].
  - apply Hbits. lia.
  - now rewrite (testbit_above Hx Hge), (testbit_above Hy Hge).
Qed.

End BitFacts.

(** ** The rotation of the bit-cycle gates, at every span *)

Section RotationFacts.

Lemma rotateLeft_testbit (span c i : Z) :
  0 <= i ->
  Z.testbit (rotateLeft span c) i
  = (i <? span) && Z.testbit c ((i - 1) mod span).
Proof.
  intros Hi.
  change (rotateLeft span c)
    with (fromBits span (fun i => Z.testbit c ((i - 1) mod span))).
  rewrite fromBits_testbit by exact Hi. reflexivity.
Qed.

Lemma rotateLeft_range (span c : Z) :
  0 <= span -> 0 <= rotateLeft span c < 2 ^ span.
Proof.
  intros Hspan.
  change (rotateLeft span c)
    with (fromBits span (fun i => Z.testbit c ((i - 1) mod span))).
  now apply fromBits_range.
Qed.

Lemma rotateLeft_injective (span c c' : Z) :
  1 <= span ->
  0 <= c < 2 ^ span -> 0 <= c' < 2 ^ span ->
  rotateLeft span c = rotateLeft span c' -> c = c'.
Proof.
  intros Hspan Hc Hc' Heq. apply (eq_of_low_bits Hc Hc'). intros j Hj.
  assert (Hi : 0 <= (j + 1) mod span < span) by (apply Z.mod_pos_bound; lia).
  pose proof (rotateLeft_testbit span c (proj1 Hi)) as H1.
  pose proof (rotateLeft_testbit span c' (proj1 Hi)) as H2.
  rewrite Heq in H1. rewrite H1 in H2.
  destruct (Z.ltb_spec ((j + 1) mod span) span); [| lia].
  cbn [andb] in H2.
  replace (((j + 1) mod span - 1) mod span) with j in H2; [exact H2 |].
  rewrite Zminus_mod_idemp_l. replace (j + 1 - 1) with j by lia.
  symmetry. apply Z.mod_small. lia.
Qed.

Lemma rotateRight_range (span r : Z) :
  0 <= span -> 0 <= rotateRight span r < 2 ^ span.
Proof. intros Hspan. now apply fromBits_range. Qed.

(** Rotating right and then left gives the integer back. *)
Lemma rotateLeft_rotateRight (span r : Z) :
  1 <= span -> 0 <= r < 2 ^ span ->
  rotateLeft span (rotateRight span r) = r.
Proof.
  intros Hspan Hr.
  apply (eq_of_low_bits (n := span)); [apply rotateLeft_range; lia | exact Hr |].
  intros i Hi. rewrite rotateLeft_testbit by lia.
  destruct (Z.ltb_spec i span); [| lia]. cbn [andb].
  assert (Hj : 0 <= (i - 1) mod span < span) by (apply Z.mod_pos_bound; lia).
  unfold rotateRight. rewrite fromBits_testbit by lia.
  destruct (Z.ltb_spec ((i - 1) mod span) span); [| lia]. cbn [andb].
  f_equal. rewrite Zplus_mod_idemp_l. replace (i - 1 + 1) with i by lia.
  apply Z.mod_small. lia.
Qed.

(** And rotating left and then right. *)
Lemma rotateRight_rotateLeft (span c : Z) :
  1 <= span -> 0 <= c < 2 ^ span ->
  rotateRight span (rotateLeft span c) = c.
Proof.
  intros Hspan Hc.
  apply (rotateLeft_injective Hspan);
    [apply rotateRight_range; lia | exact Hc |].
  apply rotateLeft_rotateRight; [exact Hspan | apply rotateLeft_range; lia].
Qed.

(** The value that the generator of the bit-cycle matrix compares the row
    with is the column rotated left. *)
Lemma cycleBit_is_rotation (span r c : Z) :
  1 <= span <= 30 -> 0 <= c < 2 ^ span ->
  cycleBit span r c = Z.eqb r (rotateLeft span c).
Proof.
  intros Hspan Hc. unfold cycleBit. cbv zeta. f_equal.
  pose proof (pow2_le_30 (n := span) ltac:(lia)) as Hp.
  change (2 ^ 30) with 1073741824 in Hp.
  assert (Hshl : Js.shl c 1 = Z.shiftl c 1).
  { unfold Js.shl. rewrite (@toInt32_small c)
      by (change (2 ^ 31) with 2147483648; lia).
    change (1 mod 32) with 1. apply toInt32_small.
    rewrite Z.shiftl_mul_pow2 by lia.
    change (2 ^ 31) with 2147483648. change (2 ^ 1) with 2. lia. }
  assert (Hx : 0 <= Z.shiftl c 1 < 2147483648).
  { rewrite Z.shiftl_mul_pow2 by lia. change (2 ^ 1) with 2. lia. }
  rewrite Hshl, shl_one by lia.
  assert (Hlow : 0 <= Z.land (Z.shiftl c 1) (Z.ones span) < 2 ^ span).
  { rewrite Z.land_ones by lia. apply Z.mod_pos_bound. lia. }
  assert (Hhigh : 0 <= Z.shiftr (Z.shiftl c 1) span < 2).
  { rewrite Z.shiftr_div_pow2 by lia. split.
    - apply Z.div_pos; lia.
    - apply Z.div_lt_upper_bound; [lia |].
      rewrite Z.shiftl_mul_pow2 by lia. change (2 ^ 1) with 2. lia. }
  unfold Js.bor, Js.band, Js.sar.
  rewrite (@toInt32_small (Z.shiftl c 1))
    by (change (2 ^ 31) with 2147483648; lia).
  rewrite (@toInt32_small (2 ^ span - 1))
    by (change (2 ^ 31) with 2147483648; lia).
  rewrite (Z.mod_small span 32) by lia.
  replace (2 ^ span - 1) with (Z.ones span)
    by (rewrite Z.ones_equiv; lia).
  rewrite (@toInt32_small (Z.land (Z.shiftl c 1) (Z.ones span)))
    by (change (2 ^ 31) with 2147483648; lia).
  rewrite (@toInt32_small (Z.shiftr (Z.shiftl c 1) span))
    by (change (2 ^ 31) with 2147483648; lia).
  apply (eq_of_low_bits (n := span)).
  - split; [apply Z.lor_nonneg; lia |].
    apply below_pow2_of_bits; [lia | apply Z.lor_nonneg; lia |].
    intros i Hi. rewrite Z.lor_spec.
    rewrite (testbit_above Hlow Hi). cbn [orb].
    apply (testbit_above (x := Z.shiftr (Z.shiftl c 1) span) (n := 1));
      [change (2 ^ 1) with 2; lia |].
    lia.
  - apply rotateLeft_range. lia.
  - intros i Hi. rewrite rotateLeft_testbit by lia.
    destruct (Z.ltb_spec i span); [| lia]. cbn [andb].
    rewrite Z.lor_spec, Z.land_spec, Z.testbit_ones_nonneg by lia.
    destruct (Z.ltb_spec i span); [| lia].
    rewrite Bool.andb_true_r.
    rewrite Z.shiftr_spec, !Z.shiftl_spec by lia.
    destruct (Z.eq_dec i 0) as [-> | Hne].
    + rewrite Z.testbit_neg_r by lia. cbn [orb].
      f_equal. replace (0 + span - 1) with (span - 1) by lia.
      replace (0 - 1) with (- 1) by lia.
      symmetry. replace (-1) with (span - 1 + (-1) * span) by lia.
      rewrite Z.mod_add by lia. apply Z.mod_small. lia.
    + rewrite (testbit_above (i := i + span - 1) Hc) by lia.
      rewrite Bool.orb_false_r. f_equal.
      symmetry. apply Z.mod_small. lia.
Qed.

End RotationFacts.

(** ** The bit-cycle matrices, at every span *)

Section IndicatorRows.

(** A row that holds 1 at one column and 0 elsewhere picks one amplitude. *)
Lemma dot_zero_row (P : Z -> bool) (l : list Z) (v : list Complex) :
  (forall c, In c l -> P c = false) ->
  MatrixOps.dot
    (map (fun c => if P c then ComplexOps.from 1 else ComplexOps.from 0) l) v
  = ComplexOps.zero.
Proof.
  revert v. induction l as [| c l IH]; intros v Hall; [reflexivity |].
  destruct v as [| x v]; [reflexivity |].
  cbn [map MatrixOps.dot]. rewrite (Hall c) by now left.
  rewrite times_zero_l, plus_zero_l. apply IH.
  intros c' Hc'. apply Hall. now right.
Qed.

Lemma dot_indicator_row (P : Z -> bool) (l : list Z) (v : list Complex)
    (k : nat) (c0 : Z) :
  nth_error l k = Some c0 ->
  (forall c, In c l -> P c = Z.eqb c c0) ->
  NoDup l -> List.length v = List.length l ->
  MatrixOps.dot
    (map (fun c => if P c then ComplexOps.from 1 else ComplexOps.from 0) l) v
  = nth k v ComplexOps.zero.
Proof.
  revert v k. induction l as [| c l IH]; intros v k Hk HP Hnd Hlen.
  - destruct k; discriminate Hk.
  - destruct v as [| x v]; [discriminate Hlen |].
    inversion Hnd as [| ? ? Hnotin Hnd']; subst.
    cbn [map MatrixOps.dot]. destruct k as [| k].
    + injection Hk as ->. rewrite (HP c0) by now left.
      rewrite Z.eqb_refl, times_one_l.
      rewrite (dot_zero_row P l v); [apply plus_zero_r |].
      intros c Hc. rewrite (HP c) by now right.
      apply Z.eqb_neq. intros ->. contradiction.
    + cbn [nth_error] in Hk. rewrite (HP c) by now left.
      assert (Hne : c <> c0).
      { intros ->. apply Hnotin. eapply nth_error_In. exact Hk. }
      apply Z.eqb_neq in Hne. rewrite Hne, times_zero_l, plus_zero_l.
      cbn [nth]. apply IH; try assumption.
      * intros c' Hc'. apply HP. now right.
      * cbn in Hlen. lia.
Qed.

Lemma range_NoDup (n : Z) : NoDup (Js.range n).
Proof.
  unfold Js.range. apply NoDup_map_NoDup_ForallPairs.
  - intros a b _ _. apply Nat2Z.inj.
  - apply seq_NoDup.
Qed.

Lemma map_nth_seq (v : list Complex) :
  map (fun i => nth i v ComplexOps.zero) (seq 0 (List.length v)) = v.
Proof.
  induction v as [| x v IH]; [reflexivity |].
  cbn [List.length seq map nth]. f_equal.
  rewrite <- seq_shift, map_map. exact IH.
Qed.

End IndicatorRows.

Section CycleBitsEverySpan.

(** Applying the bit-cycle matrix of any span puts at address [r] the
    amplitude that was at [r] rotated right. *)
Lemma cycle_matrix_apply (span : Z) (state : list Complex) :
  1 <= span <= 30 ->
  List.length state = Z.to_nat (2 ^ span) ->
  MatrixOps.apply (AllGates.CYCLE_BITS_MATRIX_MAKER span) state
  = map (fun r => nth (Z.to_nat (rotateRight span r)) state ComplexOps.zero)
        (Js.range (2 ^ span)).
Proof.
  intros Hspan Hlen.
  rewrite cycle_matrix_by_bits, shl_one by lia.
  unfold MatrixOps.apply, MatrixOps.generate. rewrite map_map.
  apply map_ext_in. intros r Hr. apply range_In in Hr.
  pose proof (@rotateRight_range span r ltac:(lia)) as Hpre.
  apply dot_indicator_row with (c0 := rotateRight span r).
  - now apply range_nth_error.
  - intros c Hc. apply range_In in Hc.
    rewrite cycleBit_is_rotation by assumption.
    destruct (Z.eqb_spec c (rotateRight span r)) as [-> | Hne].
    + rewrite rotateLeft_rotateRight by lia. apply Z.eqb_refl.
    + apply Z.eqb_neq. intros ->. apply Hne.
      symmetry. apply rotateRight_rotateLeft; lia.
  - apply range_NoDup.
  - now rewrite range_length.
Qed.

Lemma rotateRight_addresses (span : Z) :
  1 <= span ->
  Permutation (map (fun r => Z.to_nat (rotateRight span r))
                   (Js.range (2 ^ span)))
              (seq 0 (Z.to_nat (2 ^ span))).
Proof.
  intros Hspan. apply NoDup_Permutation_bis.
  - apply NoDup_map_NoDup_ForallPairs; [| apply range_NoDup].
    intros r r' Hr Hr' Heq. apply range_In in Hr, Hr'.
    pose proof (@rotateRight_range span r ltac:(lia)).
    pose proof (@rotateRight_range span r' ltac:(lia)).
    assert (Heq' : rotateRight span r = rotateRight span r') by lia.
    rewrite <- (rotateLeft_rotateRight (span := span) (r := r)) by lia.
    rewrite Heq'. apply rotateLeft_rotateRight; lia.
  - now rewrite length_map, range_length, length_seq.
  - intros k Hk. apply in_map_iff in Hk. destruct Hk as (r & <- & Hr).
    pose proof (@rotateRight_range span r ltac:(lia)).
    apply in_seq. lia.
Qed.

(** X1.  For every span from 1 to 30, so for every span of the bit-cycle
    family, [CYCLE_BITS_MATRIX_MAKER span] is a square matrix of side 2^span
    whose entry at row r and column c is 1 when r is c rotated left by one
    bit within span bits, and 0 otherwise.  The rotation maps the addresses
    below 2^span to themselves, one to one and onto: each column and each row
    holds exactly one 1. *)
Theorem cycle_bits_matrix_every_span (span : Z) :
  1 <= span <= 30 ->
  let M := AllGates.CYCLE_BITS_MATRIX_MAKER span in
  List.length M = Z.to_nat (2 ^ span) /\
  Forall (fun row => List.length row = Z.to_nat (2 ^ span)) M /\
  (forall r c,
     0 <= r < 2 ^ span -> 0 <= c < 2 ^ span ->
     MatrixOps.cell M (Z.to_nat r) (Z.to_nat c) =
       if Z.eqb r (rotateLeft span c)
       then ComplexOps.one else ComplexOps.zero) /\
  (forall c, 0 <= c < 2 ^ span -> 0 <= rotateLeft span c < 2 ^ span) /\
  (forall r,
     0 <= r < 2 ^ span ->
     exists c,
       (0 <= c < 2 ^ span /\ rotateLeft span c = r) /\
       forall c', 0 <= c' < 2 ^ span -> rotateLeft span c' = r -> c' = c).
Proof.
  intros Hspan M. subst M.
  assert (Hside : Js.shl 1 span = 2 ^ span) by (apply shl_one; lia).
  split; [| split; [| split; [| split]]].
  - rewrite cycle_matrix_by_bits, generate_length. now rewrite Hside.
  - rewrite cycle_matrix_by_bits, <- Hside. apply generate_rows.
  - intros r c Hr Hc.
    rewrite cycle_matrix_by_bits, generate_cell by (rewrite Hside; assumption).
    now rewrite cycleBit_is_rotation.
  - intros c _. apply rotateLeft_range. lia.
  - intros r Hr. exists (rotateRight span r). split.
    + split; [apply rotateRight_range; lia |].
      apply rotateLeft_rotateRight; [lia | exact Hr].
    + intros c' Hc' Hrot. subst r. symmetry.
      apply rotateRight_rotateLeft; [lia | exact Hc'].
Qed.

(** X2.  For every span from 1 to 30, applying
    [CYCLE_BITS_MATRIX_MAKER span] to a state of 2^span amplitudes yields a
    rearrangement of the same amplitudes: the amplitude at address r of the
    result is the one that was at r rotated right. *)
Theorem cycle_bits_matrix_permutes_every_span (span : Z)
    (state : list Complex) :
  1 <= span <= 30 ->
  List.length state = Z.to_nat (2 ^ span) ->
  Permutation
    (MatrixOps.apply (AllGates.CYCLE_BITS_MATRIX_MAKER span) state) state /\
  forall r,
    0 <= r < 2 ^ span ->
    nth (Z.to_nat r)
        (MatrixOps.apply (AllGates.CYCLE_BITS_MATRIX_MAKER span) state)
        ComplexOps.zero
    = nth (Z.to_nat (rotateRight span r)) state ComplexOps.zero.
Proof.
  intros Hspan Hlen. rewrite cycle_matrix_apply by assumption. split.
  - assert (Hst : map (fun i => nth i state ComplexOps.zero)
                      (seq 0 (Z.to_nat (2 ^ span))) = state)
      by (rewrite <- Hlen; apply map_nth_seq).
    pose proof (Permutation_map (fun i => nth i state ComplexOps.zero)
                  (@rotateRight_addresses span ltac:(lia))) as Hperm.
    rewrite map_map, Hst in Hperm. exact Hperm.
  - intros r Hr.
    apply nth_error_nth. now rewrite nth_error_map, range_nth_error.
Qed.

End CycleBitsEverySpan.

Lemma cycle_bits_matrix_every_span_witness :
  1 <= 16 <= 30 /\
  MatrixOps.cell (AllGates.CYCLE_BITS_MATRIX_MAKER 16)
                 (Z.to_nat 1) (Z.to_nat 32768) = ComplexOps.one.
Proof.
  split; [lia |].
  destruct (@cycle_bits_matrix_every_span 16 ltac:(lia))
    as (_ & _ & Hcell & _).
  apply (Hcell 1 32768); lia.
Defined.

Lemma cycle_bits_matrix_permutes_every_span_witness :
  1 <= 2 <= 30 /\
  Permutation
    (MatrixOps.apply (AllGates.CYCLE_BITS_MATRIX_MAKER 2)
       (map (fun k => ComplexOps.from (IZR k)) [0; 1; 2; 3]))
    (map (fun k => ComplexOps.from (IZR k)) [0; 1; 2; 3]).
Proof.
  split; [lia |].
  apply (@cycle_bits_matrix_permutes_every_span 2
           (map (fun k => ComplexOps.from (IZR k)) [0; 1; 2; 3])
           ltac:(lia) eq_refl).
Defined.

(** ** The Fourier transform matrices *)

Section FourierMatrixFacts.

Local Open Scope R_scope.

Lemma polar_norm2 (m phase : R) :
  ComplexOps.norm2 (ComplexOps.polar m phase) = m * m.
Proof.
  unfold ComplexOps.norm2, ComplexOps.polar. cbn [real imag].
  pose proof (sin2_cos2 phase) as H. unfold Rsqr in H.
  transitivity (m * m * (sin phase * sin phase + cos phase * cos phase));
    [ring | rewrite H; ring].
Qed.

(** The square of 0.5^(span/2) is (1/2)^span. *)
Lemma pow_half_span_sqr (span : Z) :
  (0 <= span)%Z ->
  Js.pow 0.5 (IZR span / 2) * Js.pow 0.5 (IZR span / 2)
  = (1 / 2) ^ Z.to_nat span.
Proof.
  intros Hspan. unfold Js.pow.
  rewrite <- Rpower_plus.
  replace (IZR span / 2 + IZR span / 2) with (INR (Z.to_nat span)).
  - replace 0.5 with (1 / 2) by lra. apply Rpower_pow. lra.
  - rewrite INR_IZR_INZ, Z2Nat.id by exact Hspan. field.
Qed.

Lemma totalNorm2_constant (k : R) (v : list Complex) :
  Forall (fun a => ComplexOps.norm2 a = k) v ->
  totalNorm2 v = INR (List.length v) * k.
Proof.
  intros Hall. induction Hall as [| a v Ha Hall IH].
  - cbn. ring.
  - cbn [totalNorm2 fold_right]. fold (totalNorm2 v).
    rewrite IH, Ha. rewrite length_cons, S_INR. ring.
Qed.

Lemma side_times_entry (span : Z) :
  (0 <= span)%Z ->
  INR (Z.to_nat (2 ^ span)) * (1 / 2) ^ Z.to_nat span = 1.
Proof.
  intros Hspan.
  rewrite INR_IZR_INZ, Z2Nat.id by (apply Z.pow_nonneg; lia).
  rewrite <- (Z2Nat.id span) at 1 by exact Hspan.
  rewrite <- pow_IZR, <- Rpow_mult_distr.
  replace (2 * (1 / 2)) with 1 by lra. apply pow1.
Qed.

Lemma Forall2_Forall_l (A B : Type) (R : A -> B -> Prop) (P : B -> Prop)
    (Q : A -> Prop) (l' : list A) (l : list B) :
  (forall a b, R a b -> P b -> Q a) ->
  Forall2 R l' l -> Forall P l -> Forall Q l'.
Proof.
  intros Hstep Hrel. induction Hrel as [| a b l' l Hab _ IH];
    intros Hall; constructor.
  - apply (Hstep a b Hab). now inversion Hall.
  - apply IH. now inversion Hall.
Qed.

(** An entry of squared magnitude [q = m * m] moved by [delta * m] at most
    has a squared magnitude within [3 * delta * q] of [q]. *)
Lemma entry_norm_stable (m q delta : R) (e e' : Complex) :
  0 <= m -> m * m = q -> 0 <= delta <= 1 ->
  ComplexOps.norm2 e = q ->
  ComplexOps.dist2 e' e <= delta * m * (delta * m) ->
  - (3 * delta * q) <= ComplexOps.norm2 e' - q <= 3 * delta * q.
Proof.
  unfold ComplexOps.norm2, ComplexOps.dist2.
  intros Hm Hq Hdelta He Hd.
  set (x1 := real e) in *. set (x2 := imag e) in *.
  set (dr := real e' - x1) in *. set (di := imag e' - x2) in *.
  replace (real e') with (x1 + dr) by (unfold dr; ring).
  replace (imag e') with (x2 + di) by (unfold di; ring).
  set (c := x1 * dr + x2 * di).
  set (D := dr * dr + di * di) in *.
  assert (HD : 0 <= D) by (unfold D; nra).
  assert (Hq0 : 0 <= q) by (rewrite <- Hq; nra).
  assert (HDq : D <= delta * delta * q) by (rewrite <- Hq; lra).
  assert (Hcs : c * c <= q * D).
  { pose proof (Rle_0_sqr (x1 * di - x2 * dr)) as Hsq. unfold Rsqr in Hsq.
    rewrite <- He. unfold c, D. nra. }
  assert (Hqd : q * D <= delta * q * (delta * q)).
  { replace (delta * q * (delta * q)) with (q * (delta * delta * q)) by ring.
    now apply Rmult_le_compat_l. }
  assert (Hdq : 0 <= delta * q) by (apply Rmult_le_pos; lra).
  assert (Hc : - (delta * q) <= c <= delta * q).
  { split.
    - destruct (Rle_dec (- (delta * q)) c) as [H | H]; [exact H |].
      exfalso. nra.
    - destruct (Rle_dec c (delta * q)) as [H | H]; [exact H |].
      exfalso. nra. }
  assert (Hdd : delta * delta * q <= delta * q).
  { replace (delta * delta * q) with (delta * (delta * q)) by ring.
    rewrite <- (Rmult_1_l (delta * q)) at 2.
    apply Rmult_le_compat_r; lra. }
  replace ((x1 + dr) * (x1 + dr) + (x2 + di) * (x2 + di) - q)
    with (2 * c + D) by (unfold c, D; rewrite <- He; ring).
  split; lra.
Qed.

(** The squared magnitudes of a row whose entries have squared magnitudes
    within [k] of [q]. *)
Lemma row_sum_stable (q k : R) (row : list Complex) :
  Forall (fun e => - k <= ComplexOps.norm2 e - q <= k) row ->
  - (INR (List.length row) * k)
  <= totalNorm2 row - INR (List.length row) * q
  <= INR (List.length row) * k.
Proof.
  intros Hall. induction Hall as [| e row He _ IH].
  - cbn. lra.
  - cbn [totalNorm2 fold_right]. fold (totalNorm2 row).
    rewrite length_cons, S_INR. lra.
Qed.

(** X3.  For every span from 0 to 30, so for the spans 1, 2 and 3 at which
    the Fourier transform gate holds it, [FOURIER_TRANSFORM_MATRIX_MAKER
    span] is a square matrix of side 2^span whose entries all have the
    magnitude 0.5^(span/2), so that the squared magnitudes of each row add
    up to 1, within rounding: a matrix that holds, for each entry, a number
    within [delta] times this magnitude of it has the same shape, entries
    of squared magnitude (1/2)^span within the factors [1 - 3 delta] and
    [1 + 3 delta], and rows whose squared magnitudes add up to 1 within
    [3 delta]. *)
Theorem fourier_matrix_is_normalised (span : Z) (delta : R) (M' : Matrix) :
  (0 <= span <= 30)%Z -> 0 <= delta <= 1 ->
  let M := AllGates.FOURIER_TRANSFORM_MATRIX_MAKER span in
  matrixWithinTolerance (delta * Js.pow 0.5 (IZR span / 2)) M' M ->
  List.length M' = Z.to_nat (2 ^ span) /\
  Forall (fun row => List.length row = Z.to_nat (2 ^ span)) M' /\
  Forall (Forall (fun entry =>
            - (3 * delta * (1 / 2) ^ Z.to_nat span)
            <= ComplexOps.norm2 entry - (1 / 2) ^ Z.to_nat span
            <= 3 * delta * (1 / 2) ^ Z.to_nat span)) M' /\
  Forall (fun row => - (3 * delta) <= totalNorm2 row - 1 <= 3 * delta) M'.
Proof.
  intros Hspan Hdelta M HM'. subst M.
  assert (Hside : Js.shl 1 span = (2 ^ span)%Z) by (apply shl_one; lia).
  assert (Hq : Js.pow 0.5 (IZR span / 2) * Js.pow 0.5 (IZR span / 2)
               = (1 / 2) ^ Z.to_nat span) by (apply pow_half_span_sqr; lia).
  assert (Hm : 0 <= Js.pow 0.5 (IZR span / 2))
    by (left; unfold Js.pow, Rpower; apply exp_pos).
  unfold AllGates.FOURIER_TRANSFORM_MATRIX_MAKER in HM'. rewrite Hside in HM'.
  set (N := Z.to_nat (2 ^ span)).
  assert (Hrows :
    Forall (fun row' =>
              List.length row' = N /\
              Forall (fun entry =>
                - (3 * delta * (1 / 2) ^ Z.to_nat span)
                <= ComplexOps.norm2 entry - (1 / 2) ^ Z.to_nat span
                <= 3 * delta * (1 / 2) ^ Z.to_nat span) row') M').
  { unfold matrixWithinTolerance in HM'.
    eapply Forall2_Forall_l; [| exact HM' |].
    2:{ apply Forall_forall. intros row Hrow.
        unfold MatrixOps.generate in Hrow. apply in_map_iff in Hrow.
        destruct Hrow as (r & <- & _).
        instantiate (1 := fun row =>
          List.length row = N /\
          Forall (fun e => ComplexOps.norm2 e = (1 / 2) ^ Z.to_nat span) row).
        cbv beta. split.
        - rewrite length_map. apply range_length.
        - apply Forall_forall. intros e He. apply in_map_iff in He.
          destruct He as (c & <- & _). now rewrite polar_norm2. }
    cbv beta. intros row' row Hclose [Hlen Hnorm]. split.
    - now rewrite (Forall2_length Hclose).
    - eapply Forall2_Forall_l; [| exact Hclose | exact Hnorm].
      cbv beta. intros e' e Hd He.
      exact (entry_norm_stable Hm Hq Hdelta He Hd). }
  split; [| split; [| split]].
  - rewrite (Forall2_length HM'). apply generate_length.
  - eapply Forall_impl; [| exact Hrows]. cbv beta. now intros row' [Hlen _].
  - eapply Forall_impl; [| exact Hrows]. cbv beta. now intros row' [_ Hn].
  - eapply Forall_impl; [| exact Hrows]. cbv beta. intros row' [Hlen Hn].
    pose proof (row_sum_stable Hn) as Hsum. rewrite Hlen in Hsum.
    pose proof (@side_times_entry span ltac:(lia)) as Hone. fold N in Hone.
    replace (INR N * (3 * delta * (1 / 2) ^ Z.to_nat span))
      with (3 * delta * (INR N * (1 / 2) ^ Z.to_nat span)) in Hsum by ring.
    rewrite Hone in Hsum. lra.
Qed.

Lemma fourier_matrix_is_normalised_witness :
  (0 <= 3 <= 30)%Z /\ (0 <= 1e-15 <= 1)%R /\
  Forall (fun row => (- (3 * 1e-15) <= totalNorm2 row - 1 <= 3 * 1e-15)%R)
         (AllGates.FOURIER_TRANSFORM_MATRIX_MAKER 3).
Proof.
  assert (Hspan : (0 <= 3 <= 30)%Z) by lia.
  assert (Hdelta : (0 <= 1e-15 <= 1)%R) by lra.
  split; [exact Hspan |]. split; [exact Hdelta |].
  apply (@fourier_matrix_is_normalised 3 1e-15
           (AllGates.FOURIER_TRANSFORM_MATRIX_MAKER 3) Hspan Hdelta
           (matrixWithinTolerance_refl _ _)).
Defined.

(** Applying the matrix of span 1 twice gives the state back. *)
Lemma hadamard_twice (a b : Complex) :
  MatrixOps.apply (AllGates.FOURIER_TRANSFORM_MATRIX_MAKER 1)
    (MatrixOps.apply (AllGates.FOURIER_TRANSFORM_MATRIX_MAKER 1) [a; b])
  = [a; b].
Proof.
  rewrite !hadamard_apply. cbn [real imag].
  assert (Hs : sqrt (1 / 2) ^ 2 = 1 / 2)
    by (cbn [pow]; rewrite Rmult_1_r; exact sqrt_half_sqr).
  destruct a as [ar ai], b as [br bi]. cbn [real imag].
  repeat match goal with
         | |- _ :: _ = _ :: _ => f_equal
         | |- mkComplex _ _ = mkComplex _ _ => f_equal
         end; ring_simplify; rewrite Hs; lra.
Qed.

(** Two evaluations in a row of the application of the matrix of span 1,
    each accurate to [delta], on a state of total squared magnitude 1 at
    most, give the state back within [23 * delta]. *)
Lemma hadamard_twice_stable (a b : Complex) (delta : R) (m' : Matrix)
    (out' back' : list Complex) :
  totalNorm2 [a; b] <= 1 -> 0 <= delta <= 1 / 5 ->
  matrixWithinTolerance delta m' (AllGates.FOURIER_TRANSFORM_MATRIX_MAKER 1) ->
  withinTolerance delta out' (MatrixOps.apply m' [a; b]) ->
  withinTolerance delta back' (MatrixOps.apply m' out') ->
  Forall2 (near (23 * delta)) back' [a; b].
Proof.
  intros Hstate Hdelta Hm' Hout' Hback'.
  pose proof (hadamard_stable Hstate (proj1 Hdelta) Hm' Hout') as Hfirst.
  destruct (state_amplitudes_bounded Hstate) as [[Har Hai] [Hbr Hbi]].
  cbn [ComplexOps.zero ComplexOps.from real imag] in Har, Hai, Hbr, Hbi.
  rewrite Rminus_0_r in Har, Hai, Hbr, Hbi.
  pose proof sqrt_half_bounds as Hs.
  inversion Hfirst as [| o1 i1 t1 t10 Ho1 Ht1]; subst.
  inversion Ht1 as [| o2 i2 t2 t20 Ho2 Ht2]; subst. inversion Ht2; subst.
  assert (Hbound : forall u v : R,
            - 1 <= u <= 1 -> - 1 <= v <= 1 ->
            - 2 <= sqrt (1 / 2) * (u + v) <= 2 /\
            - 2 <= sqrt (1 / 2) * (u - v) <= 2).
  { intros u v Hu Hv.
    assert (- (1 * 2) <= sqrt (1 / 2) * (u + v) <= 1 * 2)
      by (apply product_within; lra).
    assert (- (1 * 2) <= sqrt (1 / 2) * (u - v) <= 1 * 2)
      by (apply product_within; lra).
    lra. }
  destruct (Hbound _ _ Har Hbr) as [Hr1 Hr2].
  destruct (Hbound _ _ Hai Hbi) as [Hi1 Hi2].
  assert (Bo1 : near 3 o1 ComplexOps.zero).
  { destruct Ho1 as [H1 H2]. cbn [real imag] in H1, H2.
    unfold near, ComplexOps.zero, ComplexOps.from. cbn [real imag].
    rewrite !Rminus_0_r. split; lra. }
  assert (Bo2 : near 3 o2 ComplexOps.zero).
  { destruct Ho2 as [H1 H2]. cbn [real imag] in H1, H2.
    unfold near, ComplexOps.zero, ComplexOps.from. cbn [real imag].
    rewrite !Rminus_0_r. split; lra. }
  pose proof (hadamard_evaluation (proj1 Hdelta) Bo1 Bo2 Hm' Hback') as Hsecond.
  pose proof (hadamard_near_vectors Ho1 Ho2) as Hmove.
  rewrite <- hadamard_apply, hadamard_twice in Hmove.
  rewrite hadamard_apply in Hsecond, Hmove.
  inversion Hsecond as [| k1 l1 u1 u10 Hk1 Hu1]; subst.
  inversion Hu1 as [| k2 l2 u2 u20 Hk2 Hu2]; subst. inversion Hu2; subst.
  inversion Hmove as [| l1' a' w1 w10 Hl1 Hw1]; subst.
  inversion Hw1 as [| l2' b' w2 w20 Hl2 Hw2]; subst. inversion Hw2; subst.
  constructor; [| constructor; [| constructor]].
  - replace (23 * delta) with (4 * (delta * 3) + delta + 2 * (5 * delta))
      by ring.
    eapply near_trans; [exact Hk1 | exact Hl1].
  - replace (23 * delta) with (4 * (delta * 3) + delta + 2 * (5 * delta))
      by ring.
    eapply near_trans; [exact Hk2 | exact Hl2].
Qed.

End FourierMatrixFacts.

Section FourierInvolution.

Variables Tex Pass : Type.
Variable imp : Imports Tex Pass.

Local Open Scope R_scope.

(** X4.  The Fourier transform gate of span 1 undoes itself within
    rounding: applied to a single-qubit state of total squared magnitude 1
    at most and then, at any later time, to the result, it gives the state
    back within the tolerance 1e-6; and so do any two evaluations of the
    application that are accurate to 1e-8, each holding for each entry of
    the matrix a number within 1e-8 of it and yielding for each amplitude of
    the product a number within 1e-8 of it. *)
Theorem fourier_size1_is_involution (a b : Complex) (t1 t2 : R)
    (s : Js.RandomSource) :
  totalNorm2 [a; b] <= 1 ->
  exists g m out back,
    ofSize (AllGates.FourierTransformFamily imp) 1 = Some g /\
    matrixOrFunc g = KnownMatrix m /\
    applyAt g t1 [a; b] s = (Some out, s) /\
    applyAt g t2 out s = (Some back, s) /\
    withinTolerance 1e-6 back [a; b] /\
    forall (delta : R) (m' : Matrix) (out' back' : list Complex),
      0 <= delta <= 1e-8 ->
      matrixWithinTolerance delta m' m ->
      withinTolerance delta out' (MatrixOps.apply m' [a; b]) ->
      withinTolerance delta back' (MatrixOps.apply m' out') ->
      withinTolerance 1e-6 back' [a; b].
Proof.
  intros Hstate.
  destruct (fourier_size1_gate imp) as (g & Hg & Hm).
  exists g, (AllGates.FOURIER_TRANSFORM_MATRIX_MAKER 1).
  eexists. eexists. split; [exact Hg |]. split; [exact Hm |].
  split; [apply (applyAt_known g t1 [a; b] s Hm) |].
  split; [rewrite (applyAt_known g t2 _ s Hm), hadamard_twice; reflexivity |].
  split; [apply withinTolerance_refl |].
  intros delta m' out' back' Hdelta Hm' Hout' Hback'.
  assert (Hd : 0 <= delta <= 1 / 5) by lra.
  pose proof (hadamard_twice_stable Hstate Hd Hm' Hout' Hback') as Hnear.
  apply (withinTolerance_of_near (c := 23 * delta)); [nra | nra | exact Hnear].
Qed.

End FourierInvolution.

Lemma fourier_size1_is_involution_witness :
  (totalNorm2 [ComplexOps.one; ComplexOps.zero] <= 1)%R /\
  exists g out back,
    ofSize (AllGates.FourierTransformFamily Symbolic.imports) 1 = Some g /\
    applyAt g 0%R [ComplexOps.one; ComplexOps.zero] Symbolic.source
      = (Some out, Symbolic.source) /\
    applyAt g 1%R out Symbolic.source = (Some back, Symbolic.source) /\
    withinTolerance 1e-6 back [ComplexOps.one; ComplexOps.zero].
Proof.
  assert (H : (totalNorm2 [ComplexOps.one; ComplexOps.zero] <= 1)%R)
    by (unfold totalNorm2, ComplexOps.norm2, ComplexOps.one, ComplexOps.zero,
          ComplexOps.from; cbn [fold_right real imag]; lra).
  split; [exact H |].
  destruct (@fourier_size1_is_involution _ _ Symbolic.imports
              ComplexOps.one ComplexOps.zero 0%R 1%R Symbolic.source H)
    as (g & m & out & back & Hg & _ & Hout & Hback & Hnear & _).
  exists g, out, back. repeat split; assumption.
Defined.

(** ** The swap gate half *)

Section SwapHalfFacts.

Variables Tex Pass : Type.

Lemma swap_half_matrix :
  matrixOrFunc (AllGates.SwapHalf Tex Pass) =
  KnownMatrix
    [[ComplexOps.from 1; ComplexOps.from 0; ComplexOps.from 0; ComplexOps.from 0];
     [ComplexOps.from 0; ComplexOps.from 0; ComplexOps.from 1; ComplexOps.from 0];
     [ComplexOps.from 0; ComplexOps.from 1; ComplexOps.from 0; ComplexOps.from 0];
     [ComplexOps.from 0; ComplexOps.from 0; ComplexOps.from 0; ComplexOps.from 1]].
Proof. reflexivity. Qed.

(** X5.  The matrix of the swap gate half exchanges the amplitudes at the
    addresses 1 and 2 of a two-qubit state and keeps the ones at 0 and 3;
    applied a second time, at any time, it gives the state back. *)
Theorem swap_half_exchanges (a b c d : Complex) (t1 t2 : R)
    (s : Js.RandomSource) :
  applyAt (AllGates.SwapHalf Tex Pass) t1 [a; b; c; d] s
    = (Some [a; c; b; d], s) /\
  applyAt (AllGates.SwapHalf Tex Pass) t2 [a; c; b; d] s
    = (Some [a; b; c; d], s).
Proof.
  split.
  - rewrite (applyAt_known _ t1 [a; b; c; d] s swap_half_matrix).
    unfold MatrixOps.apply. cbn [map MatrixOps.dot].
    simplify_amplitudes. reflexivity.
  - rewrite (applyAt_known _ t2 [a; c; b; d] s swap_half_matrix).
    unfold MatrixOps.apply. cbn [map MatrixOps.dot].
    simplify_amplitudes. reflexivity.
Qed.

End SwapHalfFacts.

(** ** The square waves of the clock pulse gates *)

Section SquareWaveFacts.

Variables Tex Pass : Type.

Local Open Scope R_scope.

(** X6.  The clock pulse gate keeps its promise of a stable duration of
    0.5: over the k-th half period [k/2, (k+1)/2) of the times that are not
    negative its matrix does not change; it is the identity when k is even
    and Pauli X when k is odd. *)
Theorem clock_pulse_half_periods (k : nat) (t : R) (s : Js.RandomSource) :
  INR k * 0.5 <= t < (INR k + 1) * 0.5 ->
  stability (AllGates.ClockPulseGate Tex Pass) = StableFor 0.5 /\
  matrixAt (AllGates.ClockPulseGate Tex Pass) t s
  = (Some (if Nat.even k then MatrixOps.identity 2 else MatrixOps.PAULI_X),
     s).
Proof.
  intros Ht. split; [reflexivity |]. rewrite clock_matrix.
  pose proof (pos_INR k) as Hk.
  destruct (Nat.Even_or_Odd k) as [[n ->] | [n ->]].
  - rewrite mult_INR in Ht. cbn [INR] in Ht.
    replace (INR 1 + 1) with 2 in Ht by (cbn; lra).
    pose proof (pos_INR n) as Hn.
    rewrite (rem_fraction (Z.of_nat n))
      by (rewrite <- ?INR_IZR_INZ; lra).
    rewrite <- INR_IZR_INZ.
    replace (Nat.even (2 * n)) with true
      by (symmetry; apply Nat.even_spec; now exists n).
    destruct (Rlt_dec (t - INR n) 0.5); [reflexivity | lra].
  - rewrite plus_INR, mult_INR in Ht. cbn [INR] in Ht.
    replace (INR 1 + 1) with 2 in Ht by (cbn; lra).
    pose proof (pos_INR n) as Hn.
    rewrite (rem_fraction (Z.of_nat n))
      by (rewrite <- ?INR_IZR_INZ; lra).
    rewrite <- INR_IZR_INZ.
    replace (Nat.even (2 * n + 1)) with false.
    + destruct (Rlt_dec (t - INR n) 0.5); [lra | reflexivity].
    + symmetry. rewrite <- Nat.negb_odd.
      replace (Nat.odd (2 * n + 1)) with true; [reflexivity |].
      symmetry. apply Nat.odd_spec. now exists n.
Qed.

(** X7.  The quarter-phase clock pulse gate keeps its promise of a stable
    duration of 0.25 at the times whose sum with 0.75 is a double, so is not
    rounded: at such a time of the k-th quarter period [k/4, (k+1)/4) of the
    times that are not negative its matrix is the identity in the second
    and third quarters of each period and Pauli X in the first and the
    fourth.  (Where the sum is rounded the promise is not kept up to the
    end of the quarter period: see [quarter_phase_clock_rounds_the_sum].) *)
Theorem quarter_phase_clock_quarter_periods (k : nat) (t : R)
    (s : Js.RandomSource) :
  INR k * 0.25 <= t < (INR k + 1) * 0.25 ->
  Js.add t 0.75 = t + 0.75 ->
  stability (AllGates.QuarterPhaseClockPulseGate Tex Pass) = StableFor 0.25 /\
  matrixAt (AllGates.QuarterPhaseClockPulseGate Tex Pass) t s
  = (Some (if Nat.eqb (k mod 4) 1 || Nat.eqb (k mod 4) 2
           then MatrixOps.identity 2 else MatrixOps.PAULI_X), s).
Proof.
  intros Ht Hexact. split; [reflexivity |].
  rewrite quarter_clock_matrix, Hexact.
  pose proof (Nat.div_mod_eq k 4) as Hdiv.
  pose proof (Nat.mod_upper_bound k 4 ltac:(lia)) as Hmod.
  set (n := (k / 4)%nat) in *. set (j := (k mod 4)%nat) in *.
  assert (HINR : INR k = 4 * INR n + INR j).
  { rewrite Hdiv, plus_INR, mult_INR. cbn [INR]. lra. }
  rewrite HINR in Ht. pose proof (pos_INR n) as Hn.
  destruct j as [| [| [| [| j]]]]; [| | | | lia];
    cbn [INR Nat.eqb orb] in *.
  - rewrite (rem_fraction (Z.of_nat n))
      by (rewrite <- ?INR_IZR_INZ; lra).
    rewrite <- INR_IZR_INZ.
    destruct (Rlt_dec (t + 0.75 - INR n) 0.5); [lra | reflexivity].
  - rewrite (rem_fraction (Z.of_nat (S n)))
      by (rewrite <- ?INR_IZR_INZ, ?S_INR; lra).
    rewrite <- INR_IZR_INZ, S_INR.
    destruct (Rlt_dec (t + 0.75 - (INR n + 1)) 0.5); [reflexivity | lra].
  - rewrite (rem_fraction (Z.of_nat (S n)))
      by (rewrite <- ?INR_IZR_INZ, ?S_INR; lra).
    rewrite <- INR_IZR_INZ, S_INR.
    destruct (Rlt_dec (t + 0.75 - (INR n + 1)) 0.5); [reflexivity | lra].
  - rewrite (rem_fraction (Z.of_nat (S n)))
      by (rewrite <- ?INR_IZR_INZ, ?S_INR; lra).
    rewrite <- INR_IZR_INZ, S_INR.
    destruct (Rlt_dec (t + 0.75 - (INR n + 1)) 0.5); [lra | reflexivity].
Qed.

(** X8.  Before time 0 the square waves stop: [%] keeps the sign of the
    time, so at every time t <= 0 the clock pulse gate is the identity, and
    so is the quarter-phase gate at every time t <= -0.75.  The wave is not
    continued periodically to the negative times: at -0.25 the clock pulse
    gate is the identity although at 0.75, one period later, it is
    Pauli X. *)
Theorem clock_pulse_before_zero (t : R) (s : Js.RandomSource) :
  t <= 0 ->
  matrixAt (AllGates.ClockPulseGate Tex Pass) t s
    = (Some (MatrixOps.identity 2), s) /\
  matrixAt (AllGates.QuarterPhaseClockPulseGate Tex Pass) (t - 0.75) s
    = (Some (MatrixOps.identity 2), s) /\
  matrixAt (AllGates.ClockPulseGate Tex Pass) (-0.25) s
    <> matrixAt (AllGates.ClockPulseGate Tex Pass) (-0.25 + 1) s.
Proof.
  intros Ht. split; [| split].
  - rewrite clock_matrix. pose proof (rem_not_positive Ht).
    destruct (Rlt_dec (Js.rem t 1) 0.5); [reflexivity | lra].
  - rewrite quarter_is_shifted_clock. apply clock_not_positive.
    unfold Js.add. replace (t - 0.75 + 0.75) with t by lra.
    now apply round64_not_positive.
  - rewrite !clock_matrix.
    assert (Hneg : -0.25 <= 0) by lra.
    pose proof (rem_not_positive Hneg).
    replace (-0.25 + 1) with 0.75 by lra.
    rewrite (rem_first_period (x := 0.75)) by lra.
    destruct (Rlt_dec (Js.rem (-0.25) 1) 0.5); [| lra].
    destruct (Rlt_dec 0.75 0.5); [lra |].
    intros Heq.
    assert (Hcell : real (MatrixOps.cell (MatrixOps.identity 2) 0 0)
                    = real (MatrixOps.cell MatrixOps.PAULI_X 0 0))
      by congruence.
    change (1 = 0) in Hcell. lra.
Qed.

End SquareWaveFacts.

Lemma clock_pulse_half_periods_witness :
  (INR 3 * 0.5 <= 1.6 < (INR 3 + 1) * 0.5)%R /\
  matrixAt (AllGates.ClockPulseGate Symbolic.Tex Symbolic.Pass) 1.6
           Symbolic.source
  = (Some MatrixOps.PAULI_X, Symbolic.source).
Proof.
  assert (H : (INR 3 * 0.5 <= 1.6 < (INR 3 + 1) * 0.5)%R) by (cbn; lra).
  split; [exact H |].
  apply (@clock_pulse_half_periods Symbolic.Tex Symbolic.Pass 3 1.6
           Symbolic.source H).
Defined.

Lemma quarter_phase_clock_quarter_periods_witness :
  (INR 5 * 0.25 <= 1.3125 < (INR 5 + 1) * 0.25)%R /\
  Js.add 1.3125 0.75 = (1.3125 + 0.75)%R /\
  matrixAt (AllGates.QuarterPhaseClockPulseGate Symbolic.Tex Symbolic.Pass)
           1.3125 Symbolic.source
  = (Some (MatrixOps.identity 2), Symbolic.source).
Proof.
  assert (H : (INR 5 * 0.25 <= 1.3125 < (INR 5 + 1) * 0.25)%R)
    by (cbn; lra).
  split; [exact H |]. split; [exact round64_33_sixteenths |].
  apply (@quarter_phase_clock_quarter_periods Symbolic.Tex Symbolic.Pass 5
           1.3125 Symbolic.source H round64_33_sixteenths).
Defined.

Lemma clock_pulse_before_zero_witness :
  (-2.5 <= 0)%R /\
  matrixAt (AllGates.ClockPulseGate Symbolic.Tex Symbolic.Pass) (-2.5)
           Symbolic.source
  = (Some (MatrixOps.identity 2), Symbolic.source).
Proof.
  assert (H : (-2.5 <= 0)%R) by lra.
  split; [exact H |].
  apply (@clock_pulse_before_zero Symbolic.Tex Symbolic.Pass (-2.5)
           Symbolic.source H).
Defined.

(** ** The catalog as a whole *)

Section CatalogFacts.

Variables Tex Pass : Type.
Variable imp : Imports Tex Pass.

Local Open Scope string_scope.

Lemma allDifferent_NoDup (l : list string) :
  allDifferent l = true -> NoDup l.
Proof.
  induction l as [| x l IH]; intros Hall; [constructor |].
  cbn [allDifferent] in Hall. apply andb_prop in Hall.
  destruct Hall as [Hx Hl]. constructor; [| now apply IH].
  intros Hin. apply Bool.negb_true_iff in Hx.
  assert (Hex : existsb (String.eqb x) l = true).
  { apply existsb_exists. exists x. split; [exact Hin | apply String.eqb_refl]. }
  congruence.
Qed.

Ltac member_of_literal :=
  first [ assumption
        | cbn [In]; repeat first [left; reflexivity | right]; fail ].

Ltac known_to_serializer :=
  unfold AllGates.KnownToSerializer;
  repeat (apply in_or_app; first [left; solve [member_of_literal] | right]);
  solve [member_of_literal].

(** X10.  The serialization ids that AllGates.js sets itself, with
    [withSerializedId]: "QFT1" to "QFT16" for the Fourier transform gates,
    "__unstable__UniversalNot", "__debug__ErrorInjection", and
    "__unstable__cycle2" to "__unstable__cycle16" for the bit-cycle gates.
    These 33 ids are pairwise different, and each of the gates is a member
    of [Gates.KnownToSerializer]. *)
Theorem serialized_ids_are_distinct :
  map (@serializedId Tex Pass) (AllGates.withExplicitSerializedId imp)
  = ["QFT1"; "QFT2"; "QFT3"; "QFT4"; "QFT5"; "QFT6"; "QFT7"; "QFT8";
     "QFT9"; "QFT10"; "QFT11"; "QFT12"; "QFT13"; "QFT14"; "QFT15"; "QFT16";
     "__unstable__UniversalNot"; "__debug__ErrorInjection";
     "__unstable__cycle2"; "__unstable__cycle3"; "__unstable__cycle4";
     "__unstable__cycle5"; "__unstable__cycle6"; "__unstable__cycle7";
     "__unstable__cycle8"; "__unstable__cycle9"; "__unstable__cycle10";
     "__unstable__cycle11"; "__unstable__cycle12"; "__unstable__cycle13";
     "__unstable__cycle14"; "__unstable__cycle15"; "__unstable__cycle16"] /\
  NoDup (map (@serializedId Tex Pass) (AllGates.withExplicitSerializedId imp)) /\
  incl (AllGates.withExplicitSerializedId imp) (AllGates.KnownToSerializer imp).
Proof.
  split; [reflexivity |]. split.
  - apply allDifferent_NoDup. reflexivity.
  - intros g Hg. unfold AllGates.withExplicitSerializedId in Hg.
    repeat (apply in_app_or in Hg; destruct Hg as [Hg | Hg]);
      known_to_serializer.
Qed.

(** X11.  Whatever the random source, [Gates.Sets] has twelve groups of six
    places each, under twelve different hints, and every gate it shows,
    but for the mystery gate made while the table is built, is a member of
    [Gates.KnownToSerializer]. *)
Theorem toolbox_gates_are_known_to_serializer (s : Js.RandomSource) :
  let sets := fst (AllGates.Sets imp s) in
  List.length sets = 12%nat /\
  Forall (fun e => List.length (AllGates.gates e) = 6%nat) sets /\
  NoDup (map (@AllGates.hint Tex Pass) sets) /\
  forall e g,
    In e sets -> In (Some g) (AllGates.gates e) ->
    g = fst (AllGates.MysteryGateMaker imp s) \/
    In g (AllGates.KnownToSerializer imp).
Proof.
  intros sets. subst sets. unfold AllGates.Sets, Js.bind.
  destruct (AllGates.MysteryGateMaker imp s) as [mystery s'].
  cbn [fst Js.ret].
  split; [reflexivity |]. split; [| split].
  - repeat constructor.
  - apply allDifferent_NoDup. reflexivity.
  - intros e g He Hg. cbn [In] in He.
    repeat (destruct He as [<- | He];
      [ cbn [AllGates.gates In] in Hg;
        repeat (destruct Hg as [Hg | Hg];
          [ first
              [ discriminate Hg
              | injection Hg as <-;
                first [left; reflexivity | right; known_to_serializer]
              | apply find_some in Hg; destruct Hg as [Hg _];
                right; known_to_serializer ] |]);
        contradiction |]).
    contradiction.
Qed.

(** X12.  Each call of [MysteryGateMaker] reads the next eight draws: the
    second of two calls in a row makes its matrix from the draws 8 to 15
    after the start, and 16 draws are consumed in all.  Building
    [Gates.Sets] makes one call: it consumes eight draws, and the gate in
    its group "Misc" is the gate that [MysteryGateMaker] makes from the same
    source. *)
Theorem mystery_gates_use_fresh_draws (s : Js.RandomSource) :
  let first := AllGates.MysteryGateMaker imp s in
  let second := AllGates.MysteryGateMaker imp (snd first) in
  let d := fun k => (Js.draws s (Js.consumed s + k) - 0.5)%R in
  Js.consumed (snd second) = (Js.consumed s + 16)%nat /\
  matrixOrFunc (fst second) =
    KnownMatrix
      (Matrix_closestUnitary imp
         (MatrixOps.square
            [mkComplex (d 8%nat) (d 9%nat); mkComplex (d 10%nat) (d 11%nat);
             mkComplex (d 12%nat) (d 13%nat); mkComplex (d 14%nat) (d 15%nat)])) /\
  snd (AllGates.Sets imp s) = snd first /\
  exists e,
    In e (fst (AllGates.Sets imp s)) /\
    AllGates.hint e = "Misc" /\
    nth_error (AllGates.gates e) 4 = Some (Some (fst first)).
Proof.
  destruct s as [dr n].
  cbv beta iota zeta delta
    [AllGates.Sets AllGates.MysteryGateMaker Js.bind Js.random Js.ret
     fst snd Js.draws Js.consumed].
  split; [lia |]. split.
  - unfold AllGates.MysteryGateMakerWithMatrix.
    cbn [matrixOrFunc fromKnownMatrix].
    replace (n + 8)%nat with (S (S (S (S (S (S (S (S n)))))))) by lia.
    replace (n + 9)%nat with (S (S (S (S (S (S (S (S (S n))))))))) by lia.
    replace (n + 10)%nat
      with (S (S (S (S (S (S (S (S (S (S n)))))))))) by lia.
    replace (n + 11)%nat
      with (S (S (S (S (S (S (S (S (S (S (S n))))))))))) by lia.
    replace (n + 12)%nat
      with (S (S (S (S (S (S (S (S (S (S (S (S n)))))))))))) by lia.
    replace (n + 13)%nat
      with (S (S (S (S (S (S (S (S (S (S (S (S (S n))))))))))))) by lia.
    replace (n + 14)%nat
      with (S (S (S (S (S (S (S (S (S (S (S (S (S (S n))))))))))))))
      by lia.
    replace (n + 15)%nat
      with (S (S (S (S (S (S (S (S (S (S (S (S (S (S (S n)))))))))))))))
      by lia.
    reflexivity.
  - split; [reflexivity |].
    eexists. split; [do 5 right; left; reflexivity |].
    split; reflexivity.
Qed.

End CatalogFacts.

(** ** What the initializer leaves behind *)

Section InitializerTrace.

Import Wgl WglTexture.

Ltac run_gl :=
  cbv beta iota zeta delta
    [textureAndFramebufferInitializer andThen createTexture createFramebuffer
     call logged getError checkFramebufferStatus checkGetErrorResult
     checkFrameBufferStatusResult pure throw
     getErrorAnswers getErrorCalls statusAnswers statusCalls
     texturesCreated framebuffersCreated log texture framebuffer].

Ltac thrown_case :=
  split; [reflexivity |]; split; [reflexivity |]; split; [reflexivity |];
  split;
    [ intros [pair Hpair]; discriminate Hpair
    | intros (H1 & H2 & H3); contradiction ].

(** X13.  Whether it returns or throws, the initializer creates one texture
    and one framebuffer.  It stops at the first check that fails: the calls
    it has made are the calls of a successful initialization up to the read
    of the failing answer, so that after a throw the texture and the
    framebuffer just created are still bound, nothing having unbound or
    deleted them; it returns exactly when the three answers are NO_ERROR,
    NO_ERROR and FRAMEBUFFER_COMPLETE. *)
Theorem initializer_creates_then_stops (this : WglTexture) (g : Gl) :
  let e1 := getErrorAnswers g (getErrorCalls g) in
  let e2 := getErrorAnswers g (S (getErrorCalls g)) in
  let st := statusAnswers g (statusCalls g) in
  let run := textureAndFramebufferInitializer this g in
  let skipped :=
    if negb (Z.eqb e1 NO_ERROR) then 5%nat
    else if negb (Z.eqb e2 NO_ERROR) then 3%nat
    else if negb (Z.eqb st FRAMEBUFFER_COMPLETE) then 2%nat
    else 0%nat in
  texturesCreated (snd run) = S (texturesCreated g) /\
  framebuffersCreated (snd run) = S (framebuffersCreated g) /\
  log (snd run) =
    skipn skipped
      (initializationCalls (width this) (height this) (pixelType this)
         (texturesCreated g) (framebuffersCreated g)) ++ log g /\
  ((exists pair, fst run = Js.Returned pair) <->
   e1 = NO_ERROR /\ e2 = NO_ERROR /\ st = FRAMEBUFFER_COMPLETE).
Proof.
  destruct g as [errs nerr stats nstat ntex nfb calls].
  cbn [getErrorAnswers getErrorCalls statusAnswers statusCalls
       texturesCreated framebuffersCreated log].
  cbv zeta. run_gl.
  destruct (Z.eqb_spec (errs nerr) NO_ERROR) as [He1 | He1]; run_gl;
    cbn [negb fst snd skipn app initializationCalls];
    [| thrown_case ].
  destruct (Z.eqb_spec (errs (S nerr)) NO_ERROR) as [He2 | He2]; run_gl;
    cbn [negb fst snd skipn app initializationCalls];
    [| thrown_case ].
  destruct (Z.eqb_spec (stats nstat) FRAMEBUFFER_COMPLETE) as [Hst | Hst];
    cbn [negb fst snd skipn app initializationCalls];
    [| thrown_case ].
  split; [reflexivity |]. split; [reflexivity |]. split; [reflexivity |].
  split; [intros _; repeat split; assumption | intros _; now eexists].
Qed.

(** X14.  On a context whose driver reports no error and complete
    framebuffers, the first [bindFramebufferFor] of a texture returns; after
    the calls of the initializer it makes three calls, the first of which
    binds the framebuffer just created; and this framebuffer is the one that
    [instanceFor] returns afterwards. *)
Theorem bindFramebufferFor_binds_the_instance (w h : Z) (p : option Z)
    (ctx : WglContext) :
  (forall n, getErrorAnswers (gl ctx) n = NO_ERROR) ->
  (forall n, statusAnswers (gl ctx) n = FRAMEBUFFER_COMPLETE) ->
  exists this' ctx',
    bindFramebufferFor (new w h p) ctx = (Js.Returned tt, this', ctx') /\
    log (gl ctx') =
      [CheckFramebufferStatus FRAMEBUFFER; GetError;
       BindFramebuffer FRAMEBUFFER (Some (framebuffersCreated (gl ctx)))]
      ++ initializationCalls w h (pixelType (new w h p))
           (texturesCreated (gl ctx)) (framebuffersCreated (gl ctx))
      ++ log (gl ctx) /\
    texturesCreated (gl ctx') = S (texturesCreated (gl ctx)) /\
    framebuffersCreated (gl ctx') = S (framebuffersCreated (gl ctx)) /\
    instanceFor this' ctx' =
      (Js.Returned (mkTextureAndFramebuffer (texturesCreated (gl ctx))
                                            (framebuffersCreated (gl ctx))),
       this', ctx').
Proof.
  intros Herr Hstat. unfold bindFramebufferFor. rewrite instanceFor_new.
  rewrite (initializer_succeeds (new w h p) (gl ctx)
             (Herr _) (Herr _) (Hstat _)).
  destruct ctx as [ident life g].
  destruct g as [errs nerr stats nstat ntex nfb calls].
  cbn [gl identity lifetimeCounter getErrorAnswers getErrorCalls
       statusAnswers statusCalls texturesCreated framebuffersCreated log
       framebuffer width height new] in *.
  run_gl. rewrite Herr. change (NO_ERROR =? NO_ERROR) with true. run_gl.
  rewrite Hstat.
  change (FRAMEBUFFER_COMPLETE =? FRAMEBUFFER_COMPLETE) with true.
  eexists. eexists. split; [reflexivity |].
  cbn [gl log texturesCreated framebuffersCreated].
  split; [reflexivity |]. split; [reflexivity |]. split; [reflexivity |].
  unfold instanceFor, initializedValue.
  cbn [_textureAndFrameBufferSlot mortalValues cachedFor identity
       lifetimeCounter].
  rewrite Nat.eqb_refl, Z.eqb_refl. reflexivity.
Qed.

End InitializerTrace.

Lemma bindFramebufferFor_binds_the_instance_witness :
  (forall n, Wgl.getErrorAnswers (Wgl.gl WglTexture.healthyContext) n
             = Wgl.NO_ERROR) /\
  (forall n, Wgl.statusAnswers (Wgl.gl WglTexture.healthyContext) n
             = Wgl.FRAMEBUFFER_COMPLETE) /\
  exists this' ctx',
    WglTexture.bindFramebufferFor (WglTexture.new 4 2 None)
                                  WglTexture.healthyContext
    = (Js.Returned tt, this', ctx') /\
    Wgl.texturesCreated (Wgl.gl ctx') = 1%nat.
Proof.
  assert (He : forall n,
            Wgl.getErrorAnswers (Wgl.gl WglTexture.healthyContext) n
            = Wgl.NO_ERROR) by reflexivity.
  assert (Hs : forall n,
            Wgl.statusAnswers (Wgl.gl WglTexture.healthyContext) n
            = Wgl.FRAMEBUFFER_COMPLETE) by reflexivity.
  split; [exact He |]. split; [exact Hs |].
  destruct (@bindFramebufferFor_binds_the_instance 4 2 None
              WglTexture.healthyContext He Hs)
    as (this' & ctx' & Hbind & _ & Htex & _).
  exists this', ctx'. split; [exact Hbind | exact Htex].
Defined.

(** ** The measurement gate *)

Section MeasurementFacts.

Import MeasurementGate.

Lemma toInt32_range (x : Z) : - 2 ^ 31 <= Js.toInt32 x < 2 ^ 31.
Proof.
  unfold Js.toInt32.
  change (2 ^ 31) with 2147483648. change (2 ^ 32) with 4294967296.
  pose proof (Z.mod_pos_bound (x + 2147483648) 4294967296 ltac:(lia)). lia.
Qed.

(** The first 32 bits of an integer are kept by the conversion. *)
Lemma toInt32_testbit (x i : Z) :
  0 <= i < 32 -> Z.testbit (Js.toInt32 x) i = Z.testbit x i.
Proof.
  intros Hi.
  assert (Hq : exists q, Js.toInt32 x = x + q * 2 ^ 32).
  { exists (- ((x + 2 ^ 31) / 2 ^ 32)). unfold Js.toInt32.
    rewrite Z.mod_eq by (change (2 ^ 32) with 4294967296; lia). lia. }
  destruct Hq as [q Hq].
  rewrite <- (Z.mod_pow2_bits_low (Js.toInt32 x) 32 i) by lia.
  rewrite <- (Z.mod_pow2_bits_low x 32 i) by lia.
  now rewrite Hq, Z.mod_add by (change (2 ^ 32) with 4294967296; lia).
Qed.

(** From bit 31 on the bits of a 32-bit integer repeat its sign. *)
Lemma int32_sign_bits (a i : Z) :
  - 2 ^ 31 <= a < 2 ^ 31 -> 31 <= i ->
  Z.testbit a i = Z.testbit a 31.
Proof.
  intros Ha Hi. destruct (Z_lt_le_dec a 0) as [Hneg | Hpos].
  - replace a with (- (- a)) by lia.
    rewrite !Z.bits_opp by lia.
    assert (Hp : 0 <= Z.pred (- a) < 2 ^ 31) by lia.
    now rewrite (testbit_above Hp Hi), (testbit_above (i := 31) Hp) by lia.
  - assert (Hp : 0 <= a < 2 ^ 31) by lia.
    now rewrite (testbit_above Hp Hi), (testbit_above (i := 31) Hp) by lia.
Qed.

(** The bits of [1 << row]: one bit, at [row] modulo 32, repeated upwards
    when it is the sign bit. *)
Lemma shl_one_testbit (row i : Z) :
  0 <= i ->
  Z.testbit (Js.shl 1 row) i
  = if Z.eqb (row mod 32) 31 then 31 <=? i else Z.eqb (row mod 32) i.
Proof.
  intros Hi.
  pose proof (Z.mod_pos_bound row 32 ltac:(lia)) as Hk.
  unfold Js.shl.
  rewrite (@toInt32_small 1) by (change (2 ^ 31) with 2147483648; lia).
  rewrite Z.shiftl_1_l.
  destruct (Z.eqb_spec (row mod 32) 31) as [-> | Hne].
  - change (Js.toInt32 (2 ^ 31)) with (- 2 ^ 31).
    rewrite Z.bits_opp by lia.
    replace (Z.pred (2 ^ 31)) with (Z.ones 31)
      by (rewrite Z.ones_equiv; reflexivity).
    rewrite Z.testbit_ones_nonneg by lia.
    destruct (Z.ltb_spec i 31), (Z.leb_spec 31 i); try lia; reflexivity.
  - rewrite toInt32_small.
    + apply Z.pow2_bits_eqb. lia.
    + assert (0 < 2 ^ (row mod 32) <= 2 ^ 30).
      { split; [apply Z.pow_pos_nonneg; lia |].
        apply Z.pow_le_mono_r; lia. }
      change (2 ^ 31) with 2147483648.
      change (2 ^ 30) with 1073741824 in *. lia.
Qed.

(** [(mask & (1 << row)) !== 0] reads the bit of [mask] at [row] modulo
    32. *)
Lemma measured_bit (mask row : Z) :
  negb (Z.eqb (Js.band mask (Js.shl 1 row)) 0)
  = Z.testbit mask (row mod 32).
Proof.
  pose proof (Z.mod_pos_bound row 32 ltac:(lia)) as Hk.
  set (k := row mod 32) in *.
  unfold Js.band.
  assert (Hshl : Js.toInt32 (Js.shl 1 row) = Js.shl 1 row).
  { unfold Js.shl at 2. unfold Js.shl. apply toInt32_small, toInt32_range. }
  rewrite Hshl.
  rewrite <- (@toInt32_testbit mask k) by lia.
  pose proof (toInt32_range mask) as Ha.
  set (a := Js.toInt32 mask) in *.
  assert (Hbits : forall i, 0 <= i ->
            Z.testbit (Z.land a (Js.shl 1 row)) i = true ->
            Z.testbit a k = true).
  { intros i Hi Hb. rewrite Z.land_spec, shl_one_testbit in Hb by exact Hi.
    fold k in Hb. apply andb_prop in Hb. destruct Hb as [Hai Hti].
    destruct (Z.eqb_spec k 31) as [Hk31 | Hk31].
    - apply Z.leb_le in Hti. rewrite Hk31.
      now rewrite <- (int32_sign_bits Ha Hti).
    - apply Z.eqb_eq in Hti. now subst i. }
  destruct (Z.testbit a k) eqn:Hak.
  - apply Bool.negb_true_iff. apply Z.eqb_neq. intros Hzero.
    assert (Hb : Z.testbit (Z.land a (Js.shl 1 row)) k = true).
    { rewrite Z.land_spec, Hak, shl_one_testbit by lia. fold k.
      destruct (Z.eqb_spec k 31) as [-> | _];
        [reflexivity | apply Z.eqb_refl]. }
    rewrite Hzero, Z.bits_0 in Hb. discriminate Hb.
  - apply Bool.negb_false_iff. apply Z.eqb_eq.
    apply Z.bits_inj'. intros i Hi. rewrite Z.bits_0.
    destruct (Z.testbit (Z.land a (Js.shl 1 row)) i) eqn:Hb;
      [| reflexivity].
    specialize (Hbits i Hi Hb). discriminate Hbits.
Qed.

(** X15.  The measurement gate gives a reason to be disabled in two cases
    only.  In a nested circuit the reason is "can't nest measure (sorry)",
    whatever the rest.  Else, when the column holds a control and the wire
    of the gate is not measured yet, it is "can't control (sorry)".  The wire
    is measured when the bit of the mask at the row, counted modulo 32, is
    set: [1 << outerRow] wraps, so that the rows 32 and 0 read the same
    bit. *)
Theorem measurement_disable_reason (args : DisableReasonArgs) :
  extraDisableReasonFinder MeasurementGate args =
    (if isNested args
     then Some ("can't" ++ newline ++ "nest" ++ newline ++ "measure"
                ++ newline ++ "(sorry)")%string
     else if innerColumn_hasControl args
             && negb (Z.testbit (measuredMask args) (outerRow args mod 32))
          then Some ("can't" ++ newline ++ "control" ++ newline
                     ++ "(sorry)")%string
          else None) /\
  (extraDisableReasonFinder MeasurementGate args = None <->
   isNested args = false /\
   (innerColumn_hasControl args = true ->
    Z.testbit (measuredMask args) (outerRow args mod 32) = true)) /\
  extraDisableReasonFinder MeasurementGate
    (mkDisableReasonArgs (isNested args) (measuredMask args)
                         (outerRow args + 32) (innerColumn_hasControl args))
  = extraDisableReasonFinder MeasurementGate args.
Proof.
  assert (Hfinder : forall a,
            extraDisableReasonFinder MeasurementGate a =
            (if isNested a
             then Some ("can't" ++ newline ++ "nest" ++ newline ++ "measure"
                        ++ newline ++ "(sorry)")%string
             else if innerColumn_hasControl a
                     && negb (Z.testbit (measuredMask a) (outerRow a mod 32))
                  then Some ("can't" ++ newline ++ "control" ++ newline
                             ++ "(sorry)")%string
                  else None)).
  { intros a. change (extraDisableReasonFinder MeasurementGate a)
      with (disableReasonFinder a).
    unfold disableReasonFinder. cbv zeta. now rewrite measured_bit. }
  split; [apply Hfinder |]. split.
  - rewrite Hfinder. destruct (isNested args).
    + split; [discriminate | intros [Hn _]; discriminate Hn].
    + destruct (innerColumn_hasControl args),
        (Z.testbit (measuredMask args) (outerRow args mod 32));
        cbn [andb negb]; split; intros H;
        try discriminate H; try reflexivity;
        try (split; [reflexivity | tauto]).
      destruct H as [_ Hm]. specialize (Hm eq_refl). discriminate Hm.
  - rewrite !Hfinder. cbn [isNested measuredMask outerRow innerColumn_hasControl].
    replace ((outerRow args + 32) mod 32) with (outerRow args mod 32);
      [reflexivity |].
    replace (outerRow args + 32) with (outerRow args + 1 * 32) by lia.
    now rewrite Z.mod_add by lia.
Qed.

End MeasurementFacts.
